(** * Voice supervisor, follower and playback queue of the Discord TTS bot

    A shallow embedding of [voice/voiceManager.ts] (class [VoiceManager]),
    [voice/follow.ts] (class [VoiceFollower]) and [tts/queue.ts] (class
    [TtsQueue]), followed by the properties established about them.

    Conventions of the embedding.
    - JavaScript strings are lists of code units restricted to the range
      0..255 ([list ascii]); guild and channel identifiers are [string]s
      used as map keys.
    - Objects with identity (voice connections, lock promises) are named by
      natural numbers handed out in creation order.
    - An [async] function is cut at its [await]s: every piece of code that
      runs without suspension is one function ("block"), and the scheduler
      defined after the supervisor interleaves blocks of different calls.
    - What the environment decides (outcome of a connection attempt, value
      of [Math.random()], reading of [Date.now()], files on disk, whether the
      transport grants a subscription) is an explicit argument.
    - The transport library is not part of the sources. Of it the embedding
      takes that [joinVoiceChannel] hands out a connection object, here a
      new one for every call, that [destroy()] is idempotent and does not
      throw, and that the status signals of a connection reach the handlers
      as events of their own, at any time after the handlers were
      registered.
    - The scheduler has no event for [cleanup] and [cleanupAll], which
      delete sessions: under it a session, once created, stays in the map.
      The two methods are embedded as functions of the supervisor object.

    The embedding goes on with the code around the three classes: the
    debounce of the follower, the playback half of the queue, the settings
    file ([util/settings.ts]) and the commands [/say] and [/247]. *)

From Stdlib Require Import ZArith QArith Qminmax Lqa Lia List Ascii String Bool.
From stdpp Require Import base gmap strings list.
Import ListNotations.

Abbreviation GuildId := string (only parsing).
Abbreviation ChannelId := string (only parsing).
Abbreviation Error := string (only parsing).
Abbreviation ConnId := nat (only parsing).
Abbreviation LockId := nat (only parsing).

(** The result of an awaited promise, and the result of a call. *)
Inductive Settle := Fulfilled | Rejected (e : Error).

Inductive Result (A : Type) := Returns (a : A) | Throws (e : Error).
Arguments Returns {A} a.
Arguments Throws {A} e.

(** [VoiceBasedChannel]: the two fields the supervisor reads,
    [channel.id] and [channel.guild.id]. *)
Record VoiceBasedChannel := { channel_id : ChannelId; channel_guild : GuildId }.

(** A [VoiceConnection] object of the transport: its [joinConfig] and whether
    [destroy()] has been called on it. *)
Record VoiceConnection :=
  { joinConfig_channelId : ChannelId;
    joinConfig_guildId : GuildId;
    destroyed : bool }.

(* ================================================================== *)
(** ** voice/voiceManager.ts *)
(* ================================================================== *)
Module VoiceManager.

Inductive VoiceState := Idle | Connecting | Ready | Moving | Disconnecting | Backoff.

Record GuildVoiceState :=
  { state : VoiceState;
    connection : option ConnId;
    channelId : option ChannelId;
    retries : nat;
    lastError : option Error;
    operationLock : option LockId }.

(** Field assignments [state.f = v]. *)
Definition set_state (v : VoiceState) (s : GuildVoiceState) : GuildVoiceState :=
  {| state := v; connection := connection s; channelId := channelId s;
     retries := retries s; lastError := lastError s; operationLock := operationLock s |}.
Definition set_connection (v : option ConnId) (s : GuildVoiceState) : GuildVoiceState :=
  {| state := state s; connection := v; channelId := channelId s;
     retries := retries s; lastError := lastError s; operationLock := operationLock s |}.
Definition set_channelId (v : option ChannelId) (s : GuildVoiceState) : GuildVoiceState :=
  {| state := state s; connection := connection s; channelId := v;
     retries := retries s; lastError := lastError s; operationLock := operationLock s |}.
Definition set_retries (v : nat) (s : GuildVoiceState) : GuildVoiceState :=
  {| state := state s; connection := connection s; channelId := channelId s;
     retries := v; lastError := lastError s; operationLock := operationLock s |}.
Definition set_lastError (v : option Error) (s : GuildVoiceState) : GuildVoiceState :=
  {| state := state s; connection := connection s; channelId := channelId s;
     retries := retries s; lastError := v; operationLock := operationLock s |}.
Definition set_operationLock (v : option LockId) (s : GuildVoiceState) : GuildVoiceState :=
  {| state := state s; connection := connection s; channelId := channelId s;
     retries := retries s; lastError := lastError s; operationLock := v |}.

(** The readonly fields read from the environment by the constructor. *)
Record Config :=
  { joinTimeout : Z; readyTimeout : Z; maxRetries : Z; backoffBase : Z; backoffMax : Z }.

(** The values used when the environment variables are unset. *)
Definition defaultConfig : Config :=
  {| joinTimeout := 10000; readyTimeout := 20000; maxRetries := 3;
     backoffBase := 1000; backoffMax := 10000 |}.

(** The object literal of [getOrCreateState]. *)
Definition freshState : GuildVoiceState :=
  {| state := Idle; connection := None; channelId := None;
     retries := 0; lastError := None; operationLock := None |}.

(** [Math.pow(2, retries)]. *)
Definition pow2 (n : nat) : Q := inject_Z (2 ^ Z.of_nat n).

(** The local [exponential] of [calculateBackoff]:
    [Math.min(this.backoffBase * Math.pow(2, retries), this.backoffMax)]. *)
Definition exponential (cfg : Config) (retries : nat) : Q :=
  Qmin (inject_Z (backoffBase cfg) * pow2 retries)%Q (inject_Z (backoffMax cfg)).

(** [calculateBackoff(retries)]; [rnd] is the value of [Math.random()],
    a number in [0, 1). Floating point rounding is not modelled: the
    arithmetic is over the rationals. *)
Definition calculateBackoff (cfg : Config) (rnd : Q) (retries : nat) : Q :=
  let exponential := exponential cfg retries in
  let jitter := (rnd * (3 # 10) * exponential)%Q in
  (exponential + jitter)%Q.

(** [connection.destroy()] on the connection table. Following the transport
    contract it is idempotent and does not throw. *)
Definition destroy (c : ConnId) (cs : list VoiceConnection) : list VoiceConnection :=
  match cs !! c with
  | Some v => <[c := {| joinConfig_channelId := joinConfig_channelId v;
                        joinConfig_guildId := joinConfig_guildId v;
                        destroyed := true |}]> cs
  | None => cs
  end.

(** [state.connection?.destroy()]. *)
Definition destroyCurrent (s : GuildVoiceState) (cs : list VoiceConnection) : list VoiceConnection :=
  match connection s with
  | Some c => destroy c cs
  | None => cs
  end.

(** [joinVoiceChannel({channelId, guildId, ...})]: a new connection object.
    [setupConnectionHandlers(connection, guildId)] registers the handlers of
    every connection with the guild id of its join configuration, so a
    connection in the table is a connection with handlers. *)
Definition joinVoiceChannel (channel : VoiceBasedChannel) (cs : list VoiceConnection)
  : ConnId * list VoiceConnection :=
  (length cs,
   cs ++ [{| joinConfig_channelId := channel_id channel;
             joinConfig_guildId := channel_guild channel;
             destroyed := false |}]).

(** [joinUnlockedOnce], up to its [await Promise.race([...])]. *)
Definition joinUnlockedOnce_begin (channel : VoiceBasedChannel)
    (s : GuildVoiceState) (cs : list VoiceConnection)
  : ConnId * GuildVoiceState * list VoiceConnection :=
  let s := set_state Connecting s in
  let '(connection, cs) := joinVoiceChannel channel cs in
  (connection, s, cs).

(** [joinUnlockedOnce], after the race was won by the ready signal. *)
Definition joinUnlockedOnce_ready (channel : VoiceBasedChannel) (c : ConnId)
    (s : GuildVoiceState) : GuildVoiceState :=
  let s := set_connection (Some c) s in
  let s := set_channelId (Some (channel_id channel)) s in
  let s := set_state Ready s in
  let s := set_retries 0 s in
  let s := set_lastError None s in
  s.

(** The [catch (err)] block of [joinUnlockedWithRetries], up to the
    [await] of the backoff timer ([RetryAfter]) or to [throw err]. *)
Inductive Caught := RetryAfter (backoff : Q) | Rethrow (err : Error).

Definition joinUnlockedWithRetries_catch (cfg : Config) (rnd : Q) (err : Error)
    (s : GuildVoiceState) (cs : list VoiceConnection)
  : Caught * GuildVoiceState * list VoiceConnection :=
  let s := set_lastError (Some err) s in
  let cs := destroyCurrent s cs in
  let s := set_connection None s in
  let s := set_channelId None s in
  if (Z.of_nat (retries s) <? maxRetries cfg)%Z then
    let s := set_retries (S (retries s)) s in
    let s := set_state Backoff s in
    let backoff := calculateBackoff cfg rnd (retries s) in
    (RetryAfter backoff, s, cs)
  else
    let s := set_retries 0 s in
    let s := set_state Idle s in
    (Rethrow err, s, cs).

(** What the environment decides during one run of the retry loop: the
    outcome of the i-th wait for the ready signal and the i-th value of
    [Math.random()]. *)
Record Oracle := { attempt : nat -> Settle; random : nat -> Q }.

(** [joinUnlockedWithRetries] run without interruption by other calls or
    signals. The [for (;;)] loop is unrolled [fuel] times; [i] counts the
    attempts made so far. [None] means that the loop is still running. *)
Fixpoint joinUnlockedWithRetries (cfg : Config) (o : Oracle) (fuel i : nat)
    (channel : VoiceBasedChannel) (s : GuildVoiceState) (cs : list VoiceConnection)
  : option (Result ConnId * GuildVoiceState * list VoiceConnection) :=
  match fuel with
  | O => None
  | S fuel =>
    let '(c, s, cs) := joinUnlockedOnce_begin channel s cs in
    match attempt o i with
    | Fulfilled => Some (Returns c, joinUnlockedOnce_ready channel c s, cs)
    | Rejected err =>
      match joinUnlockedWithRetries_catch cfg (random o i) err s cs with
      | (RetryAfter _, s, cs) => joinUnlockedWithRetries cfg o fuel (S i) channel s cs
      | (Rethrow err, s, cs) => Some (Throws err, s, cs)
      end
    end
  end.

(** The body of [move]'s operation before it enters the retry loop. *)
Definition move_begin (s : GuildVoiceState) (cs : list VoiceConnection)
  : GuildVoiceState * list VoiceConnection :=
  let s := set_state Moving s in
  match connection s with
  | Some c =>
    let cs := destroy c cs in
    let s := set_connection None s in
    let s := set_channelId None s in
    (s, cs)
  | None => (s, cs)
  end.

(** The body of [leave]'s operation on an existing session. *)
Definition leave_body (s : GuildVoiceState) (cs : list VoiceConnection)
  : GuildVoiceState * list VoiceConnection :=
  match connection s with
  | None => (s, cs)
  | Some c =>
    let s := set_state Disconnecting s in
    let cs := destroy c cs in
    let s := set_connection None s in
    let s := set_channelId None s in
    let s := set_state Idle s in
    let s := set_retries 0 s in
    (s, cs)
  end.

(** The four assignments shared by the [Destroyed] handler and by the
    [catch] of the [Disconnected] handler. *)
Definition resetState (s : GuildVoiceState) : GuildVoiceState :=
  let s := set_connection None s in
  let s := set_channelId None s in
  let s := set_state Idle s in
  let s := set_retries 0 s in
  s.

(** The supervisor object: the [guildStates] map and the transport's
    connection objects. [nextLock] names the next lock promise, [released]
    lists the lock promises already resolved, and [lockLog] records, for
    every promise created by [acquireLock], the guild it was created for. *)
Record Manager :=
  { guildStates : gmap GuildId GuildVoiceState;
    connections : list VoiceConnection;
    nextLock : LockId;
    released : list LockId;
    lockLog : list GuildId }.

Definition initial : Manager :=
  {| guildStates := ∅; connections := []; nextLock := 0; released := []; lockLog := [] |}.

Definition set_guildStates (v : gmap GuildId GuildVoiceState) (m : Manager) : Manager :=
  {| guildStates := v; connections := connections m; nextLock := nextLock m;
     released := released m; lockLog := lockLog m |}.
Definition set_connections (v : list VoiceConnection) (m : Manager) : Manager :=
  {| guildStates := guildStates m; connections := v; nextLock := nextLock m;
     released := released m; lockLog := lockLog m |}.

(** [getOrCreateState(guildId)]. *)
Definition getOrCreateState (guildId : GuildId) (m : Manager) : GuildVoiceState * Manager :=
  match guildStates m !! guildId with
  | Some s => (s, m)
  | None => (freshState, set_guildStates (<[guildId := freshState]> (guildStates m)) m)
  end.

(** Writing back the session object of a guild and the connection table
    after a block has run on them. *)
Definition commit (guildId : GuildId) (s : GuildVoiceState) (cs : list VoiceConnection)
    (m : Manager) : Manager :=
  set_connections cs (set_guildStates (<[guildId := s]> (guildStates m)) m).

(** [acquireLock], first half: the caller found no pending lock (or was
    woken up by the release of the one it waited for), creates its promise
    and stores it in [state.operationLock]. *)
Definition lock (guildId : GuildId) (m : Manager) : LockId * Manager :=
  let '(s, m) := getOrCreateState guildId m in
  let l := nextLock m in
  (l, {| guildStates := <[guildId := set_operationLock (Some l) s]> (guildStates m);
         connections := connections m;
         nextLock := S l;
         released := released m;
         lockLog := lockLog m ++ [guildId] |}).

(** [acquireLock], the [finally] block: [resolveLock!()] and
    [state.operationLock = null]. *)
Definition unlock (guildId : GuildId) (l : LockId) (m : Manager) : Manager :=
  {| guildStates := alter (set_operationLock None) guildId (guildStates m);
     connections := connections m;
     nextLock := nextLock m;
     released := l :: released m;
     lockLog := lockLog m |}.

(** [acquireLock(guildId, operation)] for an operation that runs to its end
    without interleaving. [None]: the caller is suspended (on the pending
    lock, or inside the operation). *)
Definition acquireLock {A} (guildId : GuildId)
    (operation : Manager -> option (Result A * Manager)) (m : Manager)
  : option (Result A * Manager) :=
  let '(s, m) := getOrCreateState guildId m in
  match operationLock s with
  | Some _ => None
  | None =>
    let '(l, m) := lock guildId m in
    match operation m with
    | Some (r, m) => Some (r, unlock guildId l m)
    | None => None
    end
  end.

(** The session object the operation of [join] and [move] works on:
    [this.getOrCreateState(guildId)] inside the lock. *)
Definition sessionOf (guildId : GuildId) (m : Manager) : GuildVoiceState :=
  default freshState (guildStates m !! guildId).

(** Enough unrollings of the retry loop for any session: one attempt and
    one more for every retry that [maxRetries] allows. *)
Definition attemptsBound (cfg : Config) : nat := S (Z.to_nat (maxRetries cfg)).

(** [join(channel)]. *)
Definition join (cfg : Config) (o : Oracle) (channel : VoiceBasedChannel) (m : Manager)
  : option (Result ConnId * Manager) :=
  let guildId := channel_guild channel in
  acquireLock guildId (fun m =>
    let state := sessionOf guildId m in
    match joinUnlockedWithRetries cfg o (attemptsBound cfg) 0 channel state (connections m) with
    | Some (r, s, cs) => Some (r, commit guildId s cs m)
    | None => None
    end) m.

(** [move(channel)]. *)
Definition move (cfg : Config) (o : Oracle) (channel : VoiceBasedChannel) (m : Manager)
  : option (Result ConnId * Manager) :=
  let guildId := channel_guild channel in
  acquireLock guildId (fun m =>
    let state := sessionOf guildId m in
    let '(state, cs) := move_begin state (connections m) in
    match joinUnlockedWithRetries cfg o (attemptsBound cfg) 0 channel state cs with
    | Some (r, s, cs) => Some (r, commit guildId s cs m)
    | None => None
    end) m.

(** [leave(guildId)]. *)
Definition leave (guildId : GuildId) (m : Manager) : option (Result unit * Manager) :=
  acquireLock guildId (fun m =>
    match guildStates m !! guildId with
    | None => Some (Returns tt, m)
    | Some state =>
      let '(s, cs) := leave_body state (connections m) in
      Some (Returns tt, commit guildId s cs m)
    end) m.

(** [getConnection], [getChannelId], [isInVoice]. *)
Definition getConnection (guildId : GuildId) (m : Manager) : option ConnId :=
  match guildStates m !! guildId with
  | Some s => connection s
  | None => None
  end.

Definition getChannelId (guildId : GuildId) (m : Manager) : option ChannelId :=
  match guildStates m !! guildId with
  | Some s => match channelId s with
              | Some ch => if decide (ch = EmptyString) then None else Some ch
              | None => None
              end
  | None => None
  end.

Definition isInVoice (guildId : GuildId) (m : Manager) : bool :=
  match guildStates m !! guildId with
  | Some s => match state s, connection s with
              | Ready, Some _ => true
              | _, _ => false
              end
  | None => false
  end.

(** The [Destroyed] handler registered by [setupConnectionHandlers(connection,
    guildId)]: it looks the session up by guild id. *)
Definition onDestroyed (guildId : GuildId) (m : Manager) : Manager :=
  set_guildStates (alter resetState guildId (guildStates m)) m.

(** The [catch] block of the [Disconnected] handler, run when the grace wait
    for [Signalling] or [Connecting] was lost. *)
Definition onDisconnected_lost (c : ConnId) (guildId : GuildId) (m : Manager) : Manager :=
  let m := set_connections (destroy c (connections m)) m in
  set_guildStates (alter resetState guildId (guildStates m)) m.

End VoiceManager.

(** The public lifecycle operations of the supervisor, as data. *)
Inductive Op :=
  | Join (channel : VoiceBasedChannel)
  | Move (channel : VoiceBasedChannel)
  | Leave (guildId : GuildId).

Definition op_guild (op : Op) : GuildId :=
  match op with
  | Join channel | Move channel => channel_guild channel
  | Leave guildId => guildId
  end.

(* ================================================================== *)
(** ** voice/follow.ts *)
(* ================================================================== *)
Module VoiceFollower.

(** What [processVoiceStateUpdate] reads of a discord.js [VoiceState]:
    [guild.id], [channelId] and the resolved [channel] object, which can be
    missing although [channelId] is set. *)
Record OwnerVoiceState :=
  { guild_id : GuildId;
    channelId : option ChannelId;
    channel : option VoiceBasedChannel }.

(** Truthiness of a [string | null]: the empty string is falsy. *)
Definition truthy (x : option ChannelId) : bool :=
  match x with
  | Some ch => if decide (ch = EmptyString) then false else true
  | None => false
  end.

(** [handleOwnerJoin], [handleOwnerMove], [handleOwnerLeave]: the call each
    one makes on the supervisor, if any. A failure of the call is logged
    and goes no further. *)
Definition handleOwnerJoin (newState : OwnerVoiceState) : option Op :=
  match channel newState with
  | None => None
  | Some channel => Some (Join channel)
  end.

Definition handleOwnerMove (newState : OwnerVoiceState) : option Op :=
  match channel newState with
  | None => None
  | Some channel => Some (Move channel)
  end.

Definition handleOwnerLeave (get247Enabled : GuildId -> bool) (guildId : GuildId) : option Op :=
  if get247Enabled guildId then None else Some (Leave guildId).

(** [processVoiceStateUpdate(oldState, newState)], run when the debounce
    timer of the guild fires. *)
Definition processVoiceStateUpdate (get247Enabled : GuildId -> bool)
    (oldState newState : OwnerVoiceState) : option Op :=
  let guildId := guild_id newState in
  let oldChannelId := channelId oldState in
  let newChannelId := channelId newState in
  if negb (truthy oldChannelId) && truthy newChannelId then
    handleOwnerJoin newState
  else if truthy oldChannelId && truthy newChannelId
          && (if decide (oldChannelId = newChannelId) then false else true) then
    handleOwnerMove newState
  else if truthy oldChannelId && negb (truthy newChannelId) then
    handleOwnerLeave get247Enabled guildId
  else None.

End VoiceFollower.

(* ================================================================== *)
(** ** The cooperative scheduler

    Calls of [join], [move] and [leave], the handlers of transport signals
    and the follower run interleaved: a call runs until its next [await],
    and is resumed later by the scheduler. A state of the system is the
    supervisor together with the suspended calls; a step runs one block. *)
(* ================================================================== *)
Module Scheduler.
Import VoiceManager.

(** A suspended call, named after the [await] it is suspended at. *)
Inductive Task :=
  | AwaitLock (op : Op) (l : LockId)
      (** [acquireLock]: [await state.operationLock] *)
  | AwaitReady (channel : VoiceBasedChannel) (c : ConnId) (l : LockId)
      (** [joinUnlockedOnce]: [await Promise.race([...])]; [l] is the lock
          promise the call created *)
  | AwaitBackoff (channel : VoiceBasedChannel) (l : LockId) (backoff : Q)
      (** [joinUnlockedWithRetries]: [await new Promise(... setTimeout ...)] *)
  | AwaitRecovery (c : ConnId) (guildId : GuildId)
      (** [Disconnected] handler: [await Promise.race([entersState ...])] *)
  | Settled (r : Result (option ConnId))
      (** the call has returned or thrown *).

Inductive Signal := Disconnected | Destroyed.

Inductive Event :=
  | Call (op : Op)
      (** somebody calls [join], [move] or [leave] *)
  | Resume (t : nat) (o : Settle) (rnd : Q)
      (** the promise task [t] awaits settles as [o]; [rnd] is the value
          [Math.random()] returns if the resumed block asks for one *)
  | Emit (c : ConnId) (sig : Signal)
      (** connection [c] emits a status signal *)
  | OwnerUpdate (oldState newState : VoiceFollower.OwnerVoiceState)
      (** the follower's debounce timer fires for this pair of states *).

Record System :=
  { manager : Manager;
    tasks : list Task;
    calls : list Op  (** every call made on the supervisor, in order *) }.

Definition initialSystem : System :=
  {| manager := initial; tasks := []; calls := [] |}.

Section Steps.
Variable cfg : Config.
Variable get247Enabled : GuildId -> bool.

(** [joinUnlockedWithRetries] from the top of its loop to the first await. *)
Definition enterRetryLoop (channel : VoiceBasedChannel) (l : LockId) (m : Manager)
  : Task * Manager :=
  let guildId := channel_guild channel in
  let '(c, s, cs) := joinUnlockedOnce_begin channel (sessionOf guildId m) (connections m) in
  (AwaitReady channel c l, commit guildId s cs m).

(** [acquireLock] from the creation of the lock promise on, with the
    operation of [op] run to its first await. The operation of [leave] has
    no await of its own: the [finally] block follows in the same step. *)
Definition start (op : Op) (m : Manager) : Task * Manager :=
  let guildId := op_guild op in
  let '(l, m) := lock guildId m in
  match op with
  | Join channel => enterRetryLoop channel l m
  | Move channel =>
    let '(s, cs) := move_begin (sessionOf guildId m) (connections m) in
    enterRetryLoop channel l (commit guildId s cs m)
  | Leave _ =>
    let m := match guildStates m !! guildId with
             | None => m
             | Some state =>
               let '(s, cs) := leave_body state (connections m) in
               commit guildId s cs m
             end in
    (Settled (Returns None), unlock guildId l m)
  end.

(** A call of a public operation, run to its first await. *)
Definition call (op : Op) (m : Manager) : Task * Manager :=
  let guildId := op_guild op in
  let '(s, m) := getOrCreateState guildId m in
  match operationLock s with
  | Some l => (AwaitLock op l, m)
  | None => start op m
  end.

(** Resuming a suspended call. A call that waits for a lock can only be
    resumed once that lock promise is resolved, and then does not look at
    [state.operationLock] again. When the operation of [join] or [move]
    settles, the [finally] block of [acquireLock] runs in the same step. *)
Definition resume (task : Task) (o : Settle) (rnd : Q) (m : Manager)
  : option (Task * Manager) :=
  match task with
  | AwaitLock op l =>
    if bool_decide (l ∈ released m) then Some (start op m) else None
  | AwaitReady channel c l =>
    let guildId := channel_guild channel in
    match o with
    | Fulfilled =>
      let s := joinUnlockedOnce_ready channel c (sessionOf guildId m) in
      Some (Settled (Returns (Some c)), unlock guildId l (commit guildId s (connections m) m))
    | Rejected err =>
      match joinUnlockedWithRetries_catch cfg rnd err (sessionOf guildId m) (connections m) with
      | (RetryAfter backoff, s, cs) => Some (AwaitBackoff channel l backoff, commit guildId s cs m)
      | (Rethrow err, s, cs) => Some (Settled (Throws err), unlock guildId l (commit guildId s cs m))
      end
    end
  | AwaitBackoff channel l _ => Some (enterRetryLoop channel l m)
  | AwaitRecovery c guildId =>
    match o with
    | Fulfilled => Some (Settled (Returns None), m)
    | Rejected _ => Some (Settled (Returns None), onDisconnected_lost c guildId m)
    end
  | Settled _ => None
  end.

Definition spawn (op : Op) (σ : System) : System :=
  let '(task, m) := call op (manager σ) in
  {| manager := m; tasks := tasks σ ++ [task]; calls := calls σ ++ [op] |}.

Definition step (e : Event) (σ : System) : option System :=
  match e with
  | Call op => Some (spawn op σ)
  | Resume t o rnd =>
    match tasks σ !! t with
    | None => None
    | Some task =>
      match resume task o rnd (manager σ) with
      | None => None
      | Some (task, m) =>
        Some {| manager := m; tasks := <[t := task]> (tasks σ); calls := calls σ |}
      end
    end
  | Emit c sig =>
    match connections (manager σ) !! c with
    | None => None
    | Some v =>
      let guildId := joinConfig_guildId v in
      match sig with
      | Destroyed =>
        Some {| manager := onDestroyed guildId (manager σ); tasks := tasks σ; calls := calls σ |}
      | Disconnected =>
        Some {| manager := manager σ; tasks := tasks σ ++ [AwaitRecovery c guildId];
                calls := calls σ |}
      end
    end
  | OwnerUpdate oldState newState =>
    match VoiceFollower.processVoiceStateUpdate get247Enabled oldState newState with
    | None => Some σ
    | Some op => Some (spawn op σ)
    end
  end.

Fixpoint run (es : list Event) (σ : System) : option System :=
  match es with
  | [] => Some σ
  | e :: es =>
    match step e σ with
    | Some σ => run es σ
    | None => None
    end
  end.

(** The states of the system at which some call is suspended or nothing
    runs: what the scheduler, and any observer, can see. *)
Definition reachable (σ : System) : Prop := exists es, run es initialSystem = Some σ.

End Steps.
End Scheduler.

(* ================================================================== *)
(** ** tts/queue.ts *)
(* ================================================================== *)
Module TtsQueue.

Abbreviation Text := (list ascii) (only parsing).

Definition str (s : string) : Text := list_ascii_of_string s.

(** *** Character classes and string primitives of JavaScript *)

Definition code (c : ascii) : nat := nat_of_ascii c.

(** [\s], and the characters [trim()] removes, among the code units 0..255. *)
Definition isWhiteSpace (c : ascii) : bool :=
  let n := code c in
  ((9 <=? n) && (n <=? 13)) || (n =? 32) || (n =? 160).

(** [\d]. *)
Definition isDigit (c : ascii) : bool :=
  let n := code c in (48 <=? n) && (n <=? 57).

(** [[a-z0-9]] under the [i] flag. *)
Definition isAlnum (c : ascii) : bool :=
  let n := code c in
  ((48 <=? n) && (n <=? 57)) || ((65 <=? n) && (n <=? 90)) || ((97 <=? n) && (n <=? 122)).

(** [toLowerCase()] on one code unit: A-Z, and the upper case letters of
    Latin-1 (all of 0xC0..0xDE but the multiplication sign). *)
Definition lowerChar (c : ascii) : ascii :=
  let n := code c in
  if ((65 <=? n) && (n <=? 90)) || ((192 <=? n) && (n <=? 222) && negb (n =? 215))
  then ascii_of_nat (n + 32) else c.

Definition toLowerCase (s : Text) : Text := map lowerChar s.

Fixpoint dropWhile (p : ascii -> bool) (s : Text) : Text :=
  match s with
  | [] => []
  | c :: s' => if p c then dropWhile p s' else s
  end.

Fixpoint takeWhile (p : ascii -> bool) (s : Text) : Text :=
  match s with
  | [] => []
  | c :: s' => if p c then c :: takeWhile p s' else []
  end.

Definition dropWhileEnd (p : ascii -> bool) (s : Text) : Text :=
  rev (dropWhile p (rev s)).

(** [s.trim()]. *)
Definition trim (s : Text) : Text := dropWhileEnd isWhiteSpace (dropWhile isWhiteSpace s).

(** [s.startsWith(p)]. *)
Fixpoint startsWith (p s : Text) : bool :=
  match p, s with
  | [], _ => true
  | a :: p', b :: s' => if decide (a = b) then startsWith p' s' else false
  | _ :: _, [] => false
  end.

(** [s.replace(re, '')] for a global regular expression [re] that matches
    no empty string. [matchAt t] is the length of the match of [re] that
    starts at the beginning of [t], if there is one. The scan goes left to
    right; after a match it goes on behind the match, and the text put
    together is not scanned again. [skip] counts the code units of the
    current match still to be dropped. *)
Fixpoint removeAll (matchAt : Text -> option nat) (skip : nat) (s : Text) : Text :=
  match s with
  | [] => []
  | c :: s' =>
    match skip with
    | S k => removeAll matchAt k s'
    | O =>
      match matchAt (c :: s') with
      | Some (S k) => removeAll matchAt k s'
      | _ => c :: removeAll matchAt 0 s'
      end
    end
  end.

(** [/@(everyone|here)/]. *)
Definition matchEveryoneHere (t : Text) : option nat :=
  if startsWith (str "@everyone") t then Some 9
  else if startsWith (str "@here") t then Some 5
  else None.

(** [prefix \d+ >]: [\d+] is greedy, and since [>] is no digit giving back
    digits cannot make the match succeed. *)
Definition matchDigitsClose (prefixLen : nat) (t : Text) : option nat :=
  let digits := takeWhile isDigit t in
  match digits with
  | [] => None
  | _ :: _ =>
    if startsWith (str ">") (drop (length digits) t)
    then Some (prefixLen + length digits + 1)
    else None
  end.

(** [/<@&\d+>/]. *)
Definition matchRole (t : Text) : option nat :=
  if startsWith (str "<@&") t then matchDigitsClose 3 (drop 3 t) else None.

(** [/<@!?\d+>/]. *)
Definition matchUser (t : Text) : option nat :=
  if startsWith (str "<@!") t then matchDigitsClose 3 (drop 3 t)
  else if startsWith (str "<@") t then matchDigitsClose 2 (drop 2 t)
  else None.

(** [/<#\d+>/]. *)
Definition matchChannel (t : Text) : option nat :=
  if startsWith (str "<#") t then matchDigitsClose 2 (drop 2 t) else None.

(** [text.split(/\s+/).filter(Boolean)]: the maximal runs of characters
    that are not white space, in order. [cur] is the run being read. *)
Fixpoint splitWhiteSpaceFrom (cur : Text) (s : Text) : list Text :=
  match s with
  | [] => match cur with [] => [] | _ :: _ => [cur] end
  | c :: s' =>
    if isWhiteSpace c then
      match cur with
      | [] => splitWhiteSpaceFrom [] s'
      | _ :: _ => cur :: splitWhiteSpaceFrom [] s'
      end
    else splitWhiteSpaceFrom (cur ++ [c]) s'
  end.

Definition splitWhiteSpace (s : Text) : list Text := splitWhiteSpaceFrom [] s.

(** [parts.join(' ')]. *)
Fixpoint joinSpace (parts : list Text) : Text :=
  match parts with
  | [] => []
  | [p] => p
  | p :: rest => p ++ str " " ++ joinSpace rest
  end.

(** *** The class *)

Record RequestId := { req_guild : GuildId; req_time : Z; req_index : nat }.

Inductive QueueItem :=
  | tts (text : Text) (requestId : RequestId)
  | sound (soundKey : Text) (filePath : Text) (requestId : RequestId).

(** The element type of the array [splitIntoSegments] returns. *)
Inductive Segment :=
  | seg_tts (text : Text)
  | seg_sound (key : Text) (filePath : Text).

Inductive AudioPlayerStatus := Idle | Buffering | Paused | Playing | AutoPaused.

Record Queue :=
  { queues : gmap GuildId (list QueueItem);
    players : gmap GuildId AudioPlayerStatus;
    subscriptions : gmap GuildId ConnId;
    processing : gmap GuildId bool;
    currentConnections : gmap GuildId ConnId;
    lastRequestTime : gmap GuildId Z }.

Definition empty : Queue :=
  {| queues := ∅; players := ∅; subscriptions := ∅; processing := ∅;
     currentConnections := ∅; lastRequestTime := ∅ |}.

Definition set_queues v (q : Queue) : Queue :=
  {| queues := v; players := players q; subscriptions := subscriptions q;
     processing := processing q; currentConnections := currentConnections q;
     lastRequestTime := lastRequestTime q |}.
Definition set_players v (q : Queue) : Queue :=
  {| queues := queues q; players := v; subscriptions := subscriptions q;
     processing := processing q; currentConnections := currentConnections q;
     lastRequestTime := lastRequestTime q |}.
Definition set_subscriptions v (q : Queue) : Queue :=
  {| queues := queues q; players := players q; subscriptions := v;
     processing := processing q; currentConnections := currentConnections q;
     lastRequestTime := lastRequestTime q |}.
Definition set_processing v (q : Queue) : Queue :=
  {| queues := queues q; players := players q; subscriptions := subscriptions q;
     processing := v; currentConnections := currentConnections q;
     lastRequestTime := lastRequestTime q |}.
Definition set_currentConnections v (q : Queue) : Queue :=
  {| queues := queues q; players := players q; subscriptions := subscriptions q;
     processing := processing q; currentConnections := v;
     lastRequestTime := lastRequestTime q |}.
Definition set_lastRequestTime v (q : Queue) : Queue :=
  {| queues := queues q; players := players q; subscriptions := subscriptions q;
     processing := processing q; currentConnections := currentConnections q;
     lastRequestTime := v |}.

Definition minRequestInterval : Z := 200.

Definition rateLimitError : Error := "Rate limit: please wait before sending another TTS request".
Definition emptyTextError : Error := "Text is empty after sanitization".

Section Methods.
(** [this.config.maxChars]. *)
Variable maxChars : Z.
(** [this.soundsDir], and the files of the disk:
    [fs.existsSync(p) && fs.statSync(p).isFile()]. *)
Variable soundsDir : Text.
Variable isFile : Text -> bool.
(** Whether [connection.subscribe(player)] hands out a subscription. *)
Variable subscribe : ConnId -> bool.

(** [sanitizeText(text)]. *)
Definition sanitizeText (text : Text) : Text :=
  let sanitized :=
    trim (removeAll matchChannel 0
           (removeAll matchUser 0
             (removeAll matchRole 0
               (removeAll matchEveryoneHere 0 text)))) in
  if (maxChars <? Z.of_nat (length sanitized))%Z
  then take (Z.to_nat maxChars) sanitized
  else sanitized.

(** [checkRateLimit(guildId)] with [Date.now()] returning [now]. *)
Definition checkRateLimit (now : Z) (guildId : GuildId) (q : Queue) : bool * Queue :=
  let last := default 0%Z (lastRequestTime q !! guildId) in
  if (now - last <? minRequestInterval)%Z then (false, q)
  else (true, set_lastRequestTime (<[guildId := now]> (lastRequestTime q)) q).

(** [resolveSoundFile(soundKey)]. *)
Definition resolveSoundFile (soundKey : Text) : option Text :=
  let key := toLowerCase soundKey in
  let candidates :=
    [ soundsDir ++ str "/" ++ key ++ str ".wav";
      soundsDir ++ str "/" ++ key ++ str ".mp3";
      soundsDir ++ str "/" ++ key ++ str ".ogg";
      soundsDir ++ str "/" ++ key ++ str ".opus" ] in
  List.find isFile candidates.

(** The lookup key of a raw token:
    [raw.toLowerCase().replace(/^[^a-z0-9]+|[^a-z0-9]+$/gi, '')]. *)
Definition normalize (raw : Text) : Text :=
  let notAlnum c := negb (isAlnum c) in
  dropWhileEnd notAlnum (dropWhile notAlnum (toLowerCase raw)).

(** The closure [flush] of [splitIntoSegments] on the pair of [out] and
    [buffer]. *)
Definition flush (acc : list Segment * list Text) : list Segment * list Text :=
  let '(out, buffer) := acc in
  match buffer with
  | [] => (out, buffer)
  | _ :: _ => (out ++ [seg_tts (joinSpace buffer)], [])
  end.

(** One turn of the [for (const raw of parts)] loop. *)
Definition splitStep (acc : list Segment * list Text) (raw : Text) : list Segment * list Text :=
  let token := normalize raw in
  let filePath := match token with [] => None | _ :: _ => resolveSoundFile token end in
  match filePath with
  | Some filePath =>
    let '(out, buffer) := flush acc in
    (out ++ [seg_sound token filePath], buffer)
  | None =>
    let '(out, buffer) := acc in
    (out, buffer ++ [raw])
  end.

(** [splitIntoSegments(text)]. *)
Definition splitIntoSegments (text : Text) : list Segment :=
  let parts := splitWhiteSpace text in
  fst (flush (fold_left splitStep parts ([], []))).

(** The [for (const seg of segments)] loop of [enqueue] on the array
    [queue]; [time] is the [Date.now()] of [baseRequestId]. *)
Fixpoint pushSegments (guildId : GuildId) (time : Z) (segIndex : nat)
    (segments : list Segment) (queue : list QueueItem) : list QueueItem :=
  match segments with
  | [] => queue
  | seg :: segments =>
    let requestId := {| req_guild := guildId; req_time := time; req_index := segIndex |} in
    match seg with
    | seg_sound key filePath =>
      pushSegments guildId time (S segIndex) segments (queue ++ [sound key filePath requestId])
    | seg_tts text =>
      match sanitizeText text with
      | [] => pushSegments guildId time (S segIndex) segments queue
      | segText => pushSegments guildId time (S segIndex) segments (queue ++ [tts segText requestId])
      end
    end
  end.

(** [ensureSubscribed(guildId, connection, player)] for the player of the
    guild. *)
Definition ensureSubscribed (guildId : GuildId) (connection : ConnId) (q : Queue) : Queue :=
  let existing := subscriptions q !! guildId in
  if bool_decide (existing = Some connection) then q
  else
    let q := match existing with
             | Some _ => set_subscriptions (delete guildId (subscriptions q)) q
             | None => q
             end in
    if subscribe connection
    then set_subscriptions (<[guildId := connection]> (subscriptions q)) q
    else q.

(** [getConnectionOrNull(guildId)]. *)
Definition getConnectionOrNull (guildId : GuildId) (q : Queue) : option ConnId :=
  currentConnections q !! guildId.

(** [processQueue(guildId)] up to its first [await]: either it returns
    early, or it takes the head of the queue and starts to synthesize or load
    it. The result is the item taken, if any. *)
Definition processQueue_begin (guildId : GuildId) (q : Queue) : option QueueItem * Queue :=
  match processing q !! guildId with
  | Some true => (None, q)
  | _ =>
    match queues q !! guildId with
    | None | Some [] => (None, q)
    | Some (item :: rest) =>
      match players q !! guildId with
      | None => (None, q)
      | Some status =>
        match status with
        | Idle =>
          match getConnectionOrNull guildId q with
          | None => (None, set_queues (<[guildId := []]> (queues q)) q)
          | Some connection =>
            let q := ensureSubscribed guildId connection q in
            let q := set_processing (<[guildId := true]> (processing q)) q in
            let q := set_queues (<[guildId := rest]> (queues q)) q in
            (Some item, q)
          end
        | _ => (None, q)
        end
      end
    end
  end.

(** The part of [enqueue] between the two gates and the call of
    [processQueue]: the items are pushed, the player is created if the guild
    has none, and the player is subscribed to the connection. *)
Definition enqueue_push (guildId : GuildId) (sanitized : Text) (connection : ConnId)
    (time : Z) (q : Queue) : Queue :=
  let q := match queues q !! guildId with
           | Some _ => q
           | None => set_queues (<[guildId := []]> (queues q)) q
           end in
  let queue := default [] (queues q !! guildId) in
  let segments := splitIntoSegments sanitized in
  let q := set_queues (<[guildId := pushSegments guildId time 0 segments queue]> (queues q)) q in
  let q := match players q !! guildId with
           | Some _ => q
           | None =>
             let q := set_players (<[guildId := Idle]> (players q)) q in
             ensureSubscribed guildId connection q
           end in
  ensureSubscribed guildId connection q.

(** [enqueue(guildId, text, connection)] up to the first [await] inside
    [processQueue]. [now] is the [Date.now()] read by [checkRateLimit] and
    [time] the one read for [baseRequestId]. The value returned is the item
    whose playback the call has started, if any. *)
Definition enqueue (guildId : GuildId) (text : Text) (connection : ConnId)
    (now time : Z) (q : Queue) : Result (option QueueItem) * Queue :=
  let '(allowed, q) := checkRateLimit now guildId q in
  if negb allowed then (Throws rateLimitError, q)
  else
    let q := set_currentConnections (<[guildId := connection]> (currentConnections q)) q in
    let sanitized := sanitizeText text in
    match sanitized with
    | [] => (Throws emptyTextError, q)
    | _ :: _ =>
      let q := enqueue_push guildId sanitized connection time q in
      let '(item, q) := processQueue_begin guildId q in
      (Returns item, q)
    end.

End Methods.
End TtsQueue.

(* ================================================================== *)
(** ** Vocabulary of the statements *)
(* ================================================================== *)
Module Vocabulary.
Import VoiceManager.





(** Two voice channels of one guild, and settings with persistent mode
    disabled, or enabled, for every guild. *)
Definition chA : VoiceBasedChannel := {| channel_id := "A"; channel_guild := "G1" |}.
Definition chB : VoiceBasedChannel := {| channel_id := "B"; channel_guild := "G1" |}.
Definition never247 : GuildId -> bool := fun _ => false.
Definition always247 : GuildId -> bool := fun _ => true.

Definition allReady : Oracle :=
  {| attempt := fun _ => Fulfilled; random := fun _ => 0%Q |}.





(** A configuration with a low cap: [VOICE_BACKOFF_MAX=5000], the rest as
    by default. *)
Definition lowCap : Config :=
  {| joinTimeout := 10000; readyTimeout := 20000; maxRetries := 3;
     backoffBase := 1000; backoffMax := 5000 |}.

End Vocabulary.

(* ================================================================== *)
(** ** Vocabulary of the statements about the queue *)
(* ================================================================== *)
Module QueueVocabulary.
Import TtsQueue.
(** One call of [enqueue]: its arguments and the two clock readings. *)
Record Request :=
  { req_guildId : GuildId; req_text : list ascii; req_connection : ConnId;
    req_now : Z; req_stamp : Z }.

Definition isRateLimited {A} (r : Result A) : bool :=
  match r with
  | Throws e => bool_decide (e = rateLimitError)
  | Returns _ => false
  end.

Definition isAccepted {A} (r : Result A) : bool :=
  match r with
  | Throws _ => false
  | Returns _ => true
  end.

Section Runs.
Variable maxChars : Z.
Variable soundsDir : list ascii.
Variable isFile : list ascii -> bool.
Variable subscribe : ConnId -> bool.

(** A sequence of calls, each run to its first suspension, with the log of
    the calls and their results. *)
Fixpoint enqueueAll (reqs : list Request) (q : Queue)
  : list (Request * Result (option QueueItem)) * Queue :=
  match reqs with
  | [] => ([], q)
  | c :: reqs =>
    let '(r, q) := enqueue maxChars soundsDir isFile subscribe
                     (req_guildId c) (req_text c) (req_connection c) (req_now c) (req_stamp c) q in
    let '(log, q) := enqueueAll reqs q in
    ((c, r) :: log, q)
  end.

(** The clock reading of the latest call for the guild that was not
    rejected by the rate limit; [init] if the log has none. *)
Fixpoint lastGate (g : GuildId) (init : Z) (log : list (Request * Result (option QueueItem))) : Z :=
  match log with
  | [] => init
  | (c, r) :: log =>
    lastGate g (if bool_decide (req_guildId c = g) && negb (isRateLimited r)
                then req_now c else init) log
  end.

(** The clock reading of the latest call for the guild that returned
    normally, if the log has one: the previous accepted call in the words of
    the design document. *)
Fixpoint lastAccepted (g : GuildId) (init : option Z)
    (log : list (Request * Result (option QueueItem))) : option Z :=
  match log with
  | [] => init
  | (c, r) :: log =>
    lastAccepted g (if bool_decide (req_guildId c = g) && isAccepted r
                    then Some (req_now c) else init) log
  end.

(** [this.lastRequestTime.get(guildId) || 0]. *)
Definition lastOf (g : GuildId) (q : Queue) : Z := default 0%Z (lastRequestTime q !! g).
End Runs.

(** A disk without sound files, and a transport that grants every
    subscription. *)
Definition noFiles : list ascii -> bool := fun _ => false.
Definition granted : ConnId -> bool := fun _ => true.

End QueueVocabulary.

(* ================================================================== *)
(** ** Vocabulary of the statements about segmentation *)
(* ================================================================== *)
Module SegmentVocabulary.
Import TtsQueue.

(** The segmentation in the words of the design document: the tokens are
    grouped into runs, a run being either a maximal sequence of tokens that
    match no sound, or one token that matches a sound. *)
Inductive Run :=
  | SpeechRun (tokens : list (list ascii))
  | SoundToken (raw key filePath : list ascii).

(** The tokens a run was made of. *)
Definition runTokens (r : Run) : list (list ascii) :=
  match r with
  | SpeechRun tokens => tokens
  | SoundToken raw _ _ => [raw]
  end.

Definition isSpeechRun (r : Run) : bool :=
  match r with SpeechRun _ => true | SoundToken _ _ _ => false end.

(** No two speech runs are neighbours. *)
Fixpoint maximalRuns (rs : list Run) : Prop :=
  match rs with
  | r1 :: ((r2 :: _) as rest) => (isSpeechRun r1 && isSpeechRun r2 = false) /\ maximalRuns rest
  | _ => True
  end.

Section Runs.
Variable maxChars : Z.
Variable soundsDir : list ascii.
Variable isFile : list ascii -> bool.

(** The sound a raw token stands for: its key and the file found for it. *)
Definition soundOf (raw : list ascii) : option (list ascii * list ascii) :=
  match normalize raw with
  | [] => None
  | token => match resolveSoundFile soundsDir isFile token with
             | Some filePath => Some (token, filePath)
             | None => None
             end
  end.

Fixpoint runs (parts : list (list ascii)) : list Run :=
  match parts with
  | [] => []
  | raw :: rest =>
    match soundOf raw with
    | Some (key, filePath) => SoundToken raw key filePath :: runs rest
    | None =>
      match runs rest with
      | SpeechRun tokens :: rs => SpeechRun (raw :: tokens) :: rs
      | rs => SpeechRun [raw] :: rs
      end
    end
  end.

Definition wellFormedRun (r : Run) : Prop :=
  match r with
  | SpeechRun tokens => tokens <> [] /\ Forall (fun raw => soundOf raw = None) tokens
  | SoundToken raw key filePath => soundOf raw = Some (key, filePath)
  end.

(** The segment of a run, and the queue items of the run with index [i]
    in a call with request id base [(guildId, time)]. *)
Definition segmentOf (r : Run) : Segment :=
  match r with
  | SpeechRun tokens => seg_tts (joinSpace tokens)
  | SoundToken _ key filePath => seg_sound key filePath
  end.

Definition itemsOf (guildId : GuildId) (time : Z) (i : nat) (r : Run) : list QueueItem :=
  let requestId := {| req_guild := guildId; req_time := time; req_index := i |} in
  match r with
  | SoundToken _ key filePath => [sound key filePath requestId]
  | SpeechRun tokens =>
    match sanitizeText maxChars (joinSpace tokens) with
    | [] => []
    | segText => [tts segText requestId]
    end
  end.

(** The one item of a run in the words of the design document. *)
Definition itemOf (guildId : GuildId) (time : Z) (i : nat) (r : Run) : QueueItem :=
  let requestId := {| req_guild := guildId; req_time := time; req_index := i |} in
  match r with
  | SoundToken _ key filePath => sound key filePath requestId
  | SpeechRun tokens => tts (joinSpace tokens) requestId
  end.

(** Sanitizing the text of the run again changes nothing. *)
Definition stableRun (r : Run) : Prop :=
  match r with
  | SpeechRun tokens => sanitizeText maxChars (joinSpace tokens) = joinSpace tokens
  | SoundToken _ _ _ => True
  end.
End Runs.

(** No mention pattern starts at a character that is neither [@] nor [<]. *)
Definition plain (c : ascii) : Prop := c <> "@"%char /\ c <> "<"%char.

(** The length of the tokens joined, counting one separator behind each. *)
Fixpoint joinedLength (parts : list (list ascii)) : nat :=
  match parts with
  | [] => 0
  | p :: rest => S (length p) + joinedLength rest
  end.

(** A disk with the single sound file [sounds/hmph.mp3]. *)
Definition hmphOnly : list ascii -> bool :=
  fun p => bool_decide (p = str "sounds/hmph.mp3").

End SegmentVocabulary.

(* ================================================================== *)
(** ** Vocabulary of the statements about uninterrupted calls *)
(* ================================================================== *)
Module SoloVocabulary.
Import VoiceManager Scheduler.

(** The schedule of a call of [join] or [move] that nothing interrupts:
    the resumptions of task [t] from its first wait for the ready signal
    on, with the outcomes and random numbers of the oracle. [retries] is
    the retry counter of the session at the wait. *)
Fixpoint soloResumes (cfg : Config) (o : Oracle) (t fuel i retries : nat) : list Event :=
  match fuel with
  | O => []
  | S fuel =>
    match attempt o i with
    | Fulfilled => [Resume t Fulfilled 0]
    | Rejected err =>
      if (Z.of_nat retries <? maxRetries cfg)%Z
      then Resume t (Rejected err) (random o i)
           :: Resume t Fulfilled 0
           :: soloResumes cfg o t fuel (S i) (S retries)
      else [Resume t (Rejected err) (random o i)]
    end
  end.

(** The result of the operation as the result of the call. *)
Definition callResult (r : Result ConnId) : Result (option ConnId) :=
  match r with
  | Returns c => Returns (Some c)
  | Throws e => Throws e
  end.

(** The task is a call inside the retry loop for the guild. *)
Definition inLoop (g : GuildId) (task : Task) : Prop :=
  match task with
  | AwaitReady channel _ _ | AwaitBackoff channel _ _ => channel_guild channel = g
  | _ => False
  end.

(** Every session with a retry counter other than 0 in [m'] is a session
    of [m] with the same counter. *)
Definition keepsRetries (m m' : Manager) : Prop :=
  forall g s', guildStates m' !! g = Some s' -> retries s' <> 0 ->
    exists s, guildStates m !! g = Some s /\ retries s = retries s'.

(** A session whose retry counter is not 0 has a call in the retry loop. *)
Definition countedRetries (σ : System) : Prop :=
  forall g s, guildStates (manager σ) !! g = Some s -> retries s <> 0 ->
    exists t task, tasks σ !! t = Some task /\ inLoop g task.

End SoloVocabulary.

(* ================================================================== *)
(** ** voice/voiceManager.ts: [cleanup] and [cleanupAll]

    The two methods that delete sessions. They are plain functions of the
    supervisor object; the scheduler above has no event for them. *)
(* ================================================================== *)
Module VoiceManagerCleanup.
Import VoiceManager.

(** [cleanup(guildId)]. *)
Definition cleanup (guildId : GuildId) (m : Manager) : Manager :=
  let cs := match guildStates m !! guildId with
            | Some state => destroyCurrent state (connections m)
            | None => connections m
            end in
  set_connections cs (set_guildStates (delete guildId (guildStates m)) m).

(** [cleanupAll()]: the loop over [guildStates.entries()], then [clear()].
    [destroy] on one connection leaves the others as they are, so the order
    in which the loop visits the sessions makes no difference. *)
Definition cleanupAll (m : Manager) : Manager :=
  let cs := map_fold (fun _ state cs => destroyCurrent state cs)
                     (connections m) (guildStates m) in
  set_connections cs (set_guildStates ∅ m).

End VoiceManagerCleanup.

(* ================================================================== *)
(** ** voice/follow.ts: the debounce of [handleVoiceStateUpdate] *)
(* ================================================================== *)
Module FollowerDebounce.
Import VoiceFollower.

Abbreviation TimerId := nat (only parsing).
Abbreviation UserId := string (only parsing).

(** The follower object and, of the event loop, the timeouts it has set
    that have neither fired nor been cleared: each with the time from which
    it may fire and the two states its callback closes over. [listening]
    tells whether [onVoiceStateUpdate] is registered on the client. *)
Record Follower :=
  { debounceTimers : gmap GuildId TimerId;
    armed : gmap TimerId (Z * OwnerVoiceState * OwnerVoiceState);
    nextTimer : TimerId;
    listening : bool }.

(** The object the constructor leaves behind. *)
Definition initial : Follower :=
  {| debounceTimers := ∅; armed := ∅; nextTimer := 0; listening := true |}.

Definition debounceDelay : Z := 500.

(** [clearTimeout(timer)]. *)
Definition clearTimeout (timer : TimerId) (f : Follower) : Follower :=
  {| debounceTimers := debounceTimers f; armed := delete timer (armed f);
     nextTimer := nextTimer f; listening := listening f |}.

Section Handlers.
(** The owner's user id, and the settings read by [handleOwnerLeave]. *)
Variable OWNER_ID : UserId.
Variable get247Enabled : GuildId -> bool.

(** [handleVoiceStateUpdate(oldState, newState)] for an update of user
    [userId] ([newState.id]) arriving at time [now]. *)
Definition handleVoiceStateUpdate (now : Z) (userId : UserId)
    (oldState newState : OwnerVoiceState) (f : Follower) : Follower :=
  if decide (userId = OWNER_ID) then
    let guildId := guild_id newState in
    let f := match debounceTimers f !! guildId with
             | Some existingTimer => clearTimeout existingTimer f
             | None => f
             end in
    let timer := nextTimer f in
    {| debounceTimers := <[guildId := timer]> (debounceTimers f);
       armed := <[timer := (now + debounceDelay, oldState, newState)%Z]> (armed f);
       nextTimer := S timer;
       listening := listening f |}
  else f.

(** The callback of the timeout [timer], run by the event loop at time
    [now]: the call it makes on the supervisor, if any, and the follower
    afterwards. [None]: the timeout is not armed, or not yet due. *)
Definition fire (now : Z) (timer : TimerId) (f : Follower) : option (option Op * Follower) :=
  match armed f !! timer with
  | None => None
  | Some (due, oldState, newState) =>
    if (now <? due)%Z then None
    else
      let guildId := guild_id newState in
      Some (processVoiceStateUpdate get247Enabled oldState newState,
            {| debounceTimers := delete guildId (debounceTimers f);
               armed := delete timer (armed f);
               nextTimer := nextTimer f;
               listening := listening f |})
  end.

(** [cleanup()]: [clearTimeout] for every timer of [debounceTimers], then
    [clear()], and the listener is taken off the client. *)
Definition cleanup (f : Follower) : Follower :=
  {| debounceTimers := ∅;
     armed := map_fold (fun _ timer a => delete timer a) (armed f) (debounceTimers f);
     nextTimer := nextTimer f;
     listening := false |}.

(** What happens to a follower: the client emits [voiceStateUpdate], a
    timeout fires, or the bot shuts the follower down. *)
Inductive Event :=
  | Update (now : Z) (userId : UserId) (oldState newState : OwnerVoiceState)
  | Fire (now : Z) (timer : TimerId)
  | Cleanup.

Definition step (e : Event) (f : Follower) : option (option Op * Follower) :=
  match e with
  | Update now userId oldState newState =>
    if listening f
    then Some (None, handleVoiceStateUpdate now userId oldState newState f)
    else Some (None, f)
  | Fire now timer => fire now timer f
  | Cleanup => Some (None, cleanup f)
  end.

(** A sequence of events, with the calls made on the supervisor in order. *)
Fixpoint run (es : list Event) (f : Follower) : option (list Op * Follower) :=
  match es with
  | [] => Some ([], f)
  | e :: es =>
    match step e f with
    | None => None
    | Some (op, f) =>
      match run es f with
      | None => None
      | Some (ops, f) => Some (option_list op ++ ops, f)
      end
    end
  end.

Definition reachable (f : Follower) : Prop := exists es ops, run es initial = Some (ops, f).

End Handlers.
End FollowerDebounce.

(* ================================================================== *)
(** ** tts/queue.ts: playback

    The rest of [processQueue], [stop], [cleanup] and the window of recent
    audio. Of the audio player the embedding takes that [play(resource)]
    leaves it [Buffering] or [Playing], that [stop()] only asks the player
    to stop, the change to [Idle] following as an event of its own, and
    that the [Idle] handler runs when the status changes to [Idle]. *)
(* ================================================================== *)
Module Playback.
Import TtsQueue QueueVocabulary.

(** [stop(guildId)]. [player.stop()] changes none of the maps: the change
    of the player to [Idle] arrives later, as the event [PlayerIdle]. *)
Definition stop (guildId : GuildId) (q : Queue) : Queue :=
  let q := match queues q !! guildId with
           | Some _ => set_queues (<[guildId := []]> (queues q)) q
           | None => q
           end in
  set_processing (<[guildId := false]> (processing q)) q.

(** [cleanup(guildId)]: [stop], the subscription and the listeners of the
    player are given up, and the guild is deleted from the six maps. *)
Definition cleanup (guildId : GuildId) (q : Queue) : Queue :=
  let q := stop guildId q in
  {| queues := delete guildId (queues q);
     players := delete guildId (players q);
     subscriptions := delete guildId (subscriptions q);
     processing := delete guildId (processing q);
     currentConnections := delete guildId (currentConnections q);
     lastRequestTime := delete guildId (lastRequestTime q) |}.

(** *** The window of recent audio *)

Definition recentAudioMaxItems : nat := 10.

Section Recent.
(** An entry [{ name, buffer }]. *)
Variable Audio : Type.

(** [while (list.length > max) list.shift()], unrolled [fuel] times. *)
Fixpoint shiftWhileLonger (max fuel : nat) (entries : list Audio) : list Audio :=
  match fuel with
  | O => entries
  | S fuel =>
    if max <? length entries
    then shiftWhileLonger max fuel (tail entries)
    else entries
  end.

(** [pushRecentAudio(guildId, name, buffer)]; the loop runs at most once
    for every entry of the list. *)
Definition pushRecentAudio (guildId : GuildId) (entry : Audio)
    (recentAudio : gmap GuildId (list Audio)) : gmap GuildId (list Audio) :=
  let entries := default [] (recentAudio !! guildId) in
  let entries := entries ++ [entry] in
  let entries := shiftWhileLonger recentAudioMaxItems (length entries) entries in
  <[guildId := entries]> recentAudio.

(** [getRecentAudioAttachments(guildId, limit)]: the entries the attachments
    are built from. *)
Definition getRecentAudioAttachments (guildId : GuildId) (limit : Z)
    (recentAudio : gmap GuildId (list Audio)) : list Audio :=
  let entries := default [] (recentAudio !! guildId) in
  drop (Z.to_nat (Z.max 0 (Z.of_nat (length entries) - limit))) entries.
End Recent.

(** *** [processQueue] between its awaits *)

(** A call of [processQueue] that has taken an item: suspended before
    [player.play(resource)], suspended at [entersState] after it, or past
    its [finally] block. *)
Inductive Flight :=
  | AwaitResource (guildId : GuildId) (item : QueueItem)
  | AwaitPlaying (guildId : GuildId) (item : QueueItem)
  | Finished (guildId : GuildId) (item : QueueItem).

Definition flight_guild (fl : Flight) : GuildId :=
  match fl with
  | AwaitResource g _ | AwaitPlaying g _ | Finished g _ => g
  end.

Definition flight_item (fl : Flight) : QueueItem :=
  match fl with
  | AwaitResource _ item | AwaitPlaying _ item | Finished _ item => item
  end.

Definition inFlight (fl : Flight) : bool :=
  match fl with
  | Finished _ _ => false
  | _ => true
  end.

Record System := { queue : Queue; flights : list Flight }.

Definition initialSystem : System := {| queue := empty; flights := [] |}.

Inductive Event :=
  | Enqueue (r : Request)
      (** somebody calls [enqueue] *)
  | ResourceReady (t : nat) (started : bool)
      (** the resource of flight [t] is there: [player.play(resource)] *)
  | Leave (t : nat)
      (** flight [t] leaves its [try] block, by the end of the wait for
          [Playing] or by a failure at any of its awaits *)
  | PlayerIdle (guildId : GuildId)
      (** the player of the guild becomes [Idle] *)
  | PlayerError (guildId : GuildId)
      (** the player of the guild emits [error] *)
  | PlayerStatus (guildId : GuildId) (status : AudioPlayerStatus)
      (** the player changes between two statuses other than [Idle] *)
  | Stop (guildId : GuildId)
      (** somebody calls [stop] *).

Definition isIdle (status : AudioPlayerStatus) : bool :=
  match status with Idle => true | _ => false end.

Section Steps.
Variable maxChars : Z.
Variable soundsDir : Text.
Variable isFile : Text -> bool.
Variable subscribe : ConnId -> bool.

(** The [finally] block of [processQueue]. *)
Definition processQueue_finally (guildId : GuildId) (q : Queue) : option QueueItem * Queue :=
  let q := set_processing (<[guildId := false]> (processing q)) q in
  match queues q !! guildId with
  | Some (_ :: _) => processQueue_begin subscribe guildId q
  | _ => (None, q)
  end.

(** The flight a call of [processQueue] has become, if it took an item. *)
Definition launch (guildId : GuildId) (taken : option QueueItem) : list Flight :=
  match taken with
  | Some item => [AwaitResource guildId item]
  | None => []
  end.

Definition step (e : Event) (σ : System) : option System :=
  match e with
  | Enqueue r =>
    let '(result, q) := enqueue maxChars soundsDir isFile subscribe
                          (req_guildId r) (req_text r) (req_connection r)
                          (req_now r) (req_stamp r) (queue σ) in
    let taken := match result with Returns taken => taken | Throws _ => None end in
    Some {| queue := q; flights := flights σ ++ launch (req_guildId r) taken |}
  | ResourceReady t started =>
    match flights σ !! t with
    | Some (AwaitResource guildId item) =>
      let status := if started then Playing else Buffering in
      Some {| queue := set_players (alter (fun _ => status) guildId (players (queue σ))) (queue σ);
              flights := <[t := AwaitPlaying guildId item]> (flights σ) |}
    | _ => None
    end
  | Leave t =>
    match flights σ !! t with
    | Some (AwaitResource guildId item) | Some (AwaitPlaying guildId item) =>
      let '(taken, q) := processQueue_finally guildId (queue σ) in
      Some {| queue := q;
              flights := <[t := Finished guildId item]> (flights σ) ++ launch guildId taken |}
    | _ => None
    end
  | PlayerIdle guildId =>
    match players (queue σ) !! guildId with
    | Some status =>
      if isIdle status then None
      else
        let q := set_players (<[guildId := Idle]> (players (queue σ))) (queue σ) in
        let '(taken, q) := processQueue_begin subscribe guildId q in
        Some {| queue := q; flights := flights σ ++ launch guildId taken |}
    | None => None
    end
  | PlayerError guildId =>
    match players (queue σ) !! guildId with
    | Some _ =>
      let '(taken, q) := processQueue_begin subscribe guildId (queue σ) in
      Some {| queue := q; flights := flights σ ++ launch guildId taken |}
    | None => None
    end
  | PlayerStatus guildId status =>
    match players (queue σ) !! guildId with
    | Some old =>
      if isIdle old || isIdle status then None
      else Some {| queue := set_players (<[guildId := status]> (players (queue σ))) (queue σ);
                   flights := flights σ |}
    | None => None
    end
  | Stop guildId =>
    Some {| queue := stop guildId (queue σ); flights := flights σ |}
  end.

Fixpoint run (es : list Event) (σ : System) : option System :=
  match es with
  | [] => Some σ
  | e :: es =>
    match step e σ with
    | Some σ => run es σ
    | None => None
    end
  end.

End Steps.
End Playback.

(* ================================================================== *)
(** ** util/settings.ts *)
(* ================================================================== *)
Module Settings.

(** [GuildSettings]: both fields are optional. *)
Record GuildSettings :=
  { recordingEnabled : option bool; mode247Enabled : option bool }.

(** The settings file as [readAllSettings] finds it: the object parsed from
    it, or nothing when the file is missing, unreadable, no JSON or no
    object. *)
Definition Disk : Type := option (gmap GuildId GuildSettings).

(** The object literal [{}]. *)
Definition noSettings : GuildSettings :=
  {| recordingEnabled := None; mode247Enabled := None |}.

(** [{ ...base, ...patch }]. *)
Definition spread (base patch : GuildSettings) : GuildSettings :=
  {| recordingEnabled := match recordingEnabled patch with
                         | Some b => Some b
                         | None => recordingEnabled base
                         end;
     mode247Enabled := match mode247Enabled patch with
                       | Some b => Some b
                       | None => mode247Enabled base
                       end |}.

(** [Boolean(x)] for [x : boolean | undefined]. *)
Definition toBoolean (x : option bool) : bool := default false x.

(** [readAllSettings()]. *)
Definition readAllSettings (disk : Disk) : gmap GuildId GuildSettings := default ∅ disk.

(** [writeAllSettings(data)]; [writable] tells whether [fs.writeFileSync]
    succeeds. [None]: it throws. *)
Definition writeAllSettings (writable : bool) (data : gmap GuildId GuildSettings)
  : option Disk :=
  if writable then Some (Some data) else None.

(** [getGuildSettings(guildId)]. *)
Definition getGuildSettings (guildId : GuildId) (disk : Disk) : GuildSettings :=
  let all := readAllSettings disk in
  default noSettings (all !! guildId).

(** [setGuildSettings(guildId, patch)]. *)
Definition setGuildSettings (writable : bool) (guildId : GuildId) (patch : GuildSettings)
    (disk : Disk) : option (GuildSettings * Disk) :=
  let all := readAllSettings disk in
  let next := spread (default noSettings (all !! guildId)) patch in
  let all := <[guildId := next]> all in
  match writeAllSettings writable all with
  | Some disk => Some (next, disk)
  | None => None
  end.



Definition get247Enabled (guildId : GuildId) (disk : Disk) : bool :=
  toBoolean (mode247Enabled (getGuildSettings guildId disk)).

Definition set247Enabled (writable : bool) (guildId : GuildId) (enabled : bool)
    (disk : Disk) : option Disk :=
  match setGuildSettings writable guildId
          {| recordingEnabled := None; mode247Enabled := Some enabled |} disk with
  | Some (_, disk) => Some disk
  | None => None
  end.

End Settings.

(* ================================================================== *)
(** ** commands/mode247.ts

    Of the calls on the interaction the embedding keeps the reply; they
    are taken to succeed. *)
(* ================================================================== *)
Module Mode247Command.

(** The replies of the command. *)
Inductive Reply := OnlyInServers | Activated | Deactivated.

(** [execute] of the command [/247]: [isOwner] is the answer of
    [guardInteraction], [guild] is [interaction.guild?.id] and [provided]
    the option [enabled]. The result is the reply, if one is sent, and the
    settings file; [None]: the call throws. *)
Definition execute (writable isOwner : bool) (guild : option GuildId)
    (provided : option bool) (disk : Settings.Disk)
  : option (option Reply * Settings.Disk) :=
  if negb isOwner then Some (None, disk)
  else
    match guild with
    | None => Some (Some OnlyInServers, disk)
    | Some guildId =>
      let current := Settings.get247Enabled guildId disk in
      let enabled := match provided with
                     | Some b => b
                     | None => negb current
                     end in
      match Settings.set247Enabled writable guildId enabled disk with
      | None => None
      | Some disk => Some (Some (if enabled then Activated else Deactivated), disk)
      end
    end.

End Mode247Command.

(* ================================================================== *)
(** ** commands/say.ts *)
(* ================================================================== *)
Module SayCommand.
Import VoiceManager TtsQueue.

(** The replies of the command. *)
Inductive Reply :=
  | OnlyInServer
  | NotInVoiceChannel
  | Speaking (shown : list ascii)
  | Failed (message : Error).

(** [text.substring(0, 100)] followed by [...] if the text is longer. *)
Definition shownText (text : list ascii) : list ascii :=
  take 100 text ++ (if 100 <? length text then str "..." else []).

Section Say.
Variable cfg : Config.
Variable maxChars : Z.
Variable soundsDir : list ascii.
Variable isFile : list ascii -> bool.
Variable subscribe : ConnId -> bool.

(** [execute] of the command [/say], with [join] and [enqueue] run as
    defined above: [voiceChannel] is [member.voice.channel], [o] decides
    the attempts of the [join] and [now] and [time] are the clock readings
    of [enqueue]. The result is the last reply, the supervisor, and the
    queue as [enqueue] leaves it at its first suspension. [None]: the call
    is suspended inside [join]. *)
Definition execute (isOwner : bool) (guild : option GuildId)
    (voiceChannel : option VoiceBasedChannel) (text : list ascii)
    (o : Oracle) (now time : Z) (m : Manager) (q : Queue)
  : option (option Reply * Manager * Queue) :=
  if negb isOwner then Some (None, m, q)
  else
    match guild with
    | None => Some (Some OnlyInServer, m, q)
    | Some guildId =>
      match voiceChannel with
      | None => Some (Some NotInVoiceChannel, m, q)
      | Some voiceChannel =>
        let connection := getConnection guildId m in
        let joined :=
          match connection with
          | Some c =>
            if decide (getChannelId guildId m = Some (channel_id voiceChannel))
            then Some (Returns c, m)
            else join cfg o voiceChannel m
          | None => join cfg o voiceChannel m
          end in
        match joined with
        | None => None
        | Some (Throws e, m) => Some (Some (Failed e), m, q)
        | Some (Returns connection, m) =>
          match enqueue maxChars soundsDir isFile subscribe
                  guildId text connection now time q with
          | (Throws e, q) => Some (Some (Failed e), m, q)
          | (Returns _, q) => Some (Some (Speaking (shownText text)), m, q)
          end
        end
      end
    end.

End Say.
End SayCommand.

(* ================================================================== *)
(** ** Vocabulary of the statements about the life cycle of sessions *)
(* ================================================================== *)

Module LifecycleVocabulary.
(** The connection object after [destroy()]. *)
Definition destroyedCopy (v : VoiceConnection) : VoiceConnection :=
  {| joinConfig_channelId := joinConfig_channelId v;
     joinConfig_guildId := joinConfig_guildId v;
     destroyed := true |}.

(** The supervisor after the connection recorded for the guild, if any, has
    been destroyed and taken out of the session. *)
Definition dropConnection (g : GuildId) (m : VoiceManager.Manager) : VoiceManager.Manager :=
  match VoiceManager.guildStates m !! g with
  | Some s =>
    match VoiceManager.connection s with
    | Some c =>
      VoiceManager.commit g
        (VoiceManager.set_channelId None (VoiceManager.set_connection None s))
        (VoiceManager.destroy c (VoiceManager.connections m)) m
    | None => m
    end
  | None => m
  end.

(** The supervisor after a first [join] of channel A that became ready at
    once. *)
Definition connectedToA : VoiceManager.Manager :=
  match VoiceManager.join VoiceManager.defaultConfig Vocabulary.allReady Vocabulary.chA
          VoiceManager.initial with
  | Some (_, m) => m
  | None => VoiceManager.initial
  end.

End LifecycleVocabulary.

Module TableVocabulary.
Import VoiceManager Scheduler.




End TableVocabulary.

Module LockVocabulary.
Import VoiceManager Scheduler.

(** The call that created lock promise [l] is inside its operation. *)
Definition holds (l : LockId) (task : Task) : Prop :=
  match task with
  | AwaitReady _ _ l' | AwaitBackoff _ l' _ => l' = l
  | _ => False
  end.

(** The promise is resolved, or a suspended call will resolve it. *)
Definition pending (σ : System) (l : LockId) : Prop :=
  l ∈ released (manager σ) \/ exists t task, tasks σ !! t = Some task /\ holds l task.

(** Every lock promise recorded in a session, and every lock promise a
    call waits for, is resolved or held. *)
Definition lockInv (σ : System) : Prop :=
  (forall g s l, guildStates (manager σ) !! g = Some s -> operationLock s = Some l ->
     pending σ l) /\
  (forall t op l, tasks σ !! t = Some (AwaitLock op l) -> pending σ l).

(** How a block that leaves a call as [task'] changes the locks: resolved
    promises stay resolved, and a promise recorded in a session afterwards
    was recorded in that session before or is held by [task']. *)
Definition locksFrom (m m' : Manager) (task' : Task) : Prop :=
  (forall l, l ∈ released m -> l ∈ released m') /\
  (forall g s' l, guildStates m' !! g = Some s' -> operationLock s' = Some l ->
     (exists s, guildStates m !! g = Some s /\ operationLock s = Some l) \/ holds l task').
End LockVocabulary.

(* ================================================================== *)
(** ** Vocabulary of the statements about the debounce *)
(* ================================================================== *)

Module DebounceVocabulary.
Import VoiceFollower FollowerDebounce.

(** Every timer of [debounceTimers] is armed for an update of its guild,
    every armed timeout is the timer recorded for the guild of its update,
    and the timers not handed out yet are not armed. *)
Definition timersInv (f : Follower) : Prop :=
  (forall g t, debounceTimers f !! g = Some t ->
     exists due oldState newState,
       armed f !! t = Some (due, oldState, newState) /\ guild_id newState = g) /\
  (forall t due oldState newState,
     armed f !! t = Some (due, oldState, newState) ->
     debounceTimers f !! guild_id newState = Some t) /\
  (forall t, nextTimer f <= t -> armed f !! t = None).

(** One [voiceStateUpdate] event: arrival time, user, old and new state. *)
Record Arrival :=
  { at_time : Z; of_user : UserId; from_state : OwnerVoiceState; to_state : OwnerVoiceState }.

Definition deliver (OWNER_ID : UserId) (f : Follower) (u : Arrival) : Follower :=
  handleVoiceStateUpdate OWNER_ID (at_time u) (of_user u) (from_state u) (to_state u) f.

(** The update is not one of the owner in guild [g]. *)
Definition foreignTo (OWNER_ID : UserId) (g : GuildId) (u : Arrival) : Prop :=
  of_user u <> OWNER_ID \/ guild_id (to_state u) <> g.

(** The owner of the default configuration, the owner joining channel A of
    guild G1 at time 1000, and the follower right after that update. *)
Definition ownerId : UserId := "978783908638375956".

Definition nowhere : OwnerVoiceState :=
  {| guild_id := "G1"; channelId := None; channel := None |}.
Definition inA : OwnerVoiceState :=
  {| guild_id := "G1"; channelId := Some "A"; channel := Some Vocabulary.chA |}.
Definition inB : OwnerVoiceState :=
  {| guild_id := "G1"; channelId := Some "B"; channel := Some Vocabulary.chB |}.

Definition pendingJoin : Follower :=
  handleVoiceStateUpdate ownerId 1000 ownerId nowhere inA initial.

(** An update of the owner in another guild. *)
Definition elsewhere : Arrival :=
  {| at_time := 1100; of_user := ownerId;
     from_state := {| guild_id := "G2"; channelId := None; channel := None |};
     to_state := {| guild_id := "G2"; channelId := Some "C";
                    channel := Some {| channel_id := "C"; channel_guild := "G2" |} |} |}.
End DebounceVocabulary.

(* ================================================================== *)
(** ** Vocabulary of the statements about playback *)
(* ================================================================== *)

Module RecentVocabulary.
(** The last [n] elements of a list. *)
Definition lastN {A} (n : nat) (l : list A) : list A := drop (length l - n) l.

(** The entries pushed for guild [g], in the order of the calls. *)
Definition pushedFor {A} (g : GuildId) (calls : list (GuildId * A)) : list A :=
  (filter (fun p => p.1 = g) calls).*2.

(** A sequence of calls of [pushRecentAudio]. *)
Definition pushAll {A} (calls : list (GuildId * A)) (recentAudio : gmap GuildId (list A))
  : gmap GuildId (list A) :=
  foldl (fun r p => Playback.pushRecentAudio A p.1 p.2 r) recentAudio calls.
End RecentVocabulary.

Module DispatchVocabulary.
Import TtsQueue QueueVocabulary.
(** The queue after [enqueue] has pushed the item of the text [hello] for
    guild G1 on connection 0, before it calls [processQueue]. *)
Definition pushedHello : Queue :=
  enqueue_push 200 (str "sounds") noFiles granted "G1" (str "hello") 0 1000
    (set_currentConnections (<["G1" := 0]> ∅) empty).
End DispatchVocabulary.

Module PlaybackVocabulary.
Import TtsQueue QueueVocabulary Playback.

(** The flight belongs to guild [g] and has not reached its [finally]. *)
Definition activeOf (g : GuildId) (fl : Flight) : bool :=
  bool_decide (flight_guild fl = g) && inFlight fl.

Definition countActive (g : GuildId) (fls : list Flight) : nat :=
  length (List.filter (activeOf g) fls).

(** The items taken from the queue of guild [g] so far, in the order in
    which they were taken. *)
Definition dispatched (g : GuildId) (fls : list Flight) : list QueueItem :=
  map flight_item (List.filter (fun fl => bool_decide (flight_guild fl = g)) fls).

Definition queued (g : GuildId) (q : Queue) : list QueueItem :=
  default [] (queues q !! g).

Definition isProcessing (g : GuildId) (q : Queue) : bool :=
  bool_decide (processing q !! g = Some true).

(** A guild with queued items has a current connection. *)
Definition connectionKnown (q : Queue) : Prop :=
  forall g item rest, queues q !! g = Some (item :: rest) -> currentConnections q !! g <> None.

(** One flight for a guild exactly while its [processing] flag is set. *)
Definition flightInv (q : Queue) (fls : list Flight) : Prop :=
  forall g, countActive g fls = if isProcessing g q then 1 else 0.

Definition playbackInv (σ : System) : Prop :=
  connectionKnown (queue σ) /\ flightInv (queue σ) (flights σ).

Definition isStop (e : Event) : bool :=
  match e with Stop _ => true | _ => false end.

Section Runs.
Variable maxChars : Z.
Variable soundsDir : list ascii.
Variable isFile : list ascii -> bool.
Variable subscribe : ConnId -> bool.

(** The items a call of [enqueue] pushes when it passes both gates. *)
Definition itemsOfRequest (r : Request) : list QueueItem :=
  pushSegments maxChars (req_guildId r) (req_stamp r) 0
    (splitIntoSegments soundsDir isFile (sanitizeText maxChars (req_text r))) [].

(** The items event [e] pushes onto the queue of guild [g] in state [σ]. *)
Definition pushedBy (g : GuildId) (e : Event) (σ : System) : list QueueItem :=
  match e with
  | Enqueue r =>
    if bool_decide (req_guildId r = g)
       && isAccepted (enqueue maxChars soundsDir isFile subscribe
                        (req_guildId r) (req_text r) (req_connection r)
                        (req_now r) (req_stamp r) (queue σ)).1
    then itemsOfRequest r else []
  | _ => []
  end.

(** The items pushed onto the queue of guild [g] along a run. *)
Fixpoint pushedAlong (g : GuildId) (es : list Event) (σ : System) : list QueueItem :=
  match es with
  | [] => []
  | e :: es =>
    match step maxChars soundsDir isFile subscribe e σ with
    | Some σ' => pushedBy g e σ ++ pushedAlong g es σ'
    | None => []
    end
  end.
End Runs.

(** Two requests for guild G1 on connection 0, 300 ms apart, and a run in
    which the first item is played to its end before the second starts. *)
Definition helloRequest : Request :=
  {| req_guildId := "G1"; req_text := str "hello"; req_connection := 0;
     req_now := 1000; req_stamp := 1000 |}.
Definition worldRequest : Request :=
  {| req_guildId := "G1"; req_text := str "world"; req_connection := 0;
     req_now := 1300; req_stamp := 1300 |}.
Definition helloWorld : list Event :=
  [Enqueue helloRequest; Enqueue worldRequest; ResourceReady 0 true; Leave 0;
   PlayerIdle "G1"].
End PlaybackVocabulary.

Module StallVocabulary.
Import TtsQueue Playback.

(** A guild with queued items has a current connection and a player. *)
Definition equipped (g : GuildId) (q : Queue) : Prop :=
  forall item rest, queues q !! g = Some (item :: rest) ->
    currentConnections q !! g <> None /\ players q !! g <> None.

(** The items queued for a guild are not waiting for nothing: a call of
    [processQueue] has the guild's flag set, or the player is not idle. *)
Definition attended (g : GuildId) (q : Queue) : Prop :=
  forall item rest, queues q !! g = Some (item :: rest) ->
    processing q !! g = Some true \/
    exists status, players q !! g = Some status /\ isIdle status = false.

Definition stallFree (q : Queue) : Prop := forall g, equipped g q /\ attended g q.

(** The system after [enqueue] of [helloRequest]: its item is being
    synthesized and the player is still idle. *)
Definition synthesizingHello : System :=
  default initialSystem
    (run 200 (str "sounds") QueueVocabulary.noFiles QueueVocabulary.granted
       [Enqueue PlaybackVocabulary.helloRequest] initialSystem).
End StallVocabulary.

Module SayVocabulary.
Import VoiceManager TtsQueue QueueVocabulary SayCommand Vocabulary.
End SayVocabulary.

(* ================================================================== *)
(** * Properties *)
(* ================================================================== *)

(* ------------------------------------------------------------------ *)
(** ** Backoff delays *)
(* ------------------------------------------------------------------ *)
Module BackoffFacts.
Import VoiceManager Vocabulary.

Lemma pow2_pos n : (0 < pow2 n)%Q.
Proof.
  unfold pow2. change 0%Q with (inject_Z 0). rewrite <- Zlt_Qlt. lia.
Qed.

Lemma pow2_S n : (pow2 (S n) == 2 * pow2 n)%Q.
Proof.
  unfold pow2. rewrite Nat2Z.inj_succ, Z.pow_succ_r by lia.
  rewrite inject_Z_mult. reflexivity.
Qed.

Lemma exponential_cases cfg n :
  (exponential cfg n <= inject_Z (backoffBase cfg) * pow2 n)%Q /\
  (exponential cfg n <= inject_Z (backoffMax cfg))%Q /\
  ((exponential cfg n == inject_Z (backoffBase cfg) * pow2 n)%Q \/
   (exponential cfg n == inject_Z (backoffMax cfg))%Q).
Proof.
  unfold exponential.
  destruct (Q.min_spec (inject_Z (backoffBase cfg) * pow2 n)%Q (inject_Z (backoffMax cfg)))
    as [[H1 H2]|[H1 H2]]; rewrite H2; repeat split; try lra;
    (left; reflexivity) || (right; reflexivity).
Qed.

Lemma exponential_nonneg cfg n :
  (0 <= backoffBase cfg)%Z -> (0 <= backoffMax cfg)%Z -> (0 <= exponential cfg n)%Q.
Proof.
  intros Hb Hm. unfold exponential. apply Q.min_glb.
  - apply Qmult_le_0_compat.
    + change 0%Q with (inject_Z 0). rewrite <- Zle_Qle. exact Hb.
    + apply Qlt_le_weak, pow2_pos.
  - change 0%Q with (inject_Z 0). rewrite <- Zle_Qle. exact Hm.
Qed.

Lemma calculateBackoff_formula cfg rnd n :
  (calculateBackoff cfg rnd n == exponential cfg n * (1 + rnd * (3 # 10)))%Q.
Proof. unfold calculateBackoff. cbv zeta. ring. Qed.

(** The retry branch sleeps [calculateBackoff] of the counter it has just
    incremented. *)
Lemma catch_retry_delay cfg rnd err s cs b s' cs' :
  joinUnlockedWithRetries_catch cfg rnd err s cs = (RetryAfter b, s', cs') ->
  b = calculateBackoff cfg rnd (S (retries s)) /\ retries s' = S (retries s).
Proof.
  unfold joinUnlockedWithRetries_catch. cbn.
  destruct (_ <? _)%Z; intros [= <- <- <-]. cbn. auto.
Qed.

(** C4, as amended. The delay slept before a retry is
    [min(base * 2^n, backoffMax) * (1 + 0.3 * rnd)] for the value [n] of the
    retry counter after its increment and a random [rnd] in [0, 1). It lies
    between the capped exponential and 1.3 times the capped exponential;
    this is the interval from [base * 2^n] to [1.3 * base * 2^n] as long as
    [base * 2^n] does not exceed [backoffMax]. The delay of the next retry is
    not smaller as long as [base * 2^(n+1)] does not exceed [backoffMax]. *)
Theorem backoff_delay cfg rnd n :
  (0 <= backoffBase cfg)%Z -> (0 <= backoffMax cfg)%Z ->
  (0 <= rnd)%Q -> (rnd < 1)%Q ->
  let base := inject_Z (backoffBase cfg) in
  let cap := inject_Z (backoffMax cfg) in
  let delay := calculateBackoff cfg rnd n in
  (delay == Qmin (base * pow2 n) cap * (1 + rnd * (3 # 10)))%Q /\
  (Qmin (base * pow2 n) cap <= delay)%Q /\
  (delay <= Qmin (base * pow2 n) cap * (13 # 10))%Q /\
  ((base * pow2 n <= cap)%Q ->
     (base * pow2 n <= delay)%Q /\ (delay <= base * pow2 n * (13 # 10))%Q) /\
  (forall rnd', (0 <= rnd')%Q -> (rnd' < 1)%Q ->
     (base * pow2 (S n) <= cap)%Q ->
     (delay <= calculateBackoff cfg rnd' (S n))%Q) /\
  (forall err s cs b s' cs',
     retries s = pred n ->  (0 < n)%nat ->
     joinUnlockedWithRetries_catch cfg rnd err s cs = (RetryAfter b, s', cs') ->
     b = delay).
Proof.
  intros Hb Hm Hr0 Hr1 base cap delay.
  pose proof (calculateBackoff_formula cfg rnd n) as Hf. fold delay in Hf.
  pose proof (exponential_nonneg cfg n Hb Hm) as He.
  destruct (exponential_cases cfg n) as (Hle1 & Hle2 & Hcase).
  fold base in Hle1, Hcase. fold cap in Hle2, Hcase.
  change (Qmin (base * pow2 n) cap) with (exponential cfg n).
  split; [exact Hf|].
  split; [nra|]. split; [nra|]. split; [|split].
  - intros Hun.
    assert (exponential cfg n == base * pow2 n)%Q as Heq by (destruct Hcase; lra).
    split; nra.
  - intros rnd' Hr0' Hr1' Hun.
    pose proof (calculateBackoff_formula cfg rnd' (S n)) as Hf'.
    pose proof (exponential_nonneg cfg (S n) Hb Hm) as He'.
    destruct (exponential_cases cfg (S n)) as (Hle1' & Hle2' & Hcase').
    fold base in Hle1', Hcase'. fold cap in Hle2', Hcase'.
    assert (exponential cfg (S n) == base * pow2 (S n))%Q as Heq by (destruct Hcase'; lra).
    pose proof (pow2_S n) as HS.
    assert (exponential cfg (S n) == 2 * (base * pow2 n))%Q as Heq2.
    { rewrite Heq, HS. ring. }
    nra.
  - intros err s cs b s' cs' Hn Hpos Hc.
    apply catch_retry_delay in Hc as [-> _]. unfold delay. rewrite Hn.
    replace (S (pred n)) with n by lia. reflexivity.
Qed.

Lemma backoff_delay_witness :
  (0 <= backoffBase defaultConfig)%Z /\ (0 <= backoffMax defaultConfig)%Z /\
  (0 <= 1 # 2)%Q /\ (1 # 2 < 1)%Q /\
  (inject_Z 1000 * pow2 2 <= calculateBackoff defaultConfig (1 # 2) 2)%Q /\
  (calculateBackoff defaultConfig (1 # 2) 2 <= inject_Z 1000 * pow2 2 * (13 # 10))%Q.
Proof.
  assert (H1 : (0 <= backoffBase defaultConfig)%Z) by (cbn; lia).
  assert (H2 : (0 <= backoffMax defaultConfig)%Z) by (cbn; lia).
  assert (H3 : (0 <= 1 # 2)%Q) by (unfold Qle; cbn; lia).
  assert (H4 : (1 # 2 < 1)%Q) by (unfold Qlt; cbn; lia).
  repeat (split; [assumption|]).
  apply (backoff_delay defaultConfig (1 # 2) 2 H1 H2 H3 H4).
  unfold Qle; cbn; lia.
Defined.

(** C4 as stated fails: with a cap of 5000 ms the third retry of a guild
    sleeps less than [base * 2^3]. *)
Lemma backoff_below_exponential :
  let s := set_retries 2 freshState in
  exists b s' cs',
    joinUnlockedWithRetries_catch lowCap 0 "Connection ready timeout" s [] = (RetryAfter b, s', cs') /\
    retries s' = 3%nat /\
    b = calculateBackoff lowCap 0 3 /\
    ~ (inject_Z (backoffBase lowCap) * pow2 3 <= b)%Q.
Proof.
  eexists. eexists. eexists. split; [reflexivity|].
  split; [reflexivity|]. split; [reflexivity|].
  vm_compute. intros H. apply H. reflexivity.
Qed.

End BackoffFacts.

(* ------------------------------------------------------------------ *)
(** ** The session invariant under interleaving *)
(* ------------------------------------------------------------------ *)
Module SchedulerFacts.
Import VoiceManager Scheduler Vocabulary.


Section Inv.
Variable cfg : Config.
Variable get247Enabled : GuildId -> bool.






















End Inv.




(** *** Signals of the transport *)




(** *** The follower *)

(** C9. With persistent mode enabled for the guild, the follower's
    processing of a transition of the owner from a channel to no channel
    makes no call on the supervisor and leaves the whole system, the guild
    session included, as it was. *)
Theorem persistent_mode_suppresses_leave cfg get247Enabled σ oldState newState :
  get247Enabled (VoiceFollower.guild_id newState) = true ->
  VoiceFollower.truthy (VoiceFollower.channelId oldState) = true ->
  VoiceFollower.truthy (VoiceFollower.channelId newState) = false ->
  VoiceFollower.processVoiceStateUpdate get247Enabled oldState newState = None /\
  step cfg get247Enabled (OwnerUpdate oldState newState) σ = Some σ /\
  (forall σ', step cfg get247Enabled (OwnerUpdate oldState newState) σ = Some σ' ->
     calls σ' = calls σ /\ tasks σ' = tasks σ /\
     guildStates (manager σ') = guildStates (manager σ) /\
     connections (manager σ') = connections (manager σ)).
Proof.
  intros H247 Hold Hnew.
  assert (VoiceFollower.processVoiceStateUpdate get247Enabled oldState newState = None) as Hp.
  { unfold VoiceFollower.processVoiceStateUpdate, VoiceFollower.handleOwnerLeave.
    rewrite Hold, Hnew, H247. reflexivity. }
  split; [exact Hp|]. cbn. rewrite Hp. split; [reflexivity|].
  by intros σ' [= <-].
Qed.

Lemma persistent_mode_suppresses_leave_witness :
  let oldState := {| VoiceFollower.guild_id := "G1"; VoiceFollower.channelId := Some "A";
                     VoiceFollower.channel := Some chA |} in
  let newState := {| VoiceFollower.guild_id := "G1"; VoiceFollower.channelId := None;
                     VoiceFollower.channel := None |} in
  exists σ,
    run defaultConfig always247 [Call (Join chA); Resume 0 Fulfilled 0] initialSystem = Some σ /\
    step defaultConfig always247 (OwnerUpdate oldState newState) σ = Some σ.
Proof.
  intros oldState newState. eexists. split; [vm_compute; reflexivity|].
  apply (persistent_mode_suppresses_leave defaultConfig always247 _ oldState newState);
    reflexivity.
Defined.

(** Without persistent mode the same transition calls [leave], which
    destroys the connection and resets the session. *)
Lemma leave_without_persistent_mode :
  let oldState := {| VoiceFollower.guild_id := "G1"; VoiceFollower.channelId := Some "A";
                     VoiceFollower.channel := Some chA |} in
  let newState := {| VoiceFollower.guild_id := "G1"; VoiceFollower.channelId := None;
                     VoiceFollower.channel := None |} in
  exists σ s,
    run defaultConfig never247
      [Call (Join chA); Resume 0 Fulfilled 0; OwnerUpdate oldState newState]
      initialSystem = Some σ /\
    calls σ = [Join chA; Leave "G1"] /\
    guildStates (manager σ) !! "G1" = Some s /\
    state s = Idle /\ connection s = None.
Proof.
  intros oldState newState. eexists. eexists.
  split; [vm_compute; reflexivity|]. split; [vm_compute; reflexivity|].
  split; [vm_compute; reflexivity|]. split; reflexivity.
Qed.

End SchedulerFacts.

(* ------------------------------------------------------------------ *)
(** ** [join] and [move] run to their end *)
(* ------------------------------------------------------------------ *)
Module JoinFacts.
Import VoiceManager Vocabulary.









(** *** [acquireLock] on a free lock *)

Lemma lock_eq g m :
  lock g m =
  (nextLock m,
   {| guildStates := <[g := set_operationLock (Some (nextLock m)) (sessionOf g m)]> (guildStates m);
      connections := connections m;
      nextLock := S (nextLock m);
      released := released m;
      lockLog := lockLog m ++ [g] |}).
Proof.
  unfold lock, getOrCreateState, sessionOf.
  destruct (guildStates m !! g) eqn:E; cbn; [done|].
  by rewrite insert_insert_eq.
Qed.

Lemma getOrCreateState_eq g m :
  (getOrCreateState g m).1 = sessionOf g m /\
  lock g (getOrCreateState g m).2 = lock g m.
Proof.
  unfold getOrCreateState, sessionOf.
  destruct (guildStates m !! g) eqn:E; cbn; [done|]. split; [done|].
  rewrite !lock_eq. unfold sessionOf. cbn. rewrite lookup_insert_eq. cbn.
  by rewrite insert_insert_eq, E.
Qed.

Lemma acquireLock_eq {A} g (op : Manager -> option (Result A * Manager)) m :
  acquireLock g op m =
  match operationLock (sessionOf g m) with
  | Some _ => None
  | None =>
    match op (lock g m).2 with
    | Some (r, m2) => Some (r, unlock g (nextLock m) m2)
    | None => None
    end
  end.
Proof.
  unfold acquireLock.
  destruct (getOrCreateState_eq g m) as [H1 H2].
  destruct (getOrCreateState g m) as [s m1]. cbn in H1, H2. subst s.
  destruct (operationLock (sessionOf g m)); [done|].
  rewrite H2, lock_eq. cbn. reflexivity.
Qed.

Lemma sessionOf_lock g m :
  sessionOf g (lock g m).2 = set_operationLock (Some (nextLock m)) (sessionOf g m).
Proof. rewrite lock_eq. unfold sessionOf at 1. cbn. by rewrite lookup_insert_eq. Qed.

Lemma lookup_unlock_commit g l s cs m :
  guildStates (unlock g l (commit g s cs m)) !! g = Some (set_operationLock None s).
Proof. unfold unlock, commit. cbn. by rewrite lookup_alter_eq, lookup_insert_eq. Qed.

Lemma sessionOf_unlock_commit g l s cs m :
  sessionOf g (unlock g l (commit g s cs m)) = set_operationLock None s.
Proof. unfold sessionOf. by rewrite lookup_unlock_commit. Qed.











End JoinFacts.

(* ------------------------------------------------------------------ *)
(** ** The calls in one piece and the calls under the scheduler *)
(* ------------------------------------------------------------------ *)
Module SoloFacts.
Import VoiceManager Scheduler Vocabulary SoloVocabulary JoinFacts.

Section Solo.
Variable cfg : Config.
Variable get247Enabled : GuildId -> bool.
Variable o : Oracle.

Lemma commit_commit g s1 cs1 s2 cs2 m :
  commit g s2 cs2 (commit g s1 cs1 m) = commit g s2 cs2 m.
Proof. unfold commit. cbn. by rewrite insert_insert_eq. Qed.

Lemma sessionOf_commit g s cs m : sessionOf g (commit g s cs m) = s.
Proof. unfold sessionOf, commit. cbn. by rewrite lookup_insert_eq. Qed.

Lemma enterRetryLoop_eq channel l m :
  enterRetryLoop channel l m =
  let '(c, s, cs) := joinUnlockedOnce_begin channel (sessionOf (channel_guild channel) m)
                       (connections m) in
  (AwaitReady channel c l, commit (channel_guild channel) s cs m).
Proof. reflexivity. Qed.

(** The retry loop, block by block under the scheduler, when no other
    block runs in between. *)
Lemma solo_loop channel l t ts cl fuel : forall i m r s' cs',
  let g := channel_guild channel in
  joinUnlockedWithRetries cfg o fuel i channel (sessionOf g m) (connections m)
    = Some (r, s', cs') ->
  t < length ts ->
  run cfg get247Enabled (soloResumes cfg o t fuel i (retries (sessionOf g m)))
    {| manager := (enterRetryLoop channel l m).2;
       tasks := <[t := (enterRetryLoop channel l m).1]> ts; calls := cl |}
  = Some {| manager := unlock g l (commit g s' cs' m);
            tasks := <[t := Settled (callResult r)]> ts; calls := cl |}.
Proof.
  induction fuel as [|fuel IH]; intros i m r s' cs' g Hloop Ht; [done|].
  cbn [joinUnlockedWithRetries] in Hloop. rewrite enterRetryLoop_eq. fold g.
  destruct (joinUnlockedOnce_begin channel (sessionOf g m) (connections m))
    as [[c s1] cs1] eqn:Eb.
  assert (retries s1 = retries (sessionOf g m)) as Hr.
  { unfold joinUnlockedOnce_begin in Eb. cbn in Eb. by injection Eb as _ <- _. }
  cbn [fst snd soloResumes].
  destruct (attempt o i) as [|err] eqn:Ea.
  - injection Hloop as <- <- <-. cbn [run step manager tasks calls].
    rewrite list_lookup_insert_eq by done. cbn [resume]. fold g.
    rewrite sessionOf_commit. cbn [connections commit set_connections].
    rewrite commit_commit, list_insert_insert_eq. reflexivity.
  - destruct (joinUnlockedWithRetries_catch cfg (random o i) err s1 cs1)
      as [[[b|e] s2] cs2] eqn:Ec.
    + assert ((Z.of_nat (retries (sessionOf g m)) <? maxRetries cfg)%Z = true
              /\ retries s2 = S (retries (sessionOf g m))) as [Hlt Hr2].
      { rewrite <- Hr. unfold joinUnlockedWithRetries_catch in Ec. cbn in Ec.
        destruct (_ <? _)%Z; [|done]. by injection Ec as _ <- _. }
      rewrite Hlt. cbn [run step manager tasks calls].
      rewrite list_lookup_insert_eq by done. cbn [resume]. fold g.
      rewrite sessionOf_commit. cbn [connections commit set_connections].
      change (connections (set_guildStates ?x ?y)) with (connections y).
      rewrite Ec, commit_commit, list_insert_insert_eq.
      cbn [run step manager tasks calls].
      rewrite list_lookup_insert_eq by done. cbn [resume].
      set (m2 := commit g s2 cs2 m).
      specialize (IH (S i) m2 r s' cs'). cbv zeta in IH. fold g in IH.
      assert (sessionOf g m2 = s2) as Hs2 by apply sessionOf_commit.
      rewrite Hs2 in IH. change (connections m2) with cs2 in IH. rewrite Hr2 in IH.
      specialize (IH Hloop Ht).
      destruct (enterRetryLoop channel l m2) as [task' m3]. cbn [fst snd] in IH.
      rewrite list_insert_insert_eq, IH. unfold m2. fold g. by rewrite commit_commit.
    + assert ((Z.of_nat (retries (sessionOf g m)) <? maxRetries cfg)%Z = false) as Hge.
      { rewrite <- Hr. unfold joinUnlockedWithRetries_catch in Ec. cbn in Ec.
        by destruct (_ <? _)%Z. }
      rewrite Hge. injection Hloop as <- <- <-. cbn [run step manager tasks calls].
      rewrite list_lookup_insert_eq by done. cbn [resume]. fold g.
      rewrite sessionOf_commit. cbn [connections commit set_connections].
      change (connections (set_guildStates ?x ?y)) with (connections y).
      rewrite Ec, commit_commit, list_insert_insert_eq. reflexivity.
Qed.

(** [join] as defined in one piece is what the scheduler computes when it
    runs the call without interruption. *)
Lemma join_is_solo_run channel m r m' ts cl :
  join cfg o channel m = Some (r, m') ->
  run cfg get247Enabled
    (Call (Join channel)
     :: soloResumes cfg o (length ts) (attemptsBound cfg) 0
          (retries (sessionOf (channel_guild channel) m)))
    {| manager := m; tasks := ts; calls := cl |}
  = Some {| manager := m'; tasks := ts ++ [Settled (callResult r)];
            calls := cl ++ [Join channel] |}.
Proof.
  intros Hjoin. set (g := channel_guild channel).
  unfold join in Hjoin. fold g in Hjoin. rewrite acquireLock_eq in Hjoin.
  destruct (operationLock (sessionOf g m)) eqn:Efree; [done|].
  destruct (joinUnlockedWithRetries _ _ _ _ _ _ _) as [[[r0 s'] cs']|] eqn:Eloop; [|done].
  injection Hjoin as <- <-.
  cbn [run step]. unfold spawn, call. cbn [manager tasks calls op_guild]. fold g.
  destruct (getOrCreateState_eq g m) as [H1 H2].
  destruct (getOrCreateState g m) as [s0 m0]. cbn [fst snd] in H1, H2. subst s0.
  rewrite Efree. unfold start. cbn [op_guild]. fold g. rewrite H2.
  destruct (lock g m) as [l mL] eqn:El.
  assert (l = nextLock m) as -> by (rewrite lock_eq in El; by injection El as <- _).
  cbn [snd] in Eloop.
  assert (retries (sessionOf g mL) = retries (sessionOf g m)) as Hr.
  { assert (mL = (lock g m).2) as -> by (by rewrite El). by rewrite sessionOf_lock. }
  pose proof (solo_loop channel (nextLock m) (length ts)
                (ts ++ [(enterRetryLoop channel (nextLock m) mL).1]) (cl ++ [Join channel])
                (attemptsBound cfg) 0 mL r0 s' cs' Eloop) as Hsolo.
  rewrite length_app in Hsolo. cbn [length] in Hsolo. specialize (Hsolo ltac:(lia)).
  fold g in Hsolo. rewrite Hr in Hsolo.
  rewrite insert_app_r_alt, Nat.sub_diag in Hsolo by lia. cbn [insert list_insert] in Hsolo.
  destruct (enterRetryLoop channel (nextLock m) mL) as [task m1]. cbn [fst snd] in Hsolo.
  rewrite Hsolo. rewrite insert_app_r_alt, Nat.sub_diag by lia. reflexivity.
Qed.

(** The same for [move]. *)
Lemma move_is_solo_run channel m r m' ts cl :
  move cfg o channel m = Some (r, m') ->
  run cfg get247Enabled
    (Call (Move channel)
     :: soloResumes cfg o (length ts) (attemptsBound cfg) 0
          (retries (sessionOf (channel_guild channel) m)))
    {| manager := m; tasks := ts; calls := cl |}
  = Some {| manager := m'; tasks := ts ++ [Settled (callResult r)];
            calls := cl ++ [Move channel] |}.
Proof.
  intros Hmove. set (g := channel_guild channel).
  unfold move in Hmove. fold g in Hmove. rewrite acquireLock_eq in Hmove.
  destruct (operationLock (sessionOf g m)) eqn:Efree; [done|].
  destruct (move_begin _ _) as [s cs] eqn:Emb.
  destruct (joinUnlockedWithRetries _ _ _ _ _ _ _) as [[[r0 s'] cs']|] eqn:Eloop; [|done].
  injection Hmove as <- <-.
  cbn [run step]. unfold spawn, call. cbn [manager tasks calls op_guild]. fold g.
  destruct (getOrCreateState_eq g m) as [H1 H2].
  destruct (getOrCreateState g m) as [s0 m0]. cbn [fst snd] in H1, H2. subst s0.
  rewrite Efree. unfold start. cbn [op_guild]. fold g. rewrite H2.
  destruct (lock g m) as [l mL] eqn:El.
  assert (l = nextLock m) as -> by (rewrite lock_eq in El; by injection El as <- _).
  cbn [snd] in Emb. rewrite Emb.
  assert (retries s = retries (sessionOf g m)) as Hr.
  { assert (mL = (lock g m).2) as HmL by (by rewrite El). rewrite HmL, sessionOf_lock in Emb.
    unfold move_begin in Emb. cbn in Emb.
    destruct (connection (sessionOf g m)); by injection Emb as <- _. }
  set (mB := commit g s cs mL).
  assert (sessionOf g mB = s) as HsB by apply sessionOf_commit.
  pose proof (solo_loop channel (nextLock m) (length ts)
                (ts ++ [(enterRetryLoop channel (nextLock m) mB).1]) (cl ++ [Move channel])
                (attemptsBound cfg) 0 mB r0 s' cs') as Hsolo.
  cbv zeta in Hsolo. fold g in Hsolo. rewrite HsB in Hsolo.
  change (connections mB) with cs in Hsolo. specialize (Hsolo Eloop).
  rewrite length_app in Hsolo. cbn [length] in Hsolo. specialize (Hsolo ltac:(lia)).
  rewrite Hr in Hsolo.
  rewrite insert_app_r_alt, Nat.sub_diag in Hsolo by lia. cbn [insert list_insert] in Hsolo.
  destruct (enterRetryLoop channel (nextLock m) mB) as [task m1]. cbn [fst snd] in Hsolo.
  rewrite Hsolo. rewrite insert_app_r_alt, Nat.sub_diag by lia.
  unfold mB. by rewrite commit_commit.
Qed.
End Solo.

End SoloFacts.

(* ------------------------------------------------------------------ *)
(** ** The retry counter between calls *)
(* ------------------------------------------------------------------ *)
Module CounterFacts.
Import VoiceManager Scheduler Vocabulary SoloVocabulary JoinFacts SoloFacts.

Section Counter.
Variable cfg : Config.
Variable get247Enabled : GuildId -> bool.

Lemma keepsRetries_refl m : keepsRetries m m.
Proof. intros g s' H _. eauto. Qed.

Lemma keepsRetries_trans m1 m2 m3 :
  keepsRetries m1 m2 -> keepsRetries m2 m3 -> keepsRetries m1 m3.
Proof.
  intros H12 H23 g s3 Hs3 Hne. destruct (H23 g s3 Hs3 Hne) as (s2 & Hs2 & Hr2).
  destruct (H12 g s2 Hs2) as (s1 & Hs1 & Hr1); [congruence|].
  exists s1. split; [done|congruence].
Qed.

Lemma keepsRetries_commit g s cs m :
  retries s = 0 \/ retries s = retries (sessionOf g m) ->
  keepsRetries m (commit g s cs m).
Proof.
  intros Hs g' s' Hl Hne. unfold commit in Hl. cbn in Hl. rewrite lookup_insert in Hl.
  case_decide; [|eauto]. subst g'. injection Hl as <-.
  destruct Hs as [Hs|Hs]; [done|]. unfold sessionOf in Hs.
  destruct (guildStates m !! g) as [s0|]; cbn in Hs; [eauto|done].
Qed.

Lemma keepsRetries_alter f g m :
  (forall s, retries (f s) = 0 \/ retries (f s) = retries s) ->
  keepsRetries m (set_guildStates (alter f g (guildStates m)) m).
Proof.
  intros Hf g' s' Hl Hne. cbn in Hl. rewrite lookup_alter in Hl.
  case_decide; [|eauto]. subst g'.
  destruct (guildStates m !! g) as [s0|]; cbn in Hl; [|done]. injection Hl as <-.
  destruct (Hf s0) as [H0|H0]; [done|eauto].
Qed.

Lemma keepsRetries_unlock g l m : keepsRetries m (unlock g l m).
Proof.
  intros g' s' Hl Hne. unfold unlock in Hl. cbn in Hl. rewrite lookup_alter in Hl.
  case_decide; [|eauto]. subst g'.
  destruct (guildStates m !! g) as [s0|]; cbn in Hl; [|done]. injection Hl as <-. eauto.
Qed.

Lemma keepsRetries_lock g m : keepsRetries m (lock g m).2.
Proof.
  rewrite lock_eq. intros g' s' Hl Hne. cbn in Hl. rewrite lookup_insert in Hl.
  case_decide; [|eauto]. subst g'. injection Hl as <-. cbn in Hne.
  unfold sessionOf in *. destruct (guildStates m !! g) as [s0|]; cbn in *; [eauto|done].
Qed.

Lemma keepsRetries_getOrCreateState g m : keepsRetries m (getOrCreateState g m).2.
Proof.
  unfold getOrCreateState. destruct (guildStates m !! g) eqn:E; [apply keepsRetries_refl|].
  intros g' s' Hl Hne. cbn in Hl. rewrite lookup_insert in Hl.
  case_decide; [|eauto]. injection Hl as <-. done.
Qed.

Lemma keepsRetries_enterRetryLoop channel l m :
  keepsRetries m (enterRetryLoop channel l m).2.
Proof. rewrite enterRetryLoop_eq. cbn. apply keepsRetries_commit. by right. Qed.

Lemma keepsRetries_start op m : keepsRetries m (start op m).2.
Proof.
  unfold start. pose proof (keepsRetries_lock (op_guild op) m) as Hl.
  destruct (lock (op_guild op) m) as [l mL]. cbn [snd] in Hl.
  eapply keepsRetries_trans; [exact Hl|].
  destruct op as [channel|channel|g]; cbn [op_guild].
  - apply keepsRetries_enterRetryLoop.
  - destruct (move_begin _ _) as [s cs] eqn:Emb.
    eapply keepsRetries_trans; [|apply keepsRetries_enterRetryLoop].
    apply keepsRetries_commit. right. unfold move_begin in Emb. cbn in Emb.
    destruct (connection (sessionOf (channel_guild channel) mL)); by injection Emb as <- _.
  - cbn [snd]. eapply keepsRetries_trans; [|apply keepsRetries_unlock].
    destruct (guildStates mL !! g) as [s0|] eqn:E; [|apply keepsRetries_refl].
    destruct (leave_body s0 (connections mL)) as [s cs] eqn:Elb.
    apply keepsRetries_commit. unfold leave_body in Elb.
    destruct (connection s0); injection Elb as <- _; cbn; [by left|].
    right. unfold sessionOf. by rewrite E.
Qed.

Lemma keepsRetries_call op m : keepsRetries m (call op m).2.
Proof.
  unfold call. pose proof (keepsRetries_getOrCreateState (op_guild op) m) as Hg.
  destruct (getOrCreateState (op_guild op) m) as [s m0]. cbn [snd] in Hg.
  destruct (operationLock s); [done|].
  eapply keepsRetries_trans; [exact Hg|apply keepsRetries_start].
Qed.

(** After a resumption, a counter other than 0 belongs to the guild of the
    resumed call if that call is in the retry loop, or was there before
    with the resumed call not in the loop for that guild. *)
Lemma resume_retries task o rnd m task' m' g s' :
  resume cfg task o rnd m = Some (task', m') ->
  guildStates m' !! g = Some s' -> retries s' <> 0 ->
  inLoop g task' \/
  (~ inLoop g task /\ exists s, guildStates m !! g = Some s /\ retries s <> 0).
Proof.
  intros Hres Hl Hne.
  assert (forall m0, keepsRetries m m0 -> guildStates m0 !! g = Some s' ->
            exists s, guildStates m !! g = Some s /\ retries s <> 0) as Hkeep.
  { intros m0 Hk Hl0. destruct (Hk g s' Hl0 Hne) as (s & ? & ?). exists s. split; [done|congruence]. }
  destruct task as [op l|channel c l|channel l b|c g0|r]; unfold resume in Hres.
  - case_bool_decide; [|done].
    assert (start op m = (task', m')) as Hs by congruence.
    right. split; [by intros []|]. apply (Hkeep m'); [|done].
    change m' with (task', m').2. rewrite <- Hs. apply keepsRetries_start.
  - destruct (decide (channel_guild channel = g)) as [Hg|Hg].
    + destruct o as [|err].
      * injection Hres as <- <-. subst g. rewrite lookup_unlock_commit in Hl.
        injection Hl as <-. done.
      * destruct (joinUnlockedWithRetries_catch _ _ _ _ _) as [[[b|e] s2] cs2] eqn:Ec;
          injection Hres as <- <-; [by left|].
        subst g. rewrite lookup_unlock_commit in Hl. injection Hl as <-.
        unfold joinUnlockedWithRetries_catch in Ec. cbn in Ec.
        destruct (_ <? _)%Z; [done|]. by injection Ec as _ <- _.
    + right. split; [done|].
      destruct o as [|err].
      * injection Hres as <- <-. unfold unlock, commit in Hl. cbn in Hl.
        rewrite lookup_alter_ne, lookup_insert_ne in Hl by done. eauto.
      * destruct (joinUnlockedWithRetries_catch _ _ _ _ _) as [[[b|e] s2] cs2] eqn:Ec;
          injection Hres as <- <-; unfold unlock, commit in Hl; cbn in Hl.
        -- rewrite lookup_insert_ne in Hl by done. eauto.
        -- rewrite lookup_alter_ne, lookup_insert_ne in Hl by done. eauto.
  - assert (enterRetryLoop channel l m = (task', m')) as He by congruence.
    destruct (decide (channel_guild channel = g)) as [Hg|Hg].
    + left. rewrite enterRetryLoop_eq in He. cbn in He. by injection He as <- _.
    + right. split; [done|]. apply (Hkeep m'); [|done].
      change m' with (task', m').2. rewrite <- He. apply keepsRetries_enterRetryLoop.
  - right. split; [by intros []|].
    destruct o; injection Hres as <- <-; [eauto|].
    apply (Hkeep (onDisconnected_lost c g0 m)); [|done]. unfold onDisconnected_lost.
    eapply keepsRetries_trans;
      [|apply (keepsRetries_alter resetState g0 (set_connections (destroy c (connections m)) m));
        intros; by left].
    intros ? ? ? ?. cbn in *. eauto.
  - done.
Qed.

Lemma countedRetries_spawn op σ : countedRetries σ -> countedRetries (spawn op σ).
Proof.
  intros Hσ g s' Hl Hne. unfold spawn in *.
  pose proof (keepsRetries_call op (manager σ)) as Hk.
  destruct (call op (manager σ)) as [task m]. cbn in *.
  destruct (Hk g s' Hl Hne) as (s & Hs & Hr).
  destruct (Hσ g s Hs ltac:(congruence)) as (t & task0 & Ht & Hin).
  exists t, task0. split; [|done]. rewrite lookup_app_l; [done|by eapply lookup_lt_Some].
Qed.

Lemma countedRetries_step e σ σ' :
  step cfg get247Enabled e σ = Some σ' -> countedRetries σ -> countedRetries σ'.
Proof.
  intros Hstep Hσ. destruct e as [op|t o rnd|c sig|oldState newState]; cbn in Hstep.
  - injection Hstep as <-. by apply countedRetries_spawn.
  - destruct (tasks σ !! t) as [task|] eqn:Et; [|done].
    destruct (resume cfg task o rnd (manager σ)) as [[task' m']|] eqn:Er; [|done].
    injection Hstep as <-. intros g s' Hl Hne. cbn in *.
    destruct (resume_retries _ _ _ _ _ _ g s' Er Hl Hne) as [Hin|(Hnot & s & Hs & Hr)].
    + exists t, task'. split; [|done].
      apply list_lookup_insert_eq. by eapply lookup_lt_Some.
    + destruct (Hσ g s Hs Hr) as (t0 & task0 & Ht0 & Hin0).
      exists t0, task0. split; [|done]. rewrite list_lookup_insert_ne; [done|].
      intros ->. congruence.
  - destruct (connections (manager σ) !! c) as [v|]; [|done].
    destruct sig; injection Hstep as <-; intros g s' Hl Hne; cbn in *.
    + destruct (Hσ g s' Hl Hne) as (t0 & task0 & Ht0 & Hin0).
      exists t0, task0. split; [|done]. rewrite lookup_app_l; [done|by eapply lookup_lt_Some].
    + destruct (keepsRetries_alter resetState (joinConfig_guildId v) (manager σ)
                  ltac:(intros; by left) g s' Hl Hne) as (s & Hs & Hr).
      apply (Hσ g s Hs). congruence.
  - destruct (VoiceFollower.processVoiceStateUpdate _ _ _) as [op|];
      injection Hstep as <-; [by apply countedRetries_spawn|done].
Qed.

(** At every state the scheduler can reach, a session of a guild for which
    no call is in the retry loop has the retry counter 0: a [join] or
    [move] that starts then has all of [maxRetries] retries before it. *)
Lemma retries_zero_outside_loop es σ g s :
  run cfg get247Enabled es initialSystem = Some σ ->
  guildStates (manager σ) !! g = Some s ->
  (forall t task, tasks σ !! t = Some task -> ~ inLoop g task) ->
  retries s = 0.
Proof.
  intros Hrun Hs Hnone.
  assert (countedRetries σ) as Hσ.
  { clear Hs Hnone. assert (countedRetries initialSystem) as H0 by (intros ? ? H; done).
    revert H0 Hrun. generalize initialSystem. induction es as [|e es IH]; intros σ0 H0; cbn.
    - by intros [= <-].
    - destruct (step cfg get247Enabled e σ0) as [σ1|] eqn:E; [|done].
      apply IH. by eapply countedRetries_step. }
  destruct (decide (retries s = 0)) as [|Hne]; [done|].
  destruct (Hσ g s Hs Hne) as (t & task & Ht & Hin). by destruct (Hnone t task Ht).
Qed.
End Counter.

End CounterFacts.

(* ------------------------------------------------------------------ *)
(** ** [join] and [move] settling between other blocks *)
(* ------------------------------------------------------------------ *)
Module SettleFacts.
Import VoiceManager Scheduler Vocabulary JoinFacts.

(** Whatever ran between the blocks of a [join] or [move], the step in
    which the call settles leaves the session as the call reports it:
    [Ready] on the connection returned, or [Idle] without connection after
    a failure that found the retry counter used up. *)
Lemma settles_between_blocks cfg channel c l o rnd m r m' :
  resume cfg (AwaitReady channel c l) o rnd m = Some (Settled r, m') ->
  let g := channel_guild channel in
  let s' := sessionOf g m' in
  operationLock s' = None /\
  match r with
  | Returns (Some c') => o = Fulfilled /\ c' = c /\ state s' = Ready /\ connection s' = Some c
  | Returns None => False
  | Throws e =>
    o = Rejected e /\ state s' = Idle /\ retries s' = 0 /\ connection s' = None /\
    ~ (Z.of_nat (retries (sessionOf g m)) < maxRetries cfg)%Z
  end.
Proof.
  intros H g s'. unfold resume in H. destruct o as [|err].
  - injection H as <- <-. unfold s', g. rewrite sessionOf_unlock_commit. cbn. auto.
  - unfold joinUnlockedWithRetries_catch in H. cbn in H.
    destruct (Z.of_nat (retries (sessionOf (channel_guild channel) m)) <? maxRetries cfg)%Z
      eqn:E; [done|].
    apply Z.ltb_ge in E. injection H as <- <-. unfold s', g.
    rewrite sessionOf_unlock_commit. cbn. repeat split; auto. lia.
Qed.

End SettleFacts.

(* ------------------------------------------------------------------ *)
(** ** The gates of [enqueue] *)
(* ------------------------------------------------------------------ *)
Module QueueFacts.
Import TtsQueue QueueVocabulary.

Section Facts.
Variable maxChars : Z.
Variable soundsDir : list ascii.
Variable isFile : list ascii -> bool.
Variable subscribe : ConnId -> bool.

Local Abbreviation enqueue := (enqueue maxChars soundsDir isFile subscribe).
Local Abbreviation enqueue_push := (enqueue_push maxChars soundsDir isFile subscribe).
Local Abbreviation processQueue_begin := (processQueue_begin subscribe).
Local Abbreviation ensureSubscribed := (ensureSubscribed subscribe).
Local Abbreviation sanitizeText := (sanitizeText maxChars).
Local Abbreviation enqueueAll := (enqueueAll maxChars soundsDir isFile subscribe).

(** *** Frame lemmas *)

Lemma ensureSubscribed_frame g c q :
  let q' := ensureSubscribed g c q in
  queues q' = queues q /\ players q' = players q /\ processing q' = processing q /\
  currentConnections q' = currentConnections q /\ lastRequestTime q' = lastRequestTime q.
Proof.
  unfold TtsQueue.ensureSubscribed. case_bool_decide; [done|].
  destruct (subscriptions q !! g); destruct (subscribe c); done.
Qed.

Lemma processQueue_begin_frame g q :
  let q' := (processQueue_begin g q).2 in
  players q' = players q /\ currentConnections q' = currentConnections q /\
  lastRequestTime q' = lastRequestTime q.
Proof.
  unfold TtsQueue.processQueue_begin.
  destruct (processing q !! g) as [[|]|]; [done| |];
  (destruct (queues q !! g) as [[|item rest]|]; [done| |done];
   destruct (players q !! g) as [[| | | |]|]; try done;
   unfold getConnectionOrNull; destruct (currentConnections q !! g); [|done];
   cbn; by destruct (ensureSubscribed_frame g n q) as (_ & ? & _ & ? & ?)).
Qed.

Lemma enqueue_push_frame g text c time q :
  let q' := enqueue_push g text c time q in
  currentConnections q' = currentConnections q /\ lastRequestTime q' = lastRequestTime q /\
  processing q' = processing q.
Proof.
  unfold TtsQueue.enqueue_push. cbv zeta.
  match goal with |- context [ensureSubscribed g c ?q0] =>
    destruct (ensureSubscribed_frame g c q0) as (_ & _ & -> & -> & ->) end.
  destruct (queues q !! g) eqn:Eq; cbn;
  (destruct (players _ !! g) eqn:Ep; cbn; [done|];
   match goal with |- context [ensureSubscribed g c ?q0] =>
     by destruct (ensureSubscribed_frame g c q0) as (_ & _ & -> & -> & ->) end).
Qed.

(** *** The rate limit gate *)

Lemma checkRateLimit_spec now g q :
  checkRateLimit now g q =
  if (now - lastOf g q <? minRequestInterval)%Z then (false, q)
  else (true, set_lastRequestTime (<[g := now]> (lastRequestTime q)) q).
Proof. reflexivity. Qed.

Lemma enqueue_limited g text c now time q :
  (now - lastOf g q < minRequestInterval)%Z ->
  enqueue g text c now time q = (Throws rateLimitError, q).
Proof.
  intros H. unfold TtsQueue.enqueue. rewrite checkRateLimit_spec.
  apply Z.ltb_lt in H. by rewrite H.
Qed.

Lemma enqueue_passed g text c now time q :
  (minRequestInterval <= now - lastOf g q)%Z ->
  let '(r, q') := enqueue g text c now time q in
  isRateLimited r = false /\
  lastRequestTime q' = <[g := now]> (lastRequestTime q) /\
  currentConnections q' = <[g := c]> (currentConnections q) /\
  (sanitizeText text = [] -> r = Throws emptyTextError /\
     queues q' = queues q /\ players q' = players q /\
     subscriptions q' = subscriptions q /\ processing q' = processing q).
Proof.
  intros H. unfold TtsQueue.enqueue. rewrite checkRateLimit_spec.
  apply Z.ltb_ge in H. rewrite H. cbn [negb].
  destruct (sanitizeText text) as [|a t] eqn:Es.
  - cbn. split; [|done]. by rewrite bool_decide_eq_false_2.
  - set (q1 := set_currentConnections _ _).
    destruct (enqueue_push_frame g (a :: t) c time q1) as (Hc & Hl & _).
    destruct (processQueue_begin_frame g (enqueue_push g (a :: t) c time q1)) as (_ & Hc' & Hl').
    destruct (processQueue_begin _ _) as [item q2]. cbn in Hc', Hl'.
    split; [done|]. split; [by rewrite Hl', Hl|]. split; [by rewrite Hc', Hc|]. intros ?; congruence.
Qed.

Lemma enqueue_lastOf g' g text c now time q :
  let '(r, q') := enqueue g text c now time q in
  lastOf g' q' = if bool_decide (g = g') && negb (isRateLimited r) then now else lastOf g' q.
Proof.
  destruct (Z.lt_ge_cases (now - lastOf g q) minRequestInterval) as [Hlt|Hge].
  - rewrite enqueue_limited by done. cbn [isRateLimited].
    rewrite (bool_decide_eq_true_2 (rateLimitError = rateLimitError)) by reflexivity.
    cbn [negb]. by rewrite andb_false_r.
  - pose proof (enqueue_passed g text c now time q Hge) as H.
    destruct (enqueue g text c now time q) as [r q']. destruct H as (Hr & Hl & _).
    rewrite Hr. cbn. rewrite andb_true_r. unfold lastOf. rewrite Hl.
    case_bool_decide as Hg.
    + subst. by rewrite lookup_insert_eq.
    + by rewrite lookup_insert_ne.
Qed.

Lemma enqueueAll_lastOf g reqs : forall q,
  lastOf g (enqueueAll reqs q).2 = lastGate g (lastOf g q) (enqueueAll reqs q).1.
Proof.
  induction reqs as [|c reqs IH]; intros q; [done|].
  cbn [QueueVocabulary.enqueueAll].
  pose proof (enqueue_lastOf g (req_guildId c) (req_text c) (req_connection c)
                (req_now c) (req_stamp c) q) as H.
  destruct (enqueue _ _ _ _ _ q) as [r q1].
  specialize (IH q1). destruct (enqueueAll reqs q1) as [log q2]. cbn in *.
  by rewrite IH, H.
Qed.
(** C7, as amended. After any sequence of calls, a call of [enqueue] for a
    guild is rejected by the rate limit if and only if its clock reading is
    less than [minRequestInterval] after the reading of the latest earlier
    call for that guild that passed the rate limit, whether that call then
    returned or was rejected for empty text (0 takes the place of that
    reading when the guild has no such call yet). A call rejected by the
    rate limit changes nothing, the queue of the guild included; a call
    that passes becomes the call later ones are measured against. *)
Theorem rate_limit_gate reqs q g text c now time :
  let log := (enqueueAll reqs q).1 in
  let q1 := (enqueueAll reqs q).2 in
  let last := lastGate g (lastOf g q) log in
  (isRateLimited (enqueue g text c now time q1).1 = true <-> (now - last < minRequestInterval)%Z) /\
  ((now - last < minRequestInterval)%Z ->
     enqueue g text c now time q1 = (Throws rateLimitError, q1)) /\
  ((minRequestInterval <= now - last)%Z ->
     lastOf g (enqueue g text c now time q1).2 = now).
Proof.
  intros log q1 last.
  assert (lastOf g q1 = last) as Hlast by apply enqueueAll_lastOf.
  split; [|split].
  - destruct (Z.lt_ge_cases (now - last) minRequestInterval) as [Hlt|Hge].
    + rewrite enqueue_limited by (by rewrite Hlast). cbn.
      rewrite bool_decide_eq_true_2 by reflexivity. done.
    + pose proof (enqueue_passed g text c now time q1) as H. rewrite Hlast in H.
      specialize (H Hge). destruct (enqueue g text c now time q1) as [r q2].
      destruct H as [Hr _]. cbn [fst]. rewrite Hr. split; [done|lia].
  - intros Hlt. apply enqueue_limited. by rewrite Hlast.
  - intros Hge. pose proof (enqueue_passed g text c now time q1) as H. rewrite Hlast in H.
    specialize (H Hge). destruct (enqueue g text c now time q1) as [r q2].
    destruct H as (_ & Hl & _). unfold lastOf. cbn. by rewrite Hl, lookup_insert_eq.
Qed.

(** *** White space only *)

Lemma matchers_at_whiteSpace c t :
  isWhiteSpace c = true ->
  matchEveryoneHere (c :: t) = None /\ matchRole (c :: t) = None /\
  matchUser (c :: t) = None /\ matchChannel (c :: t) = None.
Proof.
  intros H.
  assert (c <> "@"%char) as H1 by (intros ->; vm_compute in H; discriminate).
  assert (c <> "<"%char) as H2 by (intros ->; vm_compute in H; discriminate).
  unfold matchEveryoneHere, matchRole, matchUser, matchChannel. cbn.
  repeat case_decide; try congruence; auto.
Qed.

Lemma removeAll_whiteSpace matchAt s :
  (forall c t, isWhiteSpace c = true -> matchAt (c :: t) = None) ->
  forallb isWhiteSpace s = true -> removeAll matchAt 0 s = s.
Proof.
  intros Hm. induction s as [|c s IH]; intros H; [done|].
  cbn in H. apply andb_true_iff in H as [Hc Hs]. cbn. rewrite (Hm c s Hc), IH; done.
Qed.

Lemma dropWhile_all p s : forallb p s = true -> dropWhile p s = [].
Proof.
  induction s as [|c s IH]; [done|]. cbn. intros H. apply andb_true_iff in H as [-> Hs]. auto.
Qed.

Lemma sanitizeText_whiteSpace text :
  forallb isWhiteSpace text = true -> sanitizeText text = [].
Proof.
  intros H. unfold TtsQueue.sanitizeText.
  assert (forall m, In m [matchEveryoneHere; matchRole; matchUser; matchChannel] ->
            removeAll m 0 text = text) as Hrm.
  { intros m Hm. apply removeAll_whiteSpace; [|done]. intros c t Hc.
    destruct (matchers_at_whiteSpace c t Hc) as (? & ? & ? & ?).
    cbn in Hm. intuition congruence. }
  rewrite (Hrm matchEveryoneHere), (Hrm matchRole), (Hrm matchUser), (Hrm matchChannel)
    by (cbn; auto).
  unfold trim. rewrite dropWhile_all by done. cbn. destruct (_ <? _)%Z; [apply take_nil|done].
Qed.

(** C8. A call of [enqueue] with the empty text, with three spaces, or with
    any text of white space only, that is not rejected by the rate limit
    throws the empty text error, and adds nothing to any queue; players,
    subscriptions and processing flags are as before. *)
Theorem enqueue_whiteSpace_rejected g text c now time q :
  forallb isWhiteSpace text = true ->
  (minRequestInterval <= now - lastOf g q)%Z ->
  forallb isWhiteSpace (str "") = true /\ forallb isWhiteSpace (str "   ") = true /\
  exists q',
    enqueue g text c now time q = (Throws emptyTextError, q') /\
    queues q' = queues q /\ players q' = players q /\
    subscriptions q' = subscriptions q /\ processing q' = processing q.
Proof.
  intros Hws Hge. split; [reflexivity|]. split; [reflexivity|].
  pose proof (enqueue_passed g text c now time q Hge) as H.
  destruct (enqueue g text c now time q) as [r q']. destruct H as (_ & _ & _ & H).
  destruct (H (sanitizeText_whiteSpace text Hws)) as (-> & ?). by exists q'.
Qed.

(** C10. A call of [enqueue] that passes the rate limit and is rejected
    because its text is empty after sanitization has, when it throws,
    stored its clock reading as the last request time of the guild and its
    connection as the current connection of the guild, and has not touched
    the queues. A call for the guild less than [minRequestInterval] later is
    rejected by the rate limit; [getConnectionOrNull] returns the connection
    of the rejected call, and a [processQueue] that takes an item subscribes
    the player to that connection. *)
Theorem empty_rejection_effects g text c now time q :
  sanitizeText text = [] ->
  (minRequestInterval <= now - lastOf g q)%Z ->
  exists q',
    enqueue g text c now time q = (Throws emptyTextError, q') /\
    lastRequestTime q' !! g = Some now /\
    currentConnections q' !! g = Some c /\
    queues q' = queues q /\
    (forall text2 c2 now2 time2, (now2 - now < minRequestInterval)%Z ->
       enqueue g text2 c2 now2 time2 q' = (Throws rateLimitError, q')) /\
    getConnectionOrNull g q' = Some c /\
    (forall item q'', processQueue_begin g q' = (Some item, q'') ->
       exists rest,
         queues q' !! g = Some (item :: rest) /\
         q'' = let q1 := ensureSubscribed g c q' in
               let q2 := set_processing (<[g := true]> (processing q1)) q1 in
               set_queues (<[g := rest]> (queues q2)) q2).
Proof.
  intros Hs Hge.
  pose proof (enqueue_passed g text c now time q Hge) as H.
  destruct (enqueue g text c now time q) as [r q']. destruct H as (_ & Hl & Hc & H).
  destruct (H Hs) as (-> & Hq & _). exists q'.
  assert (currentConnections q' !! g = Some c) as Hcur by (by rewrite Hc, lookup_insert_eq).
  split; [done|]. split; [by rewrite Hl, lookup_insert_eq|]. split; [done|]. split; [done|].
  split; [|split; [done|]].
  - intros text2 c2 now2 time2 Hlt. apply enqueue_limited.
    unfold lastOf. by rewrite Hl, lookup_insert_eq.
  - intros item q''. unfold TtsQueue.processQueue_begin, getConnectionOrNull. rewrite Hcur.
    destruct (processing q' !! g) as [[|]|]; [done| |];
    (destruct (queues q' !! g) as [[|item' rest]|]; [done| |done];
     destruct (players q' !! g) as [[| | | |]|]; try done;
     intros [= <- <-]; by exists rest).
Qed.
End Facts.

Lemma enqueue_whiteSpace_rejected_witness :
  forallb isWhiteSpace (str "   ") = true /\
  (minRequestInterval <= 1000 - lastOf "G1" empty)%Z /\
  exists q',
    enqueue 200 (str "sounds") noFiles granted "G1" (str "   ") 7 1000 1000 empty
      = (Throws emptyTextError, q') /\
    queues q' = queues empty.
Proof.
  assert (H1 : forallb isWhiteSpace (str "   ") = true) by reflexivity.
  assert (H2 : (minRequestInterval <= 1000 - lastOf "G1" empty)%Z) by (vm_compute; discriminate).
  split; [exact H1|]. split; [exact H2|].
  destruct (enqueue_whiteSpace_rejected 200 (str "sounds") noFiles granted
              "G1" (str "   ") 7 1000 1000 empty H1 H2) as (_ & _ & q' & He & Hq & _).
  exists q'. split; [exact He|exact Hq].
Defined.

Lemma empty_rejection_effects_witness :
  sanitizeText 200 (str "@everyone <@42>") = [] /\
  (minRequestInterval <= 1000 - lastOf "G1" empty)%Z /\
  exists q',
    enqueue 200 (str "sounds") noFiles granted "G1" (str "@everyone <@42>") 7 1000 1000 empty
      = (Throws emptyTextError, q') /\
    lastRequestTime q' !! "G1" = Some 1000%Z /\ currentConnections q' !! "G1" = Some 7.
Proof.
  assert (H1 : sanitizeText 200 (str "@everyone <@42>") = []) by reflexivity.
  assert (H2 : (minRequestInterval <= 1000 - lastOf "G1" empty)%Z) by (vm_compute; discriminate).
  split; [exact H1|]. split; [exact H2|].
  destruct (empty_rejection_effects 200 (str "sounds") noFiles granted
              "G1" (str "@everyone <@42>") 7 1000 1000 empty H1 H2)
    as (q' & He & Hl & Hc & _).
  exists q'. split; [exact He|]. split; [exact Hl|exact Hc].
Defined.

(** C7 as stated fails: the first call is rejected for empty text, so no
    call has been accepted, and the second call, 100 ms later, is rejected
    by the rate limit all the same. *)
Lemma rate_limited_after_rejected_call :
  let first := {| req_guildId := "G1"; req_text := str ""; req_connection := 7;
                  req_now := 1000; req_stamp := 1000 |} in
  let run := enqueueAll 200 (str "sounds") noFiles granted [first] empty in
  run.1 = [(first, Throws emptyTextError)] /\
  lastAccepted "G1" None run.1 = None /\
  enqueue 200 (str "sounds") noFiles granted "G1" (str "hello") 7 1100 1100 run.2
    = (Throws rateLimitError, run.2) /\
  ~ (isRateLimited (enqueue 200 (str "sounds") noFiles granted "G1" (str "hello") 7 1100 1100 run.2).1
       = true <->
     exists t, lastAccepted "G1" None run.1 = Some t /\ (1100 - t < minRequestInterval)%Z).
Proof.
  intros first run. split; [reflexivity|]. split; [reflexivity|].
  assert (enqueue 200 (str "sounds") noFiles granted "G1" (str "hello") 7 1100 1100 run.2
          = (Throws rateLimitError, run.2)) as He by (vm_compute; reflexivity).
  split; [exact He|]. rewrite He. intros [H _].
  destruct H as (t & Ht & _); [reflexivity|]. discriminate Ht.
Qed.

End QueueFacts.

(* ------------------------------------------------------------------ *)
(** ** Segmentation *)
(* ------------------------------------------------------------------ *)
Module SegmentFacts.
Import TtsQueue QueueVocabulary SegmentVocabulary.

Section Facts.
Variable maxChars : Z.
Variable soundsDir : list ascii.
Variable isFile : list ascii -> bool.
Variable subscribe : ConnId -> bool.

Local Abbreviation soundOf := (soundOf soundsDir isFile).
Local Abbreviation runs := (runs soundsDir isFile).
Local Abbreviation wellFormedRun := (wellFormedRun soundsDir isFile).
Local Abbreviation splitStep := (splitStep soundsDir isFile).
Local Abbreviation splitIntoSegments := (splitIntoSegments soundsDir isFile).
Local Abbreviation pushSegments := (pushSegments maxChars).
Local Abbreviation itemsOf := (itemsOf maxChars).
Local Abbreviation stableRun := (stableRun maxChars).

Lemma splitStep_soundOf out buffer raw :
  splitStep (out, buffer) raw =
  match soundOf raw with
  | Some (key, filePath) => ((flush (out, buffer)).1 ++ [seg_sound key filePath], (flush (out, buffer)).2)
  | None => (out, buffer ++ [raw])
  end.
Proof.
  unfold TtsQueue.splitStep, SegmentVocabulary.soundOf.
  destruct (normalize raw) as [|a t]; [done|].
  destruct (resolveSoundFile _ _ _); [|done].
  by destruct (flush (out, buffer)).
Qed.

(** A block of tokens without sound in front of the rest joins the speech
    run the rest starts with, or makes a run of its own. *)
Lemma runs_speech_prefix buffer rest :
  buffer <> [] -> Forall (fun raw => soundOf raw = None) buffer ->
  runs (buffer ++ rest) =
  match runs rest with
  | SpeechRun tokens :: rs => SpeechRun (buffer ++ tokens) :: rs
  | rs => SpeechRun buffer :: rs
  end.
Proof.
  induction buffer as [|raw buffer IH]; [done|]. intros _ Hall.
  apply Forall_cons in Hall as [Hraw Hall]. cbn. rewrite Hraw.
  destruct buffer as [|raw' buffer].
  - cbn. by destruct (runs rest) as [|[]].
  - rewrite IH by done. by destruct (runs rest) as [|[]].
Qed.

Lemma split_loop parts : forall out buffer,
  Forall (fun raw => soundOf raw = None) buffer ->
  (flush (fold_left splitStep parts (out, buffer))).1 = out ++ map segmentOf (runs (buffer ++ parts)).
Proof.
  induction parts as [|raw parts IH]; intros out buffer Hall.
  - cbn [fold_left]. rewrite app_nil_r. destruct buffer as [|b buffer].
    + cbn. by rewrite app_nil_r.
    + pose proof (runs_speech_prefix (b :: buffer) [] ltac:(done) Hall) as H.
      rewrite app_nil_r in H. rewrite H. reflexivity.
  - cbn [fold_left]. rewrite splitStep_soundOf.
    destruct (soundOf raw) as [[key filePath]|] eqn:Es.
    + destruct buffer as [|b buffer].
      * cbn [flush fst snd]. rewrite IH by done. cbn. rewrite Es. cbn.
        by rewrite <- app_assoc.
      * cbn [flush fst snd]. rewrite IH by done.
        rewrite (runs_speech_prefix (b :: buffer) (raw :: parts)) by done.
        cbn [app SegmentVocabulary.runs]. rewrite Es. cbn. by rewrite <- !app_assoc.
    + rewrite IH.
      * by rewrite <- app_assoc.
      * apply Forall_app. split; [done|]. by constructor.
Qed.

(** The loop of [splitIntoSegments] computes the runs. *)
Lemma splitIntoSegments_runs text :
  splitIntoSegments text = map segmentOf (runs (splitWhiteSpace text)).
Proof. unfold TtsQueue.splitIntoSegments. by rewrite split_loop. Qed.

Lemma runs_tokens parts : concat (map runTokens (runs parts)) = parts.
Proof.
  induction parts as [|raw parts IH]; [done|]. cbn.
  destruct (soundOf raw) as [[key filePath]|]; cbn; [by rewrite IH|].
  destruct (runs parts) as [|[tokens|raw' key filePath] rs]; cbn in *; by rewrite <- IH.
Qed.

Lemma runs_wellFormed parts : Forall wellFormedRun (runs parts).
Proof.
  induction parts as [|raw parts IH]; [constructor|]. cbn.
  destruct (soundOf raw) as [[key filePath]|] eqn:Es; [by constructor|].
  destruct (runs parts) as [|[tokens|raw' key filePath] rs].
  - constructor; [|done]. split; [done|]. by constructor.
  - apply Forall_cons in IH as [[Hne Hall] IH]. constructor; [|done].
    split; [done|]. by constructor.
  - constructor; [|done]. split; [done|]. by constructor.
Qed.

Lemma runs_maximal parts : maximalRuns (runs parts).
Proof.
  induction parts as [|raw parts IH]; [done|]. cbn.
  destruct (soundOf raw) as [[key filePath]|] eqn:Es.
  - destruct (runs parts); [done|]. split; done.
  - destruct (runs parts) as [|[tokens|raw' key filePath] rs]; [done| |].
    + destruct rs as [|r rs]; [done|]. cbn in IH. exact IH.
    + split; done.
Qed.

Lemma runs_only_speech parts :
  parts <> [] -> Forall (fun raw => soundOf raw = None) parts ->
  runs parts = [SpeechRun parts].
Proof.
  intros Hne Hall. pose proof (runs_speech_prefix parts [] Hne Hall) as H.
  by rewrite app_nil_r in H.
Qed.

(** The loop of [enqueue] over the segments of the runs. *)
Lemma pushSegments_runs g time rs : forall i queue,
  pushSegments g time i (map segmentOf rs) queue
  = queue ++ concat (imap (fun k => itemsOf g time (i + k)) rs).
Proof.
  induction rs as [|r rs IH]; intros i queue.
  - cbn. by rewrite app_nil_r.
  - cbn [map TtsQueue.pushSegments imap concat]. rewrite Nat.add_0_r.
    assert (imap ((fun k => itemsOf g time (i + k)) ∘ S) rs
            = imap (fun k => itemsOf g time (S i + k)) rs) as ->.
    { apply imap_ext. intros k x _. cbn. by rewrite Nat.add_succ_r. }
    destruct r as [tokens|raw key filePath]; cbn [segmentOf SegmentVocabulary.itemsOf].
    + destruct (sanitizeText maxChars (joinSpace tokens)) as [|a t]; rewrite IH; [done|].
      by rewrite <- app_assoc.
    + rewrite IH. by rewrite <- app_assoc.
Qed.

Lemma itemsOf_stable g time i r :
  wellFormedRun r -> Forall (fun raw => raw <> []) (runTokens r) -> stableRun r ->
  itemsOf g time i r = [itemOf g time i r].
Proof.
  destruct r as [tokens|raw key filePath]; [|done]. cbn. intros [Hne _] Htok ->.
  destruct tokens as [|t tokens]; [done|].
  apply Forall_cons in Htok as [Ht _].
  destruct t as [|a t]; [done|]. by destruct tokens.
Qed.

Lemma splitWhiteSpaceFrom_tokens s : forall cur,
  Forall (fun c => isWhiteSpace c = false) cur ->
  Forall (fun raw => raw <> [] /\ Forall (fun c => isWhiteSpace c = false) raw)
         (splitWhiteSpaceFrom cur s).
Proof.
  induction s as [|c s IH]; intros cur Hcur; cbn.
  - destruct cur; [constructor|]. constructor; [|constructor]. done.
  - destruct (isWhiteSpace c) eqn:Ec.
    + destruct cur as [|a cur]; [by apply IH|].
      constructor; [done|]. by apply IH.
    + apply IH. apply Forall_app. split; [done|]. by constructor.
Qed.

(** The tokens are not empty and hold no white space. *)
Lemma splitWhiteSpace_tokens text :
  Forall (fun raw => raw <> [] /\ Forall (fun c => isWhiteSpace c = false) raw)
         (splitWhiteSpace text).
Proof. by apply splitWhiteSpaceFrom_tokens. Qed.

(** *** Texts the second sanitization leaves alone *)


Lemma matchers_at_plain c t :
  plain c ->
  matchEveryoneHere (c :: t) = None /\ matchRole (c :: t) = None /\
  matchUser (c :: t) = None /\ matchChannel (c :: t) = None.
Proof.
  intros [H1 H2].
  unfold matchEveryoneHere, matchRole, matchUser, matchChannel. cbn.
  repeat case_decide; try congruence; auto.
Qed.

Lemma removeAll_plain matchAt s :
  (forall c t, plain c -> matchAt (c :: t) = None) ->
  Forall plain s -> removeAll matchAt 0 s = s.
Proof.
  intros Hm. induction s as [|c s IH]; intros H; [done|].
  apply Forall_cons in H as [Hc Hs]. cbn. rewrite (Hm c s Hc), IH; done.
Qed.

Lemma dropWhile_head p a s : p a = false -> dropWhile p (a :: s) = a :: s.
Proof. intros H. cbn. by rewrite H. Qed.

Lemma dropWhileEnd_last p s z : last s = Some z -> p z = false -> dropWhileEnd p s = s.
Proof.
  intros [s' ->]%last_Some H. unfold dropWhileEnd. rewrite rev_app_distr. cbn.
  rewrite H. cbn. by rewrite rev_involutive.
Qed.

(** A text with plain characters only, without white space at its ends and
    not longer than [maxChars], is its own sanitization. *)
Lemma sanitizeText_plain a s z :
  Forall plain (a :: s) ->
  isWhiteSpace a = false -> last (a :: s) = Some z -> isWhiteSpace z = false ->
  (Z.of_nat (length (a :: s)) <= maxChars)%Z ->
  sanitizeText maxChars (a :: s) = a :: s.
Proof.
  intros Hp Ha Hl Hz Hlen. unfold sanitizeText.
  assert (forall m, In m [matchEveryoneHere; matchRole; matchUser; matchChannel] ->
            removeAll m 0 (a :: s) = a :: s) as Hrm.
  { intros m Hm. apply removeAll_plain; [|done]. intros c t Hc.
    destruct (matchers_at_plain c t Hc) as (? & ? & ? & ?).
    cbn in Hm. intuition congruence. }
  rewrite (Hrm matchEveryoneHere), (Hrm matchRole), (Hrm matchUser), (Hrm matchChannel)
    by (cbn; auto).
  assert (trim (a :: s) = a :: s) as ->.
  { unfold trim. rewrite dropWhile_head by done. by eapply dropWhileEnd_last. }
  apply Z.ltb_ge in Hlen. by rewrite Hlen.
Qed.


Lemma joinedLength_app ps qs : joinedLength (ps ++ qs) = joinedLength ps + joinedLength qs.
Proof. induction ps as [|p ps IH]; cbn; [done|]. rewrite IH. lia. Qed.

Lemma joinedLength_concat (pss : list (list (list ascii))) ps :
  ps ∈ pss -> joinedLength ps <= joinedLength (concat pss).
Proof.
  induction pss as [|qs pss IH]; [by intros ?%elem_of_nil|].
  intros [->|H]%elem_of_cons; cbn; rewrite joinedLength_app; [lia|]. specialize (IH H). lia.
Qed.

Lemma length_joinSpace parts : parts <> [] -> S (length (joinSpace parts)) = joinedLength parts.
Proof.
  induction parts as [|p [|p' parts] IH]; [done|by cbn|]. intros _.
  change (joinSpace (p :: p' :: parts)) with (p ++ str " " ++ joinSpace (p' :: parts)).
  rewrite !length_app. cbn [joinedLength length str list_ascii_of_string].
  specialize (IH ltac:(done)). cbn [joinedLength] in IH. lia.
Qed.

Lemma joinedLength_splitWhiteSpaceFrom s : forall cur,
  joinedLength (splitWhiteSpaceFrom cur s) <= S (length cur + length s).
Proof.
  induction s as [|c s IH]; intros cur; cbn.
  - destruct cur; cbn; lia.
  - destruct (isWhiteSpace c).
    + destruct cur as [|a cur]; [specialize (IH []); cbn in *; lia|].
      cbn. specialize (IH []). cbn in *. lia.
    + specialize (IH (cur ++ [c])). rewrite length_app in IH. cbn in IH. lia.
Qed.

Lemma splitWhiteSpaceFrom_Forall (P : ascii -> Prop) s : forall cur,
  Forall P cur -> Forall P s -> Forall (Forall P) (splitWhiteSpaceFrom cur s).
Proof.
  induction s as [|c s IH]; intros cur Hcur Hs; cbn.
  - destruct cur; [constructor|]. by constructor.
  - apply Forall_cons in Hs as [Hc Hs]. destruct (isWhiteSpace c).
    + destruct cur as [|a cur]; [by apply IH|]. constructor; [done|]. by apply IH.
    + apply IH; [|done]. apply Forall_app. split; [done|]. by constructor.
Qed.

Lemma joinSpace_Forall (P : ascii -> Prop) parts :
  P " "%char -> Forall (Forall P) parts -> Forall P (joinSpace parts).
Proof.
  intros Hsp. induction parts as [|p [|p' parts] IH]; intros H; [constructor|..].
  - by apply Forall_cons in H as [H _].
  - apply Forall_cons in H as [Hp H].
    change (joinSpace (p :: p' :: parts)) with (p ++ str " " ++ joinSpace (p' :: parts)).
    apply Forall_app. split; [done|]. apply Forall_app. split; [|by apply IH].
    by constructor.
Qed.

(** The tokens joined start with the first character of the first token
    and end with the last character of the last one. *)
Lemma joinSpace_ends parts :
  parts <> [] ->
  Forall (fun raw => raw <> [] /\ Forall (fun c => isWhiteSpace c = false) raw) parts ->
  exists a s z, joinSpace parts = a :: s /\ last (a :: s) = Some z /\
                isWhiteSpace a = false /\ isWhiteSpace z = false.
Proof.
  induction parts as [|p [|p' parts] IH]; [done|..]; intros _ H.
  - apply Forall_cons in H as [[Hne Hp] _]. cbn.
    destruct p as [|a p]; [done|].
    destruct (last (a :: p)) as [z|] eqn:El; [|by apply last_None in El].
    exists a, p, z. split; [done|]. split; [done|].
    pose proof Hp as Hp'. apply Forall_cons in Hp' as [Ha _]. split; [done|].
    apply last_Some in El as [p0 El]. rewrite El in Hp.
    apply Forall_app in Hp as [_ Hz]. by apply Forall_cons in Hz as [Hz _].
  - apply Forall_cons in H as [[Hne Hp] H].
    destruct (IH ltac:(done) H) as (a' & s' & z' & Hj & Hl & _ & Hz).
    change (joinSpace (p :: p' :: parts)) with (p ++ str " " ++ joinSpace (p' :: parts)).
    destruct p as [|a p]; [done|]. apply Forall_cons in Hp as [Ha Hp].
    exists a, (p ++ str " " ++ joinSpace (p' :: parts)), z'.
    split; [done|]. split; [|done].
    rewrite Hj. apply last_Some in Hl as [s0 Hl]. rewrite Hl.
    apply last_Some. exists (a :: p ++ str " " ++ s0). cbn. f_equal.
    by rewrite <- !app_assoc.
Qed.

(** In a text of plain characters that fits into [maxChars], sanitizing the
    text of a speech run again changes nothing. *)
Lemma runs_stable text :
  Forall plain text -> (Z.of_nat (length text) <= maxChars)%Z ->
  Forall stableRun (runs (splitWhiteSpace text)).
Proof.
  intros Hp Hlen. apply Forall_forall. intros [tokens|raw key filePath] Hr; [|done].
  pose proof (runs_wellFormed (splitWhiteSpace text)) as Hwf.
  rewrite Forall_forall in Hwf. destruct (Hwf _ Hr) as [Hne _].
  assert (forall raw, raw ∈ tokens -> raw ∈ splitWhiteSpace text) as Hsub.
  { intros raw Hraw. rewrite <- (runs_tokens (splitWhiteSpace text)).
    apply list_elem_of_In, in_concat. exists tokens.
    split; [|by apply list_elem_of_In].
    apply (in_map runTokens _ (SpeechRun tokens)). by apply list_elem_of_In. }
  assert (Forall (fun raw => raw <> [] /\ Forall (fun c => isWhiteSpace c = false) raw) tokens)
    as Htok.
  { apply Forall_forall. intros raw Hraw.
    pose proof (splitWhiteSpace_tokens text) as H. rewrite Forall_forall in H. auto. }
  assert (Forall (Forall plain) tokens) as Hplain.
  { apply Forall_forall. intros raw Hraw.
    pose proof (splitWhiteSpaceFrom_Forall plain text [] ltac:(constructor) Hp) as H.
    rewrite Forall_forall in H. auto. }
  assert (length (joinSpace tokens) <= length text) as Hshort.
  { pose proof (length_joinSpace tokens Hne) as H1.
    pose proof (joinedLength_concat (map runTokens (runs (splitWhiteSpace text))) tokens) as H2.
    rewrite runs_tokens in H2.
    pose proof (joinedLength_splitWhiteSpaceFrom text []) as H3. cbn in H3.
    unfold splitWhiteSpace in H2 at 2.
    assert (tokens ∈ map runTokens (runs (splitWhiteSpace text))) as Hin.
    { apply list_elem_of_In. apply (in_map runTokens _ (SpeechRun tokens)).
      by apply list_elem_of_In. }
    specialize (H2 Hin). lia. }
  assert (Forall plain (joinSpace tokens)) as Hpj.
  { apply (joinSpace_Forall plain tokens); [split; discriminate|exact Hplain]. }
  cbn. destruct (joinSpace_ends tokens Hne Htok) as (a & s & z & Hj & Hl & Ha & Hz).
  rewrite Hj in *. eapply sanitizeText_plain; eauto. lia.
Qed.

Lemma enqueue_push_queue g text c time q :
  queues (enqueue_push maxChars soundsDir isFile subscribe g text c time q) !! g
  = Some (pushSegments g time 0 (splitIntoSegments text) (default [] (queues q !! g))).
Proof.
  unfold TtsQueue.enqueue_push. cbv zeta.
  set (q0 := match queues q !! g with Some _ => q | None => _ end).
  assert (default [] (queues q0 !! g) = default [] (queues q !! g)) as Hd.
  { unfold q0. destruct (queues q !! g) eqn:E; [by rewrite E|]. cbn. by rewrite lookup_insert_eq. }
  rewrite Hd.
  set (q1 := set_queues _ q0).
  assert (queues q1 !! g = Some (pushSegments g time 0 (splitIntoSegments text)
                                   (default [] (queues q !! g)))) as H1.
  { unfold q1. cbn. by rewrite lookup_insert_eq. }
  set (q2 := match players q1 !! g with Some _ => q1 | None => _ end).
  assert (queues q2 = queues q1) as H2.
  { unfold q2. destruct (players q1 !! g); [done|].
    match goal with |- context [TtsQueue.ensureSubscribed subscribe g c ?q0] =>
      destruct (QueueFacts.ensureSubscribed_frame subscribe g c q0) as (-> & _) end. done. }
  destruct (QueueFacts.ensureSubscribed_frame subscribe g c q2) as (-> & _).
  by rewrite H2.
Qed.

(** C6, as amended. The array [splitIntoSegments] returns has one segment
    per run of the white space delimited tokens of its input, a run being
    a maximal sequence of tokens that resolve to no sound file or a single
    token that resolves to one; the runs hold all tokens in input order. The
    loop of [enqueue] appends to the queue of the guild, in that order, one
    sound item for every sound token, with the normalized token as key, and
    for every speech run the text of its tokens joined by single spaces and
    sanitized once more: an item with that text if it is not empty, and no
    item if it is. So every run yields exactly one item, with the joined
    tokens as text, whenever sanitizing the joined tokens again leaves
    them as they are, which is so for every run of a text that holds
    neither [@] nor [<] and is not longer than [maxChars]; and tokens of
    which none resolves to a sound make one run. *)
Theorem segmentation g text c time q :
  let parts := splitWhiteSpace text in
  let rs := runs parts in
  let q' := enqueue_push maxChars soundsDir isFile subscribe g text c time q in
  splitIntoSegments text = map segmentOf rs /\
  queues q' !! g = Some (default [] (queues q !! g) ++ concat (imap (itemsOf g time) rs)) /\
  concat (map runTokens rs) = parts /\
  Forall wellFormedRun rs /\ maximalRuns rs /\
  (Forall stableRun rs -> concat (imap (itemsOf g time) rs) = imap (itemOf g time) rs) /\
  (Forall plain text -> (Z.of_nat (length text) <= maxChars)%Z -> Forall stableRun rs) /\
  (parts <> [] -> Forall (fun raw => soundOf raw = None) parts -> rs = [SpeechRun parts]).
Proof.
  intros parts rs q'.
  split; [apply splitIntoSegments_runs|].
  split. { unfold q'. rewrite enqueue_push_queue, splitIntoSegments_runs, pushSegments_runs. done. }
  split; [apply runs_tokens|]. split; [apply runs_wellFormed|]. split; [apply runs_maximal|].
  split; [|split; [apply runs_stable|apply runs_only_speech]].
  intros Hst.
  assert (Forall (fun r => Forall (fun raw => raw <> []) (runTokens r)) rs) as Hne.
  { apply Forall_forall. intros r Hr. apply Forall_forall. intros raw Hraw.
    pose proof (splitWhiteSpace_tokens text) as Htok. fold parts in Htok.
    rewrite <- (runs_tokens parts) in Htok. fold rs in Htok.
    rewrite Forall_forall in Htok. apply Htok.
    apply list_elem_of_In. apply in_concat. exists (runTokens r).
    split; [apply in_map; by apply list_elem_of_In|by apply list_elem_of_In]. }
  pose proof (runs_wellFormed parts) as Hwf. fold rs in Hwf.
  clearbody rs. clear q'.
  assert (forall i, concat (imap (fun k => itemsOf g time (i + k)) rs)
                    = imap (fun k => itemOf g time (i + k)) rs) as H.
  { induction rs as [|r rs IH]; intros i; [done|].
    apply Forall_cons in Hst as [Hs Hst]. apply Forall_cons in Hne as [Hn Hne].
    apply Forall_cons in Hwf as [Hw Hwf]. cbn [imap concat].
    rewrite itemsOf_stable by done. cbn [app]. f_equal.
    specialize (IH Hst Hne Hwf (S i)).
    erewrite imap_ext; [erewrite (imap_ext _ (fun k => itemOf g time (S i + k)))|].
    - exact IH.
    - intros k x _. cbn. by rewrite Nat.add_succ_r.
    - intros k x _. cbn. by rewrite Nat.add_succ_r. }
  exact (H 0).
Qed.

End Facts.

(** The example of the design document. *)
Lemma segmentation_example :
  splitIntoSegments (str "sounds") hmphOnly (str "a hmph ok")
  = [seg_tts (str "a"); seg_sound (str "hmph") (str "sounds/hmph.mp3"); seg_tts (str "ok")] /\
  pushSegments 200 "G1" 1000 0 (splitIntoSegments (str "sounds") hmphOnly (str "a hmph ok")) []
  = [tts (str "a") {| req_guild := "G1"; req_time := 1000; req_index := 0 |};
     sound (str "hmph") (str "sounds/hmph.mp3")
       {| req_guild := "G1"; req_time := 1000; req_index := 1 |};
     tts (str "ok") {| req_guild := "G1"; req_time := 1000; req_index := 2 |}] /\
  sanitizeText 200 (str "Hello <@123> check this @everyone") = str "Hello  check this" /\
  pushSegments 200 "G1" 1000 0
    (splitIntoSegments (str "sounds") hmphOnly (str "Hello  check this")) []
  = [tts (str "Hello check this") {| req_guild := "G1"; req_time := 1000; req_index := 0 |}].
Proof. repeat split; vm_compute; reflexivity. Qed.

(** C6 as stated fails. The text ["@everyone"] is what [sanitizeText]
    returns for ["@every@hereone"]; it is one token that resolves to no
    sound, and [enqueue] returns normally without adding any item: the
    second sanitization of the segment removes the token. *)
Lemma sanitized_token_dropped :
  let sanitized := sanitizeText 200 (str "@every@hereone") in
  sanitized = str "@everyone" /\
  splitWhiteSpace sanitized = [str "@everyone"] /\
  soundOf (str "sounds") noFiles (str "@everyone") = None /\
  splitIntoSegments (str "sounds") noFiles sanitized = [seg_tts (str "@everyone")] /\
  pushSegments 200 "G1" 1000 0 (splitIntoSegments (str "sounds") noFiles sanitized) [] = [] /\
  (exists q',
     enqueue 200 (str "sounds") noFiles granted "G1" (str "@every@hereone") 7 1000 1000 empty
       = (Returns None, q') /\
     queues q' !! "G1" = Some []) /\
  pushSegments 200 "G1" 1000 0 (splitIntoSegments (str "sounds") noFiles sanitized) []
    <> [itemOf "G1" 1000 0 (SpeechRun (splitWhiteSpace sanitized))].
Proof.
  cbv zeta. repeat split; try (vm_compute; reflexivity).
  - eexists. split; vm_compute; reflexivity.
  - vm_compute. discriminate.
Qed.

End SegmentFacts.

(* ------------------------------------------------------------------ *)
(** ** Leaving, moving and cleaning up *)
(* ------------------------------------------------------------------ *)

Module LifecycleFacts.
Import VoiceManager VoiceManagerCleanup Vocabulary LifecycleVocabulary JoinFacts.

Lemma lookup_destroy c c' cs :
  destroy c cs !! c' = if decide (c = c') then destroyedCopy <$> cs !! c' else cs !! c'.
Proof.
  unfold destroy. destruct (cs !! c) as [v|] eqn:E.
  - case_decide as Hc.
    + subst c'. rewrite list_lookup_insert_eq by (by eapply lookup_lt_Some). by rewrite E.
    + by rewrite list_lookup_insert_ne.
  - case_decide as Hc; [subst c'; by rewrite E|done].
Qed.

Lemma lookup_destroy_same c cs : destroy c cs !! c = destroyedCopy <$> cs !! c.
Proof. by rewrite lookup_destroy, decide_True. Qed.

Lemma length_destroy c cs : length (destroy c cs) = length cs.
Proof. unfold destroy. destruct (cs !! c); [by rewrite length_insert|done]. Qed.

Lemma destroyedCopy_idemp v : destroyedCopy (destroyedCopy v) = destroyedCopy v.
Proof. reflexivity. Qed.

(** X1. A [leave] that finds the lock of the guild free returns and never
    throws. Afterwards the guild has no connection, [isInVoice] is false
    and the lock is free again; the sessions of other guilds are as
    before. If a connection was recorded, exactly that connection has been
    destroyed and the session is [Idle] with [retries] 0 and no channel; if
    none was recorded, the connection table and the session are unchanged
    (a session that did not exist is created as a fresh one). *)
Theorem leave_effects g m :
  operationLock (sessionOf g m) = None ->
  exists m',
    leave g m = Some (Returns tt, m') /\
    getConnection g m' = None /\ isInVoice g m' = false /\
    operationLock (sessionOf g m') = None /\
    (forall g', g' <> g -> guildStates m' !! g' = guildStates m !! g') /\
    match getConnection g m with
    | Some c =>
      state (sessionOf g m') = Idle /\ retries (sessionOf g m') = 0 /\
      getChannelId g m' = None /\
      (forall c', connections m' !! c' =
                  if decide (c = c') then destroyedCopy <$> connections m !! c'
                  else connections m !! c')
    | None =>
      connections m' = connections m /\ sessionOf g m' = sessionOf g m
    end.
Proof.
  intros Hfree. unfold leave. rewrite acquireLock_eq, Hfree, lock_eq. cbn.
  rewrite lookup_insert_eq.
  unfold leave_body, getConnection, sessionOf in *. cbn.
  destruct (guildStates m !! g) as [s|] eqn:Es; cbn in *.
  - destruct (connection s) as [c|] eqn:Ec; cbn.
    + eexists. split; [reflexivity|].
      unfold getConnection, getChannelId, isInVoice, sessionOf, unlock, commit. cbn.
      rewrite !lookup_alter_eq, !lookup_insert_eq. cbn.
      repeat split; auto.
      * intros g' Hne. by rewrite lookup_alter_ne, !lookup_insert_ne.
      * intros c'. apply lookup_destroy.
    + eexists. split; [reflexivity|].
      unfold getConnection, getChannelId, isInVoice, sessionOf, unlock, commit. cbn.
      rewrite !lookup_alter_eq, !lookup_insert_eq. cbn. rewrite Ec.
      repeat split; auto.
      * destruct (state s); done.
      * intros g' Hne. by rewrite lookup_alter_ne, !lookup_insert_ne.
      * destruct s; cbn in *. subst. reflexivity.
  - eexists. split; [reflexivity|].
    unfold getConnection, getChannelId, isInVoice, sessionOf, unlock, commit. cbn.
    rewrite !lookup_alter_eq, !lookup_insert_eq. cbn.
    repeat split; auto.
    intros g' Hne. by rewrite lookup_alter_ne, !lookup_insert_ne.
Qed.

Lemma leave_effects_witness :
  operationLock (sessionOf "G1" connectedToA) = None /\
  exists m', leave "G1" connectedToA = Some (Returns tt, m') /\
             getConnection "G1" m' = None /\ isInVoice "G1" m' = false.
Proof.
  split; [vm_compute; reflexivity|].
  destruct (leave_effects "G1" connectedToA) as (m' & Hl & Hc & Hv & _);
    [vm_compute; reflexivity|].
  exists m'. auto.
Defined.

Lemma retry_loop_ignores_state cfg o fuel i channel s1 s2 cs :
  set_state Connecting s1 = set_state Connecting s2 ->
  joinUnlockedWithRetries cfg o fuel i channel s1 cs =
  joinUnlockedWithRetries cfg o fuel i channel s2 cs.
Proof.
  intros H. destruct fuel; [done|].
  cbn [joinUnlockedWithRetries]. unfold joinUnlockedOnce_begin. cbv zeta.
  by rewrite H.
Qed.

Lemma commit_lock g s cs m :
  commit g s cs (lock g m).2 =
  {| guildStates := <[g := s]> (guildStates m); connections := cs;
     nextLock := S (nextLock m); released := released m; lockLog := lockLog m ++ [g] |}.
Proof. rewrite lock_eq. unfold commit. cbn. by rewrite insert_insert_eq. Qed.

Lemma join_eq cfg o channel m :
  let g := channel_guild channel in
  join cfg o channel m =
  match operationLock (sessionOf g m) with
  | Some _ => None
  | None =>
    match joinUnlockedWithRetries cfg o (attemptsBound cfg) 0 channel
            (set_operationLock (Some (nextLock m)) (sessionOf g m)) (connections m) with
    | Some (r, s, cs) => Some (r, unlock g (nextLock m) (commit g s cs (lock g m).2))
    | None => None
    end
  end.
Proof.
  intros g. unfold join. fold g. rewrite acquireLock_eq, sessionOf_lock.
  destruct (operationLock (sessionOf g m)); [done|].
  replace (connections (lock g m).2) with (connections m) by (by rewrite lock_eq).
  by destruct (joinUnlockedWithRetries _ _ _ _ _ _ _) as [[[r s] cs]|].
Qed.

Lemma move_eq cfg o channel m :
  let g := channel_guild channel in
  move cfg o channel m =
  match operationLock (sessionOf g m) with
  | Some _ => None
  | None =>
    let '(s0, cs0) := move_begin (set_operationLock (Some (nextLock m)) (sessionOf g m))
                        (connections m) in
    match joinUnlockedWithRetries cfg o (attemptsBound cfg) 0 channel s0 cs0 with
    | Some (r, s, cs) => Some (r, unlock g (nextLock m) (commit g s cs (lock g m).2))
    | None => None
    end
  end.
Proof.
  intros g. unfold move. fold g. rewrite acquireLock_eq, sessionOf_lock.
  destruct (operationLock (sessionOf g m)); [done|].
  replace (connections (lock g m).2) with (connections m) by (by rewrite lock_eq).
  destruct (move_begin _ _) as [s0 cs0].
  by destruct (joinUnlockedWithRetries _ _ _ _ _ _ _) as [[[r s] cs]|].
Qed.

(** X2. [move] is [join] on the supervisor whose recorded connection for
    the guild, if any, has been destroyed and taken out of the session: the
    two calls return the same result and leave the same supervisor behind.
    In particular, on a guild without a recorded connection [move] and
    [join] are the same call. *)
Theorem move_is_join_after_drop cfg o channel m :
  move cfg o channel m = join cfg o channel (dropConnection (channel_guild channel) m).
Proof.
  set (g := channel_guild channel).
  pose proof (move_eq cfg o channel m) as Hm. pose proof (join_eq cfg o channel (dropConnection g m)) as Hj.
  cbv zeta in Hm, Hj. fold g in Hm, Hj. rewrite Hm, Hj. clear Hm Hj.
  generalize (attemptsBound cfg). intros fuel.
  unfold dropConnection, move_begin, sessionOf.
  destruct (guildStates m !! g) as [s|] eqn:Es.
  - destruct (connection s) as [c|] eqn:Ec.
    + cbn [default guildStates connections nextLock commit set_connections set_guildStates].
      rewrite lookup_insert_eq.
      cbn [default operationLock set_channelId set_connection connection set_state set_operationLock].
      unfold id. rewrite Ec.
      cbn [default operationLock set_channelId set_connection connection set_state set_operationLock].
      destruct (operationLock s); [done|].
      cbv beta iota.
      rewrite (retry_loop_ignores_state cfg o fuel 0 channel _
                 (set_operationLock (Some (nextLock m))
                    (set_channelId None (set_connection None s)))) by reflexivity.
      match goal with |- context [joinUnlockedWithRetries ?a ?b ?c ?d ?e ?f ?h] =>
        destruct (joinUnlockedWithRetries a b c d e f h) as [[[r s'] cs']|] end; [|done].
      rewrite !lock_eq. unfold unlock. cbn. by rewrite !insert_insert_eq.
    + rewrite Es. cbn [default operationLock set_channelId set_connection connection set_state set_operationLock].
      unfold id. rewrite Ec. cbv beta iota.
      by rewrite (retry_loop_ignores_state cfg o fuel 0 channel _
                 (set_operationLock (Some (nextLock m)) s)).
  - rewrite Es. cbn [default operationLock set_channelId set_connection connection set_state set_operationLock freshState].
    unfold id. cbn [connection set_state set_operationLock freshState]. cbv beta iota.
    by rewrite (retry_loop_ignores_state cfg o fuel 0 channel _
               (set_operationLock (Some (nextLock m)) freshState)).
Qed.

(** X3. [cleanup(guildId)] deletes the session of the guild: afterwards
    [getConnection] and [getChannelId] return nothing, [isInVoice] is
    false, and the next operation starts from a fresh session. The
    connection the session recorded is destroyed; every other connection
    and the sessions of all other guilds are as before. *)
Theorem cleanup_forgets_guild g m :
  let m' := cleanup g m in
  guildStates m' !! g = None /\
  getConnection g m' = None /\ getChannelId g m' = None /\ isInVoice g m' = false /\
  sessionOf g m' = freshState /\
  (forall g', g' <> g -> guildStates m' !! g' = guildStates m !! g') /\
  (forall c', connections m' !! c' =
              if decide (getConnection g m = Some c')
              then destroyedCopy <$> connections m !! c'
              else connections m !! c').
Proof.
  unfold cleanup, getConnection, getChannelId, isInVoice, sessionOf. cbn.
  rewrite !lookup_delete_eq. cbn. repeat split; auto.
  - intros g' Hne. by rewrite lookup_delete_ne.
  - intros c'. unfold destroyCurrent.
    destruct (guildStates m !! g) as [s|]; [|by case_decide].
    destruct (connection s) as [c|]; [|by case_decide].
    rewrite lookup_destroy. repeat case_decide; congruence.
Qed.

(** X4. [cleanupAll()] leaves no session behind and destroys exactly the
    connections that some session recorded: each of them is marked
    destroyed, every other entry of the connection table is unchanged, and
    the table keeps its length. *)
Theorem cleanupAll_destroys_recorded m :
  let m' := cleanupAll m in
  guildStates m' = ∅ /\
  length (connections m') = length (connections m) /\
  (forall g c, getConnection g m = Some c ->
     connections m' !! c = destroyedCopy <$> connections m !! c) /\
  (forall c, (forall g, getConnection g m <> Some c) ->
     connections m' !! c = connections m !! c).
Proof.
  cbn. split; [done|]. unfold getConnection.
  set (cs := connections m).
  set (rec := fun (gs : gmap GuildId GuildVoiceState) g =>
                match gs !! g with Some s => connection s | None => None end).
  enough (length (map_fold (fun _ state cs => destroyCurrent state cs) cs (guildStates m))
            = length cs /\
          (forall g c, rec (guildStates m) g = Some c ->
             map_fold (fun _ state cs => destroyCurrent state cs) cs (guildStates m) !! c
             = destroyedCopy <$> cs !! c) /\
          (forall c, (forall g, rec (guildStates m) g <> Some c) ->
             map_fold (fun _ state cs => destroyCurrent state cs) cs (guildStates m) !! c
             = cs !! c) /\
          (forall c,
             map_fold (fun _ state cs => destroyCurrent state cs) cs (guildStates m) !! c
             = cs !! c \/
             map_fold (fun _ state cs => destroyCurrent state cs) cs (guildStates m) !! c
             = destroyedCopy <$> cs !! c)) by tauto.
  apply (map_fold_weak_ind
    (fun cs' (gs : gmap GuildId GuildVoiceState) =>
       length cs' = length cs /\
       (forall g c, rec gs g = Some c -> cs' !! c = destroyedCopy <$> cs !! c) /\
       (forall c, (forall g, rec gs g <> Some c) -> cs' !! c = cs !! c) /\
       (forall c, cs' !! c = cs !! c \/ cs' !! c = destroyedCopy <$> cs !! c))).
  - unfold rec. split; [done|]. split; [|split; [done|by left]].
    intros g c. by rewrite lookup_empty.
  - intros g s gs cs' Hg (Hlen & Hrec & Hnot & Hany).
    assert (forall c0, destroyedCopy <$> cs' !! c0 = destroyedCopy <$> cs !! c0) as Hd.
    { intros c0. destruct (Hany c0) as [-> | ->]; [done|]. by destruct (cs !! c0). }
    unfold destroyCurrent, rec in *. split; [|split; [|split]].
    + destruct (connection s); [by rewrite length_destroy|done].
    + intros g' c. rewrite lookup_insert. case_decide as Hgg.
      * intros Hc. rewrite Hc, lookup_destroy_same. apply Hd.
      * intros Hc. destruct (connection s) as [c0|]; [|by eapply Hrec].
        rewrite lookup_destroy. case_decide; [apply Hd|by eapply Hrec].
    + intros c Hc. assert (connection s <> Some c) as Hs.
      { specialize (Hc g). by rewrite lookup_insert_eq in Hc. }
      assert (cs' !! c = cs !! c) as <-.
      { apply Hnot. intros g'. specialize (Hc g'). rewrite lookup_insert in Hc.
        case_decide; [subst; by rewrite Hg|done]. }
      destruct (connection s) as [c0|]; [|done].
      rewrite lookup_destroy. case_decide; congruence.
    + intros c. destruct (connection s) as [c0|]; [|apply Hany].
      rewrite lookup_destroy. case_decide; [|apply Hany]. right. apply Hd.
Qed.
End LifecycleFacts.

(* ------------------------------------------------------------------ *)
(** ** Sessions and the connection table *)
(* ------------------------------------------------------------------ *)

Module TableFacts.
Import VoiceManager Scheduler Vocabulary LifecycleVocabulary TableVocabulary JoinFacts.
























End TableFacts.

(* ------------------------------------------------------------------ *)
(** ** Two calls waiting for one lock *)
(* ------------------------------------------------------------------ *)

Module ContentionFacts.
Import VoiceManager Scheduler Vocabulary LifecycleVocabulary JoinFacts.




End ContentionFacts.

(* ------------------------------------------------------------------ *)
(** ** Calls waiting for a lock are woken *)
(* ------------------------------------------------------------------ *)

Module LockFacts.
Import VoiceManager Scheduler Vocabulary LockVocabulary JoinFacts.

Lemma locksFrom_refl m task : locksFrom m m task.
Proof. split; [done|]. intros g s l Hs Hl. left. eauto. Qed.

Lemma locksFrom_enterRetryLoop channel l m :
  operationLock (sessionOf (channel_guild channel) m) = Some l ->
  locksFrom m (enterRetryLoop channel l m).2 (enterRetryLoop channel l m).1 /\
  holds l (enterRetryLoop channel l m).1.
Proof.
  intros Hl. unfold locksFrom, enterRetryLoop, joinUnlockedOnce_begin, joinVoiceChannel. cbn.
  split; [|done]. split; [done|]. intros g s' l0. rewrite lookup_insert.
  case_decide as Hg.
  - intros [= <-]. cbn. rewrite Hl. intros [= <-]. by right.
  - intros Hs Hl0. left. eauto.
Qed.

Lemma start_not_waiting op m :
  match (start op m).1 with AwaitLock _ _ => False | _ => True end.
Proof.
  unfold start. destruct (lock (op_guild op) m) as [l m1].
  destruct op as [channel|channel|g]; cbv beta iota; [done| |done].
  by destruct (move_begin _ _).
Qed.

Lemma locksFrom_start op m :
  locksFrom m (start op m).2 (start op m).1.
Proof.
  unfold start. rewrite lock_eq.
  set (g := op_guild op). set (l := nextLock m).
  set (m1 := {| guildStates := _ |}).
  assert (forall g' s' l0, guildStates m1 !! g' = Some s' -> operationLock s' = Some l0 ->
            (g' = g /\ l0 = l) \/
            (exists s, guildStates m !! g' = Some s /\ operationLock s = Some l0)) as H1.
  { intros g' s' l0. unfold m1. cbn. rewrite lookup_insert. case_decide as Hg.
    - intros [= <-]. cbn. intros [= <-]. by left.
    - intros Hs Hl0. right. eauto. }
  assert (sessionOf g m1 = set_operationLock (Some l) (sessionOf g m)) as Hs1.
  { unfold sessionOf at 1, m1. cbn. by rewrite lookup_insert_eq. }
  destruct op as [channel|channel|g0]; cbv beta iota.
  - destruct (locksFrom_enterRetryLoop channel l m1) as [[Hr Hs] Hh];
      [change (sessionOf (channel_guild channel) m1) with (sessionOf g m1); by rewrite Hs1|].
    split; [exact Hr|]. intros g' s' l0 Hg' Hl0.
    destruct (Hs g' s' l0 Hg' Hl0) as [(s & Hs0 & Hl1)|Hhold]; [|by right].
    destruct (H1 g' s l0 Hs0 Hl1) as [[-> ->]|Hold]; [by right|by left].
  - set (mb := move_begin (sessionOf g m1) (connections m1)).
    assert (operationLock mb.1 = Some l) as Hmb.
    { unfold mb, move_begin. rewrite Hs1. cbn [connection set_state set_operationLock].
      destruct (connection (sessionOf g m)); reflexivity. }
    destruct mb as [s cs] eqn:Emb. cbn in Hmb.
    set (m2 := commit g s cs m1).
    destruct (locksFrom_enterRetryLoop channel l m2) as [[Hr Hs] Hh].
    { change (channel_guild channel) with g. unfold sessionOf, m2, commit. cbn.
      by rewrite lookup_insert_eq. }
    split; [exact Hr|]. intros g' s' l0 Hg' Hl0.
    destruct (Hs g' s' l0 Hg' Hl0) as [(s0 & Hs0 & Hl1)|Hhold]; [|by right].
    unfold m2, commit in Hs0. cbn in Hs0. rewrite lookup_insert in Hs0.
    case_decide as Hgg.
    + injection Hs0 as <-. assert (l0 = l) as -> by congruence. by right.
    + destruct (H1 g' s0 l0) as [[-> ->]|Hold]; [| |done|by left].
      * exact Hs0.
      * done.
  - change (op_guild (Leave g0)) with g.
    set (m2 := match guildStates m1 !! g with
               | None => m1
               | Some state => let '(s, cs) := leave_body state (connections m1) in
                               commit g s cs m1
               end).
    assert (released m2 = released m /\
            forall g', g' <> g -> guildStates m2 !! g' = guildStates m1 !! g') as [Hr2 Hs2].
    { unfold m2. destruct (guildStates m1 !! g) as [s0|]; [|done].
      destruct (leave_body s0 (connections m1)) as [s2 cs2]. split; [done|].
      intros g' Hne. unfold commit. cbn. by rewrite lookup_insert_ne. }
    cbn [fst snd]. split.
    + intros l0 Hl0. unfold unlock. cbn. apply elem_of_cons. right. by rewrite Hr2.
    + intros g' s' l0 Hg' Hl0. left. unfold unlock in Hg'. cbn in Hg'.
      rewrite lookup_alter in Hg'. case_decide as Hgg.
      * destruct (guildStates m2 !! g0) as [s0|]; cbn in Hg'; [|done].
        injection Hg' as <-. done.
      * rewrite Hs2 in Hg' by done.
        destruct (H1 g' s' l0 Hg' Hl0) as [[-> _]|Hold]; [done|exact Hold].
Qed.

Lemma locksFrom_commit g s cs m task :
  operationLock s = operationLock (sessionOf g m) ->
  locksFrom m (commit g s cs m) task.
Proof.
  intros Hl. split; [done|]. intros g' s' l. unfold commit. cbn. rewrite lookup_insert.
  case_decide as Hg.
  - intros [= <-]. rewrite Hl. subst g'. unfold sessionOf.
    destruct (guildStates m !! g) as [s0|]; cbn; [|done]. intros Hs0. left. eauto.
  - intros Hs' Hl'. left. eauto.
Qed.

Lemma locksFrom_unlock_commit g l s cs m task :
  locksFrom m (unlock g l (commit g s cs m)) task /\
  l ∈ released (unlock g l (commit g s cs m)).
Proof.
  split; [split|].
  - intros l0 Hl0. unfold unlock. cbn. apply elem_of_cons. by right.
  - intros g' s' l0. unfold unlock, commit. cbn. rewrite lookup_alter. case_decide as Hg.
    + rewrite Hg, lookup_insert_eq. cbn. by intros [= <-].
    + rewrite lookup_insert_ne by done. intros Hs' Hl'. left. eauto.
  - unfold unlock. cbn. apply elem_of_cons. by left.
Qed.

Lemma locksFrom_alter f g m task :
  (forall s, operationLock (f s) = operationLock s) ->
  locksFrom m (set_guildStates (alter f g (guildStates m)) m) task.
Proof.
  intros Hf. split; [done|]. intros g' s' l. cbn. rewrite lookup_alter. case_decide as Hg.
  - subst g'. destruct (guildStates m !! g) as [s0|]; cbn; [|done].
    intros [= <-]. rewrite Hf. intros Hl. left. eauto.
  - intros Hs' Hl'. left. eauto.
Qed.

Lemma locksFrom_call op m :
  locksFrom m (call op m).2 (call op m).1 /\
  forall op' l, (call op m).1 = AwaitLock op' l ->
    exists g s, guildStates m !! g = Some s /\ operationLock s = Some l.
Proof.
  unfold call, getOrCreateState. destruct (guildStates m !! op_guild op) as [s|] eqn:Es.
  - destruct (operationLock s) as [l|] eqn:El.
    + cbn. split; [apply locksFrom_refl|]. intros op' l' [= <- <-]. eauto.
    + split; [apply locksFrom_start|]. intros op' l' Hs.
      pose proof (start_not_waiting op m) as Hn. rewrite Hs in Hn. done.
  - cbn [operationLock freshState fst snd].
    set (m1 := set_guildStates _ m).
    assert (locksFrom m m1 (start op m1).1) as H1.
    { split; [done|]. intros g s' l. unfold m1. cbn. rewrite lookup_insert.
      case_decide; [by intros [= <-]|]. intros Hs' Hl'. left. eauto. }
    destruct (locksFrom_start op m1) as [Hr Hs]. split.
    + split; [intros l Hl; apply Hr; by apply H1|].
      intros g s' l Hs' Hl'. destruct (Hs g s' l Hs' Hl') as [(s0 & Hs0 & Hl0)|Hh]; [|by right].
      apply (proj2 H1 g s0 l Hs0 Hl0).
    + intros op' l' Hst.
      pose proof (start_not_waiting op m1) as Hn. rewrite Hst in Hn. done.
Qed.

Lemma locksFrom_resume cfg task o rnd m task' m' :
  resume cfg task o rnd m = Some (task', m') ->
  locksFrom m m' task' /\
  (forall l, holds l task -> holds l task' \/ l ∈ released m') /\
  match task' with AwaitLock _ _ => False | _ => True end.
Proof.
  intros H. destruct task as [op l|channel c l|channel l b|c g|r]; unfold resume in H.
  - case_bool_decide; [|done].
    assert (start op m = (task', m')) as E by congruence.
    pose proof (locksFrom_start op m) as Hs. pose proof (start_not_waiting op m) as Hn.
    rewrite E in Hs, Hn. done.
  - destruct o as [|err].
    + injection H as <- <-.
      destruct (locksFrom_unlock_commit (channel_guild channel) l
                  (joinUnlockedOnce_ready channel c (sessionOf (channel_guild channel) m))
                  (connections m) m (Settled (Returns (Some c)))) as [Hf Hr].
      split; [exact Hf|]. split; [|done]. intros l0 Hl0. cbn in Hl0. subst l0. by right.
    + assert (operationLock (joinUnlockedWithRetries_catch cfg rnd err
                (sessionOf (channel_guild channel) m) (connections m)).1.2
              = operationLock (sessionOf (channel_guild channel) m)) as Hl.
      { unfold joinUnlockedWithRetries_catch. cbn. by destruct (_ <? _)%Z. }
      destruct (joinUnlockedWithRetries_catch _ _ _ _ _) as [[[b|e] s] cs] eqn:E;
        injection H as <- <-; cbn in Hl.
      * split; [by apply locksFrom_commit|]. split; [|done]. intros l0 Hl0. by left.
      * destruct (locksFrom_unlock_commit (channel_guild channel) l s cs m
                    (Settled (Throws e))) as [Hf Hr].
        split; [exact Hf|]. split; [|done]. intros l0 Hl0. cbn in Hl0. subst l0. by right.
  - assert (enterRetryLoop channel l m = (task', m')) as E by congruence.
    unfold enterRetryLoop, joinUnlockedOnce_begin, joinVoiceChannel in E. cbn in E.
    injection E as <- <-. split; [by apply locksFrom_commit|]. split; [|done].
    intros l0 Hl0. by left.
  - destruct o; injection H as <- <-.
    + split; [apply locksFrom_refl|]. split; [|done]. intros l0 Hl0. by left.
    + split; [|split; [intros l0 Hl0; by left|done]].
      unfold onDisconnected_lost.
      destruct (locksFrom_alter resetState g (set_connections (destroy c (connections m)) m)
                  (Settled (Returns None))) as [Hr Hs]; [done|].
      split; [exact Hr|exact Hs].
  - done.
Qed.

Lemma pending_spawn σ m' task' cl l :
  (forall l0, l0 ∈ released (manager σ) -> l0 ∈ released m') ->
  pending σ l ->
  pending {| manager := m'; tasks := tasks σ ++ [task']; calls := cl |} l.
Proof.
  intros Hr [Hl|(t & task & Ht & Hh)]; [left; by apply Hr|].
  right. exists t, task. split; [|done]. cbn.
  rewrite lookup_app_l; [done|]. by eapply lookup_lt_Some.
Qed.

Lemma pending_new σ m' task' cl l :
  holds l task' ->
  pending {| manager := m'; tasks := tasks σ ++ [task']; calls := cl |} l.
Proof.
  intros Hh. right. exists (length (tasks σ)), task'. split; [|done]. cbn.
  rewrite lookup_app_r by lia. by rewrite Nat.sub_diag.
Qed.

Lemma pending_resume σ t task m' task' l :
  tasks σ !! t = Some task ->
  (forall l0, l0 ∈ released (manager σ) -> l0 ∈ released m') ->
  (forall l0, holds l0 task -> holds l0 task' \/ l0 ∈ released m') ->
  pending σ l ->
  pending {| manager := m'; tasks := <[t := task']> (tasks σ); calls := calls σ |} l.
Proof.
  intros Ht Hr Hh [Hl|(t0 & task0 & Ht0 & Hh0)]; [left; by apply Hr|].
  destruct (decide (t0 = t)) as [->|Hne].
  - assert (task0 = task) as -> by congruence.
    destruct (Hh l Hh0) as [Hnew|Hrel]; [|by left].
    right. exists t, task'. split; [|done]. cbn.
    rewrite list_lookup_insert_eq; [done|]. by eapply lookup_lt_Some.
  - right. exists t0, task0. split; [|done]. cbn. by rewrite list_lookup_insert_ne.
Qed.

Lemma lockInv_spawn op σ : lockInv σ -> lockInv (spawn op σ).
Proof.
  intros [H1 H2]. unfold spawn.
  destruct (locksFrom_call op (manager σ)) as [[Hr Hs] Hw].
  destruct (call op (manager σ)) as [task m']. cbn [fst snd] in *. split.
  - intros g s l Hg Hl. cbn [manager] in Hg.
    destruct (Hs g s l Hg Hl) as [(s0 & Hs0 & Hl0)|Hh].
    + apply pending_spawn; [exact Hr|]. by eapply H1.
    + by apply pending_new.
  - intros t op' l. cbn [tasks]. intros Ht.
    destruct (decide (t < length (tasks σ))) as [Hlt|Hge].
    + rewrite lookup_app_l in Ht by done. apply pending_spawn; [exact Hr|]. by eapply H2.
    + rewrite lookup_app_r in Ht by lia.
      destruct (t - length (tasks σ)) as [|n]; cbn in Ht; [|done].
      injection Ht as ->. destruct (Hw op' l eq_refl) as (g & s & Hg & Hl).
      apply pending_spawn; [exact Hr|]. by eapply H1.
Qed.

Lemma lockInv_step cfg get247Enabled e σ σ' :
  step cfg get247Enabled e σ = Some σ' -> lockInv σ -> lockInv σ'.
Proof.
  intros H [H1 H2]. destruct e as [op|t o rnd|c sig|oldState newState]; cbn in H.
  - injection H as <-. by apply lockInv_spawn.
  - destruct (tasks σ !! t) as [task|] eqn:Et; [|done].
    destruct (resume _ _ _ _ _) as [[task' m']|] eqn:E; [|done].
    injection H as <-.
    destruct (locksFrom_resume _ _ _ _ _ _ _ E) as ([Hr Hs] & Hh & Hn).
    assert (t < length (tasks σ)) as Hlt by (by eapply lookup_lt_Some).
    split.
    + intros g s l Hg Hl. cbn [manager] in Hg.
      destruct (Hs g s l Hg Hl) as [(s0 & Hs0 & Hl0)|Hnew].
      * eapply pending_resume; eauto.
      * right. exists t, task'. split; [|done]. cbn. by rewrite list_lookup_insert_eq.
    + intros t0 op l. cbn [tasks]. intros Ht0.
      destruct (decide (t0 = t)) as [->|Hne].
      * rewrite list_lookup_insert_eq in Ht0 by done. injection Ht0 as ->. done.
      * rewrite list_lookup_insert_ne in Ht0 by done. eapply pending_resume; eauto.
  - destruct (connections (manager σ) !! c) as [v|]; [|done].
    destruct sig; injection H as <-.
    + split.
      * intros g s l Hg Hl. apply pending_spawn; [done|]. by eapply H1.
      * intros t op l. cbn [tasks]. intros Ht.
        destruct (decide (t < length (tasks σ))) as [Hlt|Hge].
        -- rewrite lookup_app_l in Ht by done. apply pending_spawn; [done|]. by eapply H2.
        -- rewrite lookup_app_r in Ht by lia.
           destruct (t - length (tasks σ)) as [|n]; cbn in Ht; done.
    + destruct (locksFrom_alter resetState (joinConfig_guildId v) (manager σ)
                  (Settled (Returns None))) as [Hr Hs]; [done|].
      assert (forall l, pending σ l ->
                pending {| manager := onDestroyed (joinConfig_guildId v) (manager σ);
                           tasks := tasks σ; calls := calls σ |} l) as Hp.
      { intros l [Hl|Hh]; [left; by apply Hr|by right]. }
      split.
      * intros g s l Hg Hl. cbn [manager] in Hg.
        destruct (Hs g s l Hg Hl) as [(s0 & Hs0 & Hl0)|Hnew]; [|done].
        apply Hp. by eapply H1.
      * intros t op l Ht. apply Hp. by eapply H2.
  - destruct (VoiceFollower.processVoiceStateUpdate _ _ _) as [op|].
    + injection H as <-. by apply lockInv_spawn.
    + by injection H as <-.
Qed.

Lemma lockInv_run cfg get247Enabled es : forall σ σ',
  run cfg get247Enabled es σ = Some σ' -> lockInv σ -> lockInv σ'.
Proof.
  induction es as [|e es IH]; intros σ σ'; cbn.
  - by intros [= <-].
  - destruct (step _ _ e σ) as [σ1|] eqn:E; [|done].
    intros H Hi. eapply IH; [exact H|]. eapply lockInv_step; eauto.
Qed.

(** X23. No call waits for a lock in vain. At every state the scheduler
    can reach, the lock promise a suspended call of [join], [move] or
    [leave] waits for is already resolved, so that the call can be resumed,
    or it is held by a suspended call inside the retry loop, and whenever
    that call settles, by returning or by throwing, the promise is
    resolved in the same step. *)
Theorem no_stranded_waiter cfg get247Enabled es σ t op l :
  run cfg get247Enabled es initialSystem = Some σ ->
  tasks σ !! t = Some (AwaitLock op l) ->
  (l ∈ released (manager σ) /\
   exists task' m', resume cfg (AwaitLock op l) Fulfilled 0 (manager σ) = Some (task', m')) \/
  (exists t' task, tasks σ !! t' = Some task /\ holds l task /\
     forall o rnd r m',
       resume cfg task o rnd (manager σ) = Some (Settled r, m') -> l ∈ released m').
Proof.
  intros Hrun Ht.
  assert (lockInv initialSystem) as H0.
  { split; [intros g s l0; cbn; by rewrite lookup_empty|intros t0 op0 l0; done]. }
  destruct (lockInv_run _ _ _ _ _ Hrun H0) as [_ H2].
  destruct (H2 t op l Ht) as [Hl|(t' & task & Ht' & Hh)].
  - left. split; [done|]. unfold resume. rewrite bool_decide_eq_true_2 by done.
    exists (start op (manager σ)).1, (start op (manager σ)).2.
    by destruct (start op (manager σ)).
  - right. exists t', task. split; [done|]. split; [done|].
    intros o rnd r m' Hres.
    destruct (locksFrom_resume _ _ _ _ _ _ _ Hres) as (_ & Hrel & _).
    destruct (Hrel l Hh) as [Hs|Hin]; [done|exact Hin].
Qed.

Lemma no_stranded_waiter_witness :
  exists σ,
    run defaultConfig never247 [Call (Join chA); Call (Move chB)] initialSystem = Some σ /\
    tasks σ !! 1 = Some (AwaitLock (Move chB) 0) /\
    tasks σ !! 0 = Some (AwaitReady chA 0 0) /\ holds 0 (AwaitReady chA 0 0).
Proof.
  destruct (no_stranded_waiter defaultConfig never247 [Call (Join chA); Call (Move chB)]
              (default initialSystem
                 (run defaultConfig never247 [Call (Join chA); Call (Move chB)] initialSystem))
              1 (Move chB) 0) as [[Hl _]|(t' & task & Ht' & Hh & _)];
    [vm_compute; reflexivity|vm_compute; reflexivity| |].
  - change (0 ∈ @nil nat) in Hl. by apply elem_of_nil in Hl.
  - eexists. split; [vm_compute; reflexivity|]. split; [vm_compute; reflexivity|].
    split; [vm_compute; reflexivity|]. reflexivity.
Defined.
End LockFacts.

(* ------------------------------------------------------------------ *)
(** ** The debounce of the follower *)
(* ------------------------------------------------------------------ *)

Module DebounceFacts.
Import VoiceFollower FollowerDebounce DebounceVocabulary Vocabulary.

Section Facts.
Variable OWNER_ID : UserId.
Variable get247Enabled : GuildId -> bool.

Local Abbreviation handleVoiceStateUpdate := (handleVoiceStateUpdate OWNER_ID).
Local Abbreviation fire := (fire get247Enabled).
Local Abbreviation step := (step OWNER_ID get247Enabled).
Local Abbreviation run := (run OWNER_ID get247Enabled).

Lemma timersInv_initial : timersInv initial.
Proof. repeat split; intros *; cbn; by rewrite ?lookup_empty. Qed.

Lemma timersInv_handle now userId oldState newState f :
  timersInv f -> timersInv (handleVoiceStateUpdate now userId oldState newState f).
Proof.
  intros (H1 & H2 & H3). unfold FollowerDebounce.handleVoiceStateUpdate.
  case_decide as Hu; [|done]. set (g := guild_id newState).
  assert (forall t, is_Some (armed f !! t) -> t <> nextTimer f) as Hfresh.
  { intros t [x Hx] ->. rewrite H3 in Hx by lia. done. }
  destruct (debounceTimers f !! g) as [t0|] eqn:E0; unfold timersInv; cbn.
  - destruct (H1 g t0 E0) as (d0 & o0 & n0 & Ha0 & Hg0).
    split; [|split].
    + intros g' t. rewrite lookup_insert. case_decide as Hg.
      * intros [= <-]. rewrite lookup_insert_eq. eauto.
      * intros Hd. destruct (H1 g' t Hd) as (d & o & n & Ha & Hgn).
        exists d, o, n. split; [|done].
        rewrite lookup_insert_ne by (intros <-; eapply Hfresh; eauto).
        rewrite lookup_delete_ne; [done|]. intros <-. congruence.
    + intros t d o n. rewrite lookup_insert. case_decide as Ht.
      * intros [= <- <- <-]. subst t. by rewrite lookup_insert_eq.
      * intros Hd. apply lookup_delete_Some in Hd as [Hne Ha].
        pose proof (H2 t d o n Ha) as Hm.
        rewrite lookup_insert_ne; [done|]. intros Hg. fold g in Hg. congruence.
    + intros t Ht. rewrite lookup_insert_ne by lia.
      apply lookup_delete_None. right. apply H3. lia.
  - split; [|split].
    + intros g' t. rewrite lookup_insert. case_decide as Hg.
      * intros [= <-]. rewrite lookup_insert_eq. eauto.
      * intros Hd. destruct (H1 g' t Hd) as (d & o & n & Ha & Hgn).
        exists d, o, n. split; [|done].
        rewrite lookup_insert_ne by (intros <-; eapply Hfresh; eauto). done.
    + intros t d o n. rewrite lookup_insert. case_decide as Ht.
      * intros [= <- <- <-]. subst t. by rewrite lookup_insert_eq.
      * intros Ha. pose proof (H2 t d o n Ha) as Hm.
        rewrite lookup_insert_ne; [done|]. intros Hg. fold g in Hg. congruence.
    + intros t Ht. rewrite lookup_insert_ne by lia. apply H3. lia.
Qed.

Lemma timersInv_fire now timer f op f' :
  fire now timer f = Some (op, f') -> timersInv f -> timersInv f'.
Proof.
  unfold FollowerDebounce.fire. destruct (armed f !! timer) as [[[due o0] n0]|] eqn:Ea; [|done].
  destruct (now <? due)%Z; [done|]. intros [= <- <-] (H1 & H2 & H3).
  pose proof (H2 _ _ _ _ Ea) as Hm0.
  unfold timersInv; cbn. split; [|split].
  - intros g t Hd. apply lookup_delete_Some in Hd as [Hne Hd].
    destruct (H1 g t Hd) as (d & o & n & Ha & Hg). exists d, o, n. split; [|done].
    rewrite lookup_delete_ne; [done|]. intros <-. congruence.
  - intros t d o n Hd. apply lookup_delete_Some in Hd as [Hne Ha].
    pose proof (H2 t d o n Ha) as Hm.
    rewrite lookup_delete_ne; [done|]. intros Hg. congruence.
  - intros t Ht. apply lookup_delete_None. right. by apply H3.
Qed.

Lemma lookup_clear_timers (a : gmap TimerId (Z * OwnerVoiceState * OwnerVoiceState))
    (ts : gmap GuildId TimerId) :
  (forall g t, ts !! g = Some t ->
     map_fold (fun _ timer a => delete timer a) a ts !! t = None) /\
  (forall t, a !! t = None ->
     map_fold (fun _ timer a => delete timer a) a ts !! t = None).
Proof.
  apply (map_fold_weak_ind
    (fun (r : gmap TimerId (Z * OwnerVoiceState * OwnerVoiceState)) (ts : gmap GuildId TimerId) =>
       (forall g t, ts !! g = Some t -> r !! t = None) /\
       (forall t, a !! t = None -> r !! t = None))).
  - split; [|done]. intros g t. by rewrite lookup_empty.
  - intros g0 t0 ts0 r Hg0 [Hr Ha]. split.
    + intros g t. rewrite lookup_insert. case_decide.
      * intros [= <-]. by rewrite lookup_delete_eq.
      * intros Ht. apply lookup_delete_None. right. eauto.
    + intros t Ht. apply lookup_delete_None. right. eauto.
Qed.

Lemma armed_cleanup f : timersInv f -> armed (cleanup f) = ∅.
Proof.
  intros (H1 & H2 & H3). apply map_eq. intros t. rewrite lookup_empty. cbn.
  destruct (lookup_clear_timers (armed f) (debounceTimers f)) as [Hc Hn].
  destruct (armed f !! t) as [[[d o] n]|] eqn:Ea; [|by apply Hn].
  eapply Hc. eapply H2. exact Ea.
Qed.

Lemma timersInv_cleanup f : timersInv f -> timersInv (cleanup f).
Proof.
  intros Hf. pose proof (armed_cleanup f Hf) as Ha.
  unfold timersInv. rewrite Ha. cbn.
  repeat split; intros *; by rewrite ?lookup_empty.
Qed.

Lemma timersInv_step e f op f' : step e f = Some (op, f') -> timersInv f -> timersInv f'.
Proof.
  destruct e as [now userId o n|now timer|]; cbn.
  - destruct (listening f); intros [= <- <-]; [apply timersInv_handle|done].
  - apply timersInv_fire.
  - intros [= <- <-]. apply timersInv_cleanup.
Qed.

Lemma timersInv_run es : forall f ops f',
  run es f = Some (ops, f') -> timersInv f -> timersInv f'.
Proof.
  induction es as [|e es IH]; intros f ops f'; cbn.
  - by intros [= <- <-].
  - destruct (step e f) as [[op f1]|] eqn:E; [|done].
    destruct (run es f1) as [[ops1 f2]|] eqn:Er; [|done].
    intros [= <- <-] Hf. eapply IH; [exact Er|]. eapply timersInv_step; eauto.
Qed.

Lemma timersInv_reachable f : reachable OWNER_ID get247Enabled f -> timersInv f.
Proof. intros (es & ops & H). eapply timersInv_run; [exact H|apply timersInv_initial]. Qed.

(** X7. At every state of the follower that updates, timeouts and
    [cleanup] can lead to, every timer recorded in [debounceTimers] is an
    armed timeout for an update of that guild, and no guild has two armed
    timeouts: an update of the owner always replaces the pending one of its
    guild. *)
Theorem one_timer_per_guild f :
  reachable OWNER_ID get247Enabled f ->
  (forall g t, debounceTimers f !! g = Some t ->
     exists due oldState newState,
       armed f !! t = Some (due, oldState, newState) /\ guild_id newState = g) /\
  (forall t1 t2 due1 old1 new1 due2 old2 new2,
     armed f !! t1 = Some (due1, old1, new1) ->
     armed f !! t2 = Some (due2, old2, new2) ->
     guild_id new1 = guild_id new2 -> t1 = t2).
Proof.
  intros Hr. destruct (timersInv_reachable f Hr) as (H1 & H2 & _). split; [exact H1|].
  intros * Ha1 Ha2 Hg. pose proof (H2 _ _ _ _ Ha1) as E1. pose proof (H2 _ _ _ _ Ha2) as E2.
  rewrite Hg in E1. congruence.
Qed.

Lemma deliver_foreign g u f t :
  foreignTo OWNER_ID g u -> timersInv f ->
  debounceTimers f !! g = Some t ->
  debounceTimers (deliver OWNER_ID f u) !! g = Some t /\
  armed (deliver OWNER_ID f u) !! t = armed f !! t.
Proof.
  intros Hu (H1 & H2 & H3) Hg. unfold deliver, FollowerDebounce.handleVoiceStateUpdate.
  case_decide as Ho; [|done].
  destruct Hu as [Hu|Hu]; [done|].
  destruct (H1 g t Hg) as (d & o & n & Ha & Hgn).
  assert (t <> nextTimer f) as Hfresh.
  { intros ->. rewrite H3 in Ha by lia. done. }
  destruct (debounceTimers f !! guild_id (to_state u)) as [t0|] eqn:E0; cbn.
  - rewrite lookup_insert_ne by done. split; [done|].
    rewrite lookup_insert_ne by done. rewrite lookup_delete_ne; [done|].
    intros <-. destruct (H1 _ _ E0) as (d' & o' & n' & Ha' & Hgn'). congruence.
  - rewrite lookup_insert_ne by done. split; [done|]. by rewrite lookup_insert_ne.
Qed.

Lemma burst_timer now oldState newState us : forall f,
  timersInv f ->
  Forall (foreignTo OWNER_ID (guild_id newState)) us ->
  let f' := foldl (deliver OWNER_ID) (handleVoiceStateUpdate now OWNER_ID oldState newState f) us in
  timersInv f' /\
  exists t, debounceTimers f' !! guild_id newState = Some t /\
            armed f' !! t = Some ((now + debounceDelay)%Z, oldState, newState).
Proof.
  intros f Hf Hus. cbv zeta.
  pose proof (timersInv_handle now OWNER_ID oldState newState f Hf) as Hf1.
  assert (exists t, debounceTimers (handleVoiceStateUpdate now OWNER_ID oldState newState f)
                      !! guild_id newState = Some t /\
                    armed (handleVoiceStateUpdate now OWNER_ID oldState newState f) !! t
                      = Some ((now + debounceDelay)%Z, oldState, newState)) as Ht.
  { unfold FollowerDebounce.handleVoiceStateUpdate. rewrite decide_True by done.
    destruct (debounceTimers f !! guild_id newState); cbn;
      eexists; rewrite !lookup_insert_eq; done. }
  revert Hf1 Ht. generalize (handleVoiceStateUpdate now OWNER_ID oldState newState f).
  clear f Hf. induction Hus as [|u us Hu Hus IH]; intros f Hf Ht; cbn; [done|].
  apply IH.
  - apply timersInv_handle. exact Hf.
  - destruct Ht as (t & Hd & Ha). exists t.
    destruct (deliver_foreign _ u f t Hu Hf Hd) as [E1 E2]. split; [done|]. by rewrite E2.
Qed.

Lemma deliver_keeps_cleared t u f :
  t < nextTimer f -> armed f !! t = None ->
  t < nextTimer (deliver OWNER_ID f u) /\ armed (deliver OWNER_ID f u) !! t = None.
Proof.
  intros Hlt Ha. unfold deliver, FollowerDebounce.handleVoiceStateUpdate.
  case_decide; [|done].
  destruct (debounceTimers f !! guild_id (to_state u)); cbn.
  - split; [lia|]. rewrite lookup_insert_ne by lia. apply lookup_delete_None. by right.
  - split; [lia|]. by rewrite lookup_insert_ne by lia.
Qed.

Lemma burst_clears now oldState newState us t0 : forall f,
  timersInv f ->
  debounceTimers f !! guild_id newState = Some t0 ->
  armed (foldl (deliver OWNER_ID) (handleVoiceStateUpdate now OWNER_ID oldState newState f) us)
    !! t0 = None.
Proof.
  intros f (H1 & H2 & H3) Hd.
  assert (t0 < nextTimer (handleVoiceStateUpdate now OWNER_ID oldState newState f) /\
          armed (handleVoiceStateUpdate now OWNER_ID oldState newState f) !! t0 = None) as Hc.
  { destruct (H1 _ _ Hd) as (d & o & n & Ha & _).
    assert (t0 < nextTimer f) as Hlt.
    { destruct (Nat.lt_ge_cases t0 (nextTimer f)) as [?|Hge]; [done|].
      rewrite (H3 t0 Hge) in Ha. done. }
    unfold FollowerDebounce.handleVoiceStateUpdate. rewrite decide_True by done.
    rewrite Hd. cbn. split; [lia|].
    rewrite lookup_insert_ne by lia. by rewrite lookup_delete_eq. }
  revert Hc. generalize (handleVoiceStateUpdate now OWNER_ID oldState newState f).
  induction us as [|u us IH]; intros f0 [Hlt Ha]; cbn; [done|].
  apply IH. by apply deliver_keeps_cleared.
Qed.

(** X8. Of a burst of owner updates for one guild only the last one is
    processed. After an update of the owner arrived at time [now], followed
    by any updates that are not the owner's in that guild, the timer that
    was pending for the guild before can never fire; the guild has exactly
    one armed timeout; it cannot fire earlier than [debounceDelay] (500 ms)
    after [now]; and when it fires it runs [processVoiceStateUpdate] on the
    pair of states of that last update and leaves the guild without a
    timer. *)
Theorem burst_processes_last now oldState newState us f :
  reachable OWNER_ID get247Enabled f ->
  Forall (foreignTo OWNER_ID (guild_id newState)) us ->
  let f' := foldl (deliver OWNER_ID) (handleVoiceStateUpdate now OWNER_ID oldState newState f) us in
  (forall t0 at_, debounceTimers f !! guild_id newState = Some t0 -> fire at_ t0 f' = None) /\
  exists t,
    debounceTimers f' !! guild_id newState = Some t /\
    (forall t' due o n, armed f' !! t' = Some (due, o, n) ->
       guild_id n = guild_id newState -> t' = t) /\
    (forall at_, (at_ < now + debounceDelay)%Z -> fire at_ t f' = None) /\
    (forall at_, (now + debounceDelay <= at_)%Z ->
       exists f'', fire at_ t f' =
                   Some (processVoiceStateUpdate get247Enabled oldState newState, f'') /\
                   debounceTimers f'' !! guild_id newState = None).
Proof.
  intros Hr Hus. pose proof (timersInv_reachable f Hr) as Hf.
  destruct (burst_timer now oldState newState us f Hf Hus)
    as ((H1 & H2 & H3) & t & Hd & Ha).
  cbv zeta. split.
  { intros t0 at_ Hd0. unfold FollowerDebounce.fire.
    by rewrite (burst_clears now oldState newState us t0 f Hf Hd0). }
  exists t. split; [done|]. split; [|split].
  - intros t' due o n Ha' Hg. pose proof (H2 _ _ _ _ Ha') as E. rewrite Hg in E. congruence.
  - intros at_ Hlt. unfold FollowerDebounce.fire. rewrite Ha.
    by rewrite (proj2 (Z.ltb_lt _ _) Hlt).
  - intros at_ Hge. unfold FollowerDebounce.fire. rewrite Ha.
    rewrite (proj2 (Z.ltb_ge _ _) Hge). eexists. split; [reflexivity|].
    cbn. by rewrite lookup_delete_eq.
Qed.

Lemma processVoiceStateUpdate_in_place oldState newState :
  channelId oldState = channelId newState ->
  processVoiceStateUpdate get247Enabled oldState newState = None.
Proof.
  intros E. unfold processVoiceStateUpdate. rewrite E.
  destruct (truthy (channelId newState)); cbn; [|done].
  by rewrite decide_True.
Qed.

(** X9. If the last update of the owner in a guild keeps the channel (a
    mute or deafen right after a join, say), no call is made on the
    supervisor for that guild when its timeout fires, whatever update of
    the guild was pending before: a join or move that was waiting for its
    timeout is dropped. *)
Theorem burst_ending_in_place_is_dropped now oldState newState us f :
  reachable OWNER_ID get247Enabled f ->
  Forall (foreignTo OWNER_ID (guild_id newState)) us ->
  channelId oldState = channelId newState ->
  let f' := foldl (deliver OWNER_ID) (handleVoiceStateUpdate now OWNER_ID oldState newState f) us in
  forall t at_ op f'',
    (exists due o n, armed f' !! t = Some (due, o, n) /\ guild_id n = guild_id newState) ->
    fire at_ t f' = Some (op, f'') -> op = None.
Proof.
  intros Hr Hus Hch. cbv zeta. intros t at_ op f'' (due & o & n & Ha & Hg).
  destruct (burst_timer now oldState newState us f (timersInv_reachable f Hr) Hus)
    as ((H1 & H2 & H3) & t1 & Hd & Ha1).
  assert (t = t1) as ->.
  { pose proof (H2 _ _ _ _ Ha) as E. rewrite Hg in E. congruence. }
  unfold FollowerDebounce.fire. rewrite Ha1.
  destruct (at_ <? _)%Z; [done|]. intros [= <- _].
  by apply processVoiceStateUpdate_in_place.
Qed.

Lemma run_after_cleanup es : forall f ops f',
  listening f = false -> armed f = ∅ -> debounceTimers f = ∅ ->
  run es f = Some (ops, f') -> ops = [].
Proof.
  induction es as [|e es IH]; intros f ops f' Hl Ha Hd; cbn.
  - by intros [= <- _].
  - destruct e as [now userId o n|now timer|]; cbn.
    + rewrite Hl. destruct (run es f) as [[ops1 f1]|] eqn:E; [|done].
      intros [= <- <-]. cbn. eapply IH; eauto.
    + unfold FollowerDebounce.fire. rewrite Ha, lookup_empty. done.
    + destruct (run es (cleanup f)) as [[ops1 f1]|] eqn:E; [|done].
      intros [= <- <-]. cbn. eapply (IH (cleanup f)); eauto.
      cbn. rewrite Hd. by rewrite map_fold_empty.
Qed.

(** X10. [cleanup()] of the follower disarms everything: at every
    reachable state no timeout is left armed afterwards, so none can fire,
    and since the listener is removed no later sequence of updates,
    timeouts and cleanups makes a call on the supervisor. *)
Theorem cleanup_disarms f :
  reachable OWNER_ID get247Enabled f ->
  armed (cleanup f) = ∅ /\
  (forall now timer, fire now timer (cleanup f) = None) /\
  (forall es ops f', run es (cleanup f) = Some (ops, f') -> ops = []).
Proof.
  intros Hr. pose proof (armed_cleanup f (timersInv_reachable f Hr)) as Ha.
  split; [done|]. split.
  - intros now timer. unfold FollowerDebounce.fire. by rewrite Ha, lookup_empty.
  - intros es ops f'. by apply run_after_cleanup.
Qed.

End Facts.

Lemma pendingJoin_reachable : reachable ownerId never247 pendingJoin.
Proof. exists [Update 1000 ownerId nowhere inA], []. vm_compute. reflexivity. Defined.

Lemma one_timer_per_guild_witness :
  reachable ownerId never247 pendingJoin /\
  exists due oldState newState,
    armed pendingJoin !! 0 = Some (due, oldState, newState) /\ guild_id newState = "G1".
Proof.
  split; [apply pendingJoin_reachable|].
  destruct (one_timer_per_guild ownerId never247 pendingJoin pendingJoin_reachable) as [H _].
  apply (H "G1" 0). vm_compute. reflexivity.
Defined.

Lemma elsewhere_foreign : Forall (foreignTo ownerId "G1") [elsewhere].
Proof. constructor; [|constructor]. right. cbn. discriminate. Defined.

Lemma burst_processes_last_witness :
  reachable ownerId never247 pendingJoin /\
  Forall (foreignTo ownerId "G1") [elsewhere] /\
  forall at_,
    fire never247 at_ 0
      (foldl (deliver ownerId)
         (handleVoiceStateUpdate ownerId 1200 ownerId inA inB pendingJoin) [elsewhere])
    = None.
Proof.
  split; [apply pendingJoin_reachable|]. split; [apply elsewhere_foreign|].
  intros at_.
  destruct (burst_processes_last ownerId never247 1200 inA inB [elsewhere] pendingJoin
              pendingJoin_reachable elsewhere_foreign) as [H _].
  apply (H 0 at_). vm_compute. reflexivity.
Defined.

Lemma burst_ending_in_place_is_dropped_witness :
  reachable ownerId never247 pendingJoin /\
  Forall (foreignTo ownerId "G1") [elsewhere] /\
  channelId inA = channelId inA /\
  exists f'',
    fire never247 1700 1
      (foldl (deliver ownerId)
         (handleVoiceStateUpdate ownerId 1200 ownerId inA inA pendingJoin) [elsewhere])
    = Some (None, f'').
Proof.
  split; [apply pendingJoin_reachable|]. split; [apply elsewhere_foreign|].
  split; [reflexivity|].
  destruct (fire never247 1700 1
      (foldl (deliver ownerId)
         (handleVoiceStateUpdate ownerId 1200 ownerId inA inA pendingJoin) [elsewhere]))
    as [[op f'']|] eqn:E; [|vm_compute in E; discriminate].
  exists f''. f_equal. f_equal.
  apply (burst_ending_in_place_is_dropped ownerId never247 1200 inA inA [elsewhere]
           pendingJoin pendingJoin_reachable elsewhere_foreign eq_refl 1 1700 op f'');
    [|exact E].
  do 3 eexists. split; [vm_compute; reflexivity|reflexivity].
Defined.

Lemma cleanup_disarms_witness :
  reachable ownerId never247 pendingJoin /\
  armed (cleanup pendingJoin) = ∅ /\
  forall now timer, fire never247 now timer (cleanup pendingJoin) = None.
Proof.
  split; [apply pendingJoin_reachable|].
  destruct (cleanup_disarms ownerId never247 pendingJoin pendingJoin_reachable)
    as (H1 & H2 & _).
  split; assumption.
Defined.
End DebounceFacts.

(* ------------------------------------------------------------------ *)
(** ** The settings file and the command [/247] *)
(* ------------------------------------------------------------------ *)

Module SettingsFacts.
Import Settings Mode247Command VoiceFollower.




End SettingsFacts.

(* ------------------------------------------------------------------ *)
(** ** The window of recent audio *)
(* ------------------------------------------------------------------ *)

Module RecentFacts.
Import Playback RecentVocabulary.

Section Facts.
Context {A : Type}.

Lemma shiftWhileLonger_drop max fuel : forall l : list A,
  length l - max <= fuel -> shiftWhileLonger A max fuel l = drop (length l - max) l.
Proof.
  induction fuel as [|fuel IH]; intros l Hf; cbn [shiftWhileLonger].
  - replace (length l - max) with 0 by lia. done.
  - destruct (Nat.ltb_spec max (length l)) as [Hlt|Hge].
    + destruct l as [|a l]; [cbn in Hlt; lia|]. cbn [tail]. cbn [length] in *.
      rewrite IH by lia.
      replace (S (length l) - max) with (S (length l - max)) by lia. done.
    + replace (length l - max) with 0 by lia. done.
Qed.

Lemma lastN_snoc n (l : list A) a : 0 < n -> lastN n (lastN n l ++ [a]) = lastN n (l ++ [a]).
Proof.
  intros Hn. unfold lastN. rewrite !length_app, length_drop. cbn [length].
  destruct (Nat.le_gt_cases (length l) n) as [Hle|Hgt].
  - replace (length l - n) with 0 by lia. cbn [drop]. do 2 f_equal. lia.
  - replace (length l - (length l - n) + 1 - n) with 1 by lia.
    rewrite drop_app_le by (rewrite length_drop; lia).
    rewrite drop_drop.
    rewrite drop_app_le by lia. do 2 f_equal. lia.
Qed.

Lemma pushRecentAudio_lookup g a (r : gmap GuildId (list A)) g' :
  default [] (pushRecentAudio A g a r !! g') =
  if decide (g = g') then lastN recentAudioMaxItems (default [] (r !! g) ++ [a])
  else default [] (r !! g').
Proof.
  unfold pushRecentAudio. case_decide as Hg.
  - subst. rewrite lookup_insert_eq. cbn [default from_option id].
    rewrite shiftWhileLonger_drop by lia. done.
  - by rewrite lookup_insert_ne.
Qed.

Lemma pushAll_stored g (calls : list (GuildId * A)) :
  default [] (pushAll calls ∅ !! g) = lastN recentAudioMaxItems (pushedFor g calls).
Proof.
  induction calls as [|[g0 a] calls IH] using rev_ind.
  - cbn. by rewrite lookup_empty.
  - unfold pushAll, pushedFor in *. rewrite foldl_app. cbn [foldl fst snd].
    rewrite pushRecentAudio_lookup, filter_app, fmap_app.
    rewrite filter_cons, filter_nil. cbn [fst].
    case_decide as Hg.
    + subst. rewrite IH. cbn [fmap list_fmap snd].
      apply lastN_snoc. unfold recentAudioMaxItems. lia.
    + rewrite IH. cbn. by rewrite app_nil_r.
Qed.

(** X13. The window of recent audio. After any sequence of
    [pushRecentAudio] calls on an empty map, the list stored for a guild
    holds the last 10 entries pushed for that guild, oldest first, and so
    never more than 10; [getRecentAudioAttachments(guildId, limit)] returns
    the last [min(limit, 10)] entries pushed for the guild, in that order,
    and nothing for a negative limit. *)
Theorem recent_audio_window g (calls : list (GuildId * A)) (limit : Z) :
  let recentAudio := pushAll calls ∅ in
  let stored := default [] (recentAudio !! g) in
  stored = lastN recentAudioMaxItems (pushedFor g calls) /\
  length stored <= recentAudioMaxItems /\
  getRecentAudioAttachments A g limit recentAudio
  = lastN (Nat.min (Z.to_nat limit) recentAudioMaxItems) (pushedFor g calls).
Proof.
  cbv zeta. pose proof (pushAll_stored g calls) as Hs. split; [done|]. split.
  - rewrite Hs. unfold lastN. rewrite length_drop. lia.
  - unfold getRecentAudioAttachments. rewrite Hs. unfold lastN.
    rewrite length_drop, drop_drop.
    destruct (Z.lt_ge_cases limit 0) as [Hneg|Hpos].
    + rewrite !drop_ge by lia. done.
    + f_equal. lia.
Qed.
End Facts.
End RecentFacts.

(* ------------------------------------------------------------------ *)
(** ** Sanitized text and the routing of the player *)
(* ------------------------------------------------------------------ *)

Module TextFacts.
Import TtsQueue QueueVocabulary DispatchVocabulary.

Lemma dropWhile_drop p s : exists k, dropWhile p s = drop k s.
Proof.
  induction s as [|c s [k IH]]; [by exists 0|]. cbn.
  destruct (p c); [by exists (S k)|by exists 0].
Qed.

Lemma dropWhile_first p s c r : dropWhile p s = c :: r -> p c = false.
Proof.
  induction s as [|a s IH]; cbn; [done|].
  destruct (p a) eqn:E; [done|]. by intros [= <- _].
Qed.

Lemma dropWhileEnd_take p s : exists k, dropWhileEnd p s = take k s.
Proof.
  unfold dropWhileEnd. destruct (dropWhile_drop p (rev s)) as [k ->].
  rewrite skipn_rev, rev_involutive. eauto.
Qed.

Lemma last_rev (l : list ascii) : last (rev l) = head l.
Proof. destruct l as [|a l]; [done|]. cbn. by rewrite last_snoc. Qed.

Lemma dropWhileEnd_final p s z : last (dropWhileEnd p s) = Some z -> p z = false.
Proof.
  unfold dropWhileEnd. rewrite last_rev.
  destruct (dropWhile p (rev s)) as [|c r] eqn:E; [done|].
  intros [= <-]. by eapply dropWhile_first.
Qed.

Lemma removeAll_sublist matchAt s : forall skip, removeAll matchAt skip s `sublist_of` s.
Proof.
  induction s as [|c s IH]; intros skip; cbn; [done|].
  destruct skip as [|k]; [|by apply sublist_cons].
  destruct (matchAt (c :: s)) as [[|k]|]; first [by apply sublist_skip|by apply sublist_cons].
Qed.

Lemma trim_sublist s : trim s `sublist_of` s.
Proof.
  unfold trim. destruct (dropWhileEnd_take isWhiteSpace (dropWhile isWhiteSpace s)) as [k ->].
  destruct (dropWhile_drop isWhiteSpace s) as [j ->].
  etrans; [apply sublist_take|apply sublist_drop].
Qed.

Lemma trim_head s c r : trim s = c :: r -> isWhiteSpace c = false.
Proof.
  unfold trim. destruct (dropWhileEnd_take isWhiteSpace (dropWhile isWhiteSpace s)) as [k ->].
  destruct (dropWhile isWhiteSpace s) as [|a t] eqn:E; [by rewrite take_nil|].
  destruct k; [done|]. cbn. intros [= <- _]. by eapply dropWhile_first.
Qed.

Section Facts.
Variable maxChars : Z.
Variable subscribe : ConnId -> bool.

(** X14. [sanitizeText] only deletes: its result is a subsequence of the
    input. The result is never longer than [maxChars] (and empty when
    [maxChars] is negative), never starts with white space, and, when the
    input is not longer than [maxChars], never ends with white space
    either. *)
Theorem sanitizeText_shape text :
  let sanitized := sanitizeText maxChars text in
  sanitized `sublist_of` text /\
  (Z.of_nat (length sanitized) <= Z.max 0 maxChars)%Z /\
  (forall c rest, sanitized = c :: rest -> isWhiteSpace c = false) /\
  ((Z.of_nat (length text) <= maxChars)%Z ->
   forall z, last sanitized = Some z -> isWhiteSpace z = false).
Proof.
  cbv zeta. unfold sanitizeText.
  set (t := removeAll matchChannel 0 _).
  assert (t `sublist_of` text) as Ht.
  { unfold t. repeat (etrans; [apply removeAll_sublist|]). done. }
  assert (trim t `sublist_of` text) as Htr by (etrans; [apply trim_sublist|done]).
  destruct (Z.ltb_spec maxChars (Z.of_nat (length (trim t)))) as [Hlt|Hge].
  - split; [etrans; [apply sublist_take|done]|]. split; [rewrite length_take; lia|]. split.
    + intros c rest. destruct (trim t) as [|a r] eqn:E; [by rewrite take_nil|].
      destruct (Z.to_nat maxChars); [done|]. cbn. intros [= <- _]. by eapply trim_head.
    + intros Hlen. apply sublist_length in Htr. lia.
  - split; [done|]. split; [lia|]. split; [apply trim_head|].
    intros _ z. unfold trim. apply dropWhileEnd_final.
Qed.

(** X15. When [processQueue] takes an item, it is the head of the queue of
    the guild, the player of the guild is idle and no other call is
    processing; the guild has a current connection, and afterwards the
    player is subscribed to that connection, or to none if the transport
    refuses the subscription now and the player was not subscribed to it
    before: it is never left subscribed to an earlier connection. The
    queues, flags and subscriptions of other guilds are untouched. *)
Theorem dispatch_routes_to_current_connection g q item q' :
  processQueue_begin subscribe g q = (Some item, q') ->
  exists c rest,
    getConnectionOrNull g q = Some c /\
    queues q !! g = Some (item :: rest) /\ queues q' !! g = Some rest /\
    players q !! g = Some Idle /\
    processing q !! g <> Some true /\ processing q' !! g = Some true /\
    subscriptions q' !! g =
      (if bool_decide (subscriptions q !! g = Some c) || subscribe c then Some c else None) /\
    (forall g', g' <> g ->
       queues q' !! g' = queues q !! g' /\ processing q' !! g' = processing q !! g' /\
       subscriptions q' !! g' = subscriptions q !! g').
Proof.
  unfold processQueue_begin.
  destruct (processing q !! g) as [b|] eqn:Ep.
  1: destruct b; [done|].
  all: destruct (queues q !! g) as [[|i rest]|] eqn:Eq; try done.
  all: destruct (players q !! g) as [[| | | |]|] eqn:Epl; try done.
  all: destruct (getConnectionOrNull g q) as [c|] eqn:Ec; [|done].
  all: intros [= <- <-]; exists c, rest; cbn.
  all: rewrite !lookup_insert_eq.
  all: repeat (split; [done|]).
  all: destruct (QueueFacts.ensureSubscribed_frame subscribe g c q) as (Hq & _ & Hp & _).
  all: cbv zeta in Hq, Hp; rewrite ?Hq, ?Hp.
  all: split.
  all: try (intros g' Hne; rewrite !lookup_insert_ne by done; rewrite ?Hq, ?Hp; split; [done|]; split; [done|]).
  all: unfold ensureSubscribed; case_bool_decide as Hs; cbn [orb].
  all: try (by rewrite ?Hs).
  all: destruct (subscriptions q !! g) eqn:Es; destruct (subscribe c); cbn.
  all: rewrite ?lookup_insert_eq, ?lookup_insert_ne, ?lookup_delete_eq, ?lookup_delete_ne by done; done.
Qed.
End Facts.

Lemma dispatch_routes_to_current_connection_witness :
  exists item q',
    processQueue_begin granted "G1" pushedHello = (Some item, q') /\
    getConnectionOrNull "G1" pushedHello = Some 0 /\
    subscriptions q' !! "G1" = Some 0.
Proof.
  destruct (processQueue_begin granted "G1" pushedHello) as [[item|] q'] eqn:E;
    [|vm_compute in E; discriminate].
  exists item, q'. split; [reflexivity|].
  destruct (dispatch_routes_to_current_connection granted "G1" pushedHello item q' E)
    as (c & rest & Hc & _ & _ & _ & _ & _ & Hs & _).
  assert (c = 0) as -> by (vm_compute in Hc; congruence).
  split; [exact Hc|]. rewrite Hs. reflexivity.
Defined.
End TextFacts.

(* ------------------------------------------------------------------ *)
(** ** [stop] and [cleanup] of the queue *)
(* ------------------------------------------------------------------ *)

Module StopFacts.
Import TtsQueue QueueVocabulary Playback.

Section Facts.
Variable maxChars : Z.
Variable soundsDir : list ascii.
Variable isFile : list ascii -> bool.
Variable subscribe : ConnId -> bool.

Local Abbreviation enqueue := (enqueue maxChars soundsDir isFile subscribe).
Local Abbreviation enqueue_push := (enqueue_push maxChars soundsDir isFile subscribe).
Local Abbreviation processQueue_begin := (processQueue_begin subscribe).
Local Abbreviation sanitizeText := (sanitizeText maxChars).
Local Abbreviation splitIntoSegments := (splitIntoSegments soundsDir isFile).
Local Abbreviation pushSegments := (pushSegments maxChars).

Lemma enqueue_cases g text c now time q :
  enqueue g text c now time q =
  if (now - lastOf g q <? minRequestInterval)%Z then (Throws rateLimitError, q)
  else
    let q1 := set_currentConnections (<[g := c]> (currentConnections q))
                (set_lastRequestTime (<[g := now]> (lastRequestTime q)) q) in
    match sanitizeText text with
    | [] => (Throws emptyTextError, q1)
    | a :: t =>
      let '(item, q2) := processQueue_begin g (enqueue_push g (a :: t) c time q1) in
      (Returns item, q2)
    end.
Proof.
  unfold TtsQueue.enqueue. rewrite QueueFacts.checkRateLimit_spec.
  destruct (_ <? _)%Z; [done|]. cbn [negb]. cbv zeta.
  by destruct (sanitizeText text).
Qed.

Lemma enqueue_push_players g text c time q :
  players (enqueue_push g text c time q) = 
  match players q !! g with
  | Some _ => players q
  | None => <[g := Idle]> (players q)
  end.
Proof.
  unfold TtsQueue.enqueue_push. cbv zeta.
  match goal with |- context [ensureSubscribed subscribe g c ?q0] =>
    destruct (QueueFacts.ensureSubscribed_frame subscribe g c q0) as (_ & -> & _) end.
  destruct (queues q !! g) eqn:Eq; cbn;
  (destruct (players q !! g) eqn:Ep; cbn; [done|];
   match goal with |- context [ensureSubscribed subscribe g c ?q0] =>
     by destruct (QueueFacts.ensureSubscribed_frame subscribe g c q0) as (_ & -> & _) end).
Qed.

Lemma processQueue_begin_takes g q item rest c :
  processing q !! g <> Some true ->
  queues q !! g = Some (item :: rest) ->
  players q !! g = Some Idle ->
  getConnectionOrNull g q = Some c ->
  (processQueue_begin g q).1 = Some item.
Proof.
  intros Hp Hq Hpl Hc. unfold TtsQueue.processQueue_begin.
  rewrite Hq, Hpl, Hc. by destruct (processing q !! g) as [[|]|].
Qed.

Lemma processQueue_begin_nothing g q :
  default [] (queues q !! g) = [] -> processQueue_begin g q = (None, q).
Proof.
  intros Hq. unfold TtsQueue.processQueue_begin.
  destruct (queues q !! g) as [[|i r]|]; cbn in Hq; try done;
    by destruct (processing q !! g) as [[|]|].
Qed.

(** X16. [stop(guildId)] empties the queue of the guild and clears its
    processing flag, and nothing else: player, subscription, current
    connection and the time stamp of the rate limit stay, as does
    everything of other guilds. Right after it [processQueue] takes
    nothing, a second [stop] changes nothing, and an [enqueue] that comes
    less than [minRequestInterval] after the last call that passed the
    rate limit is still rejected. *)
Theorem stop_effects g q :
  let q' := stop g q in
  default [] (queues q' !! g) = [] /\
  processing q' !! g = Some false /\
  players q' = players q /\ subscriptions q' = subscriptions q /\
  currentConnections q' = currentConnections q /\ lastRequestTime q' = lastRequestTime q /\
  (forall g', g' <> g ->
     queues q' !! g' = queues q !! g' /\ processing q' !! g' = processing q !! g') /\
  processQueue_begin g q' = (None, q') /\
  stop g q' = q' /\
  (forall text c now time,
     (now - lastOf g q < minRequestInterval)%Z ->
     enqueue g text c now time q' = (Throws rateLimitError, q')).
Proof.
  cbv zeta.
  assert (default [] (queues (stop g q) !! g) = []) as Hq.
  { unfold stop. destruct (queues q !! g) eqn:E; cbn; [by rewrite lookup_insert_eq|by rewrite E]. }
  split; [done|]. split; [unfold stop; cbn; by rewrite lookup_insert_eq|].
  split; [unfold stop; by destruct (queues q !! g)|].
  split; [unfold stop; by destruct (queues q !! g)|].
  split; [unfold stop; by destruct (queues q !! g)|].
  split; [unfold stop; by destruct (queues q !! g)|].
  split.
  { intros g' Hne. unfold stop. destruct (queues q !! g); cbn;
      rewrite ?lookup_insert_ne by done; done. }
  split; [by apply processQueue_begin_nothing|].
  split.
  { unfold stop. destruct (queues q !! g) eqn:E; cbn.
    - rewrite lookup_insert_eq. cbn. by rewrite !insert_insert_eq.
    - rewrite E. cbn. by rewrite insert_insert_eq. }
  intros text c now time Hlt. apply QueueFacts.enqueue_limited.
  unfold lastOf, stop in *. by destruct (queues q !! g).
Qed.

Lemma enqueue_unknown_guild g text c now time q :
  queues q !! g = None -> players q !! g = None -> processing q !! g = None ->
  lastRequestTime q !! g = None ->
  (minRequestInterval <= now)%Z ->
  (enqueue g text c now time q).1 =
  match sanitizeText text with
  | [] => Throws emptyTextError
  | sanitized => Returns (head (pushSegments g time 0 (splitIntoSegments sanitized) []))
  end.
Proof.
  intros Hq Hpl Hp Hl Hnow. rewrite enqueue_cases. unfold lastOf. rewrite Hl. cbn [default from_option id].
  rewrite (proj2 (Z.ltb_ge _ _)) by lia. cbv zeta.
  destruct (sanitizeText text) as [|a t] eqn:Es; [done|].
  set (q1 := set_currentConnections _ _).
  pose proof (SegmentFacts.enqueue_push_queue maxChars soundsDir isFile subscribe g (a :: t) c time q1) as Hqueue.
  pose proof (enqueue_push_players g (a :: t) c time q1) as Hplayers.
  destruct (QueueFacts.enqueue_push_frame maxChars soundsDir isFile subscribe g (a :: t) c time q1)
    as (Hcc & _ & Hproc).
  cbv zeta in Hcc, Hproc.
  assert (queues q1 !! g = None) as Hq1 by done. rewrite Hq1 in Hqueue.
  assert (players q1 !! g = None) as Hpl1 by done. rewrite Hpl1 in Hplayers.
  cbn [default from_option id] in Hqueue.
  set (q2 := enqueue_push g (a :: t) c time q1) in *.
  destruct (pushSegments g time 0 (splitIntoSegments (a :: t)) []) as [|item rest] eqn:Eitems.
  - rewrite processQueue_begin_nothing by (by rewrite Hqueue). done.
  - pose proof (processQueue_begin_takes g q2 item rest c) as Ht.
    destruct (processQueue_begin g q2) as [r q3]. cbn in *. rewrite Ht; [done| | | |].
    + rewrite Hproc. unfold q1. cbn. by rewrite Hp.
    + done.
    + rewrite Hplayers. by rewrite lookup_insert_eq.
    + unfold getConnectionOrNull. rewrite Hcc. unfold q1. cbn. by rewrite lookup_insert_eq.
Qed.

(** X17. [cleanup(guildId)] of the queue removes the entries of the guild
    from all six maps and leaves the entries of other guilds alone. The
    guild is forgotten: the next [enqueue] for it returns or throws exactly
    what it would on a queue that has never been used. *)
Theorem queue_cleanup_forgets_guild g q :
  let q' := cleanup g q in
  (queues q' !! g = None /\ players q' !! g = None /\ subscriptions q' !! g = None /\
   processing q' !! g = None /\ currentConnections q' !! g = None /\
   lastRequestTime q' !! g = None) /\
  (forall g', g' <> g ->
     queues q' !! g' = queues q !! g' /\ players q' !! g' = players q !! g' /\
     subscriptions q' !! g' = subscriptions q !! g' /\
     processing q' !! g' = processing q !! g' /\
     currentConnections q' !! g' = currentConnections q !! g' /\
     lastRequestTime q' !! g' = lastRequestTime q !! g') /\
  (forall text c now time,
     (enqueue g text c now time q').1 = (enqueue g text c now time empty).1).
Proof.
  cbv zeta.
  assert (queues (cleanup g q) !! g = None /\ players (cleanup g q) !! g = None /\
          subscriptions (cleanup g q) !! g = None /\ processing (cleanup g q) !! g = None /\
          currentConnections (cleanup g q) !! g = None /\
          lastRequestTime (cleanup g q) !! g = None) as H.
  { unfold cleanup. cbn. by rewrite !lookup_delete_eq. }
  split; [exact H|]. split.
  - intros g' Hne. unfold cleanup, stop. cbn. rewrite !lookup_delete_ne by done.
    destruct (queues q !! g); cbn; rewrite ?lookup_insert_ne by done; done.
  - intros text c now time. destruct H as (H1 & H2 & _ & H4 & _ & H6).
    destruct (Z.lt_ge_cases now minRequestInterval) as [Hlt|Hnow].
    + rewrite !QueueFacts.enqueue_limited; [done| |]; unfold lastOf.
      * cbn. rewrite lookup_empty. cbn. lia.
      * rewrite H6. cbn. lia.
    + rewrite !enqueue_unknown_guild; done.
Qed.
End Facts.
End StopFacts.

(* ------------------------------------------------------------------ *)
(** ** Playback under interleaving *)
(* ------------------------------------------------------------------ *)

Module PlaybackFacts.
Import TtsQueue QueueVocabulary Playback PlaybackVocabulary StopFacts.

Section Facts.
Variable maxChars : Z.
Variable soundsDir : list ascii.
Variable isFile : list ascii -> bool.
Variable subscribe : ConnId -> bool.

Local Abbreviation enqueue := (enqueue maxChars soundsDir isFile subscribe).
Local Abbreviation enqueue_push := (enqueue_push maxChars soundsDir isFile subscribe).
Local Abbreviation processQueue_begin := (processQueue_begin subscribe).
Local Abbreviation processQueue_finally := (processQueue_finally subscribe).
Local Abbreviation sanitizeText := (sanitizeText maxChars).
Local Abbreviation splitIntoSegments := (splitIntoSegments soundsDir isFile).
Local Abbreviation pushSegments := (pushSegments maxChars).
Local Abbreviation step := (step maxChars soundsDir isFile subscribe).
Local Abbreviation run := (run maxChars soundsDir isFile subscribe).
Local Abbreviation pushedBy := (pushedBy maxChars soundsDir isFile subscribe).
Local Abbreviation pushedAlong := (pushedAlong maxChars soundsDir isFile subscribe).
Local Abbreviation itemsOfRequest := (itemsOfRequest maxChars soundsDir isFile).

(** *** Lists of flights *)

Lemma countActive_app g fls1 fls2 :
  countActive g (fls1 ++ fls2) = countActive g fls1 + countActive g fls2.
Proof. unfold countActive. by rewrite List.filter_app, length_app. Qed.

Lemma dispatched_app g fls1 fls2 :
  dispatched g (fls1 ++ fls2) = dispatched g fls1 ++ dispatched g fls2.
Proof. unfold dispatched. by rewrite List.filter_app, map_app. Qed.

Lemma countActive_cons g fl fls :
  countActive g (fl :: fls) = (if activeOf g fl then 1 else 0) + countActive g fls.
Proof. unfold countActive. cbn [List.filter]. by destruct (activeOf g fl). Qed.

Lemma countActive_insert g fls t old new :
  fls !! t = Some old ->
  countActive g (<[t := new]> fls) + (if activeOf g old then 1 else 0)
  = countActive g fls + (if activeOf g new then 1 else 0).
Proof.
  intros Ht. pose proof (lookup_lt_Some _ _ _ Ht) as Hlt.
  rewrite insert_take_drop by done.
  rewrite <- (take_drop_middle fls t old Ht) at 3.
  rewrite !countActive_app, !countActive_cons. lia.
Qed.

Lemma dispatched_insert g fls t old new :
  fls !! t = Some old ->
  flight_guild new = flight_guild old -> flight_item new = flight_item old ->
  dispatched g (<[t := new]> fls) = dispatched g fls.
Proof.
  intros Ht Hg Hi. pose proof (lookup_lt_Some _ _ _ Ht) as Hlt.
  rewrite insert_take_drop by done.
  rewrite <- (take_drop_middle fls t old Ht) at 3.
  rewrite !dispatched_app. f_equal. unfold dispatched. cbn [List.filter].
  rewrite Hg. destruct (bool_decide _); cbn [map]; by rewrite ?Hi.
Qed.

Lemma countActive_launch g g' taken :
  countActive g' (launch g taken) =
  match taken with
  | Some _ => if bool_decide (g = g') then 1 else 0
  | None => 0
  end.
Proof.
  destruct taken; [|done]. unfold countActive, activeOf. cbn.
  by destruct (bool_decide (g = g')).
Qed.

Lemma dispatched_launch g g' taken :
  dispatched g' (launch g taken) =
  match taken with
  | Some item => if bool_decide (g = g') then [item] else []
  | None => []
  end.
Proof.
  destruct taken; [|done]. unfold dispatched. cbn.
  by destruct (bool_decide (g = g')).
Qed.

(** *** [processQueue] up to its first await *)

Lemma processQueue_begin_spec g q :
  connectionKnown q ->
  let '(taken, q') := processQueue_begin g q in
  players q' = players q /\ currentConnections q' = currentConnections q /\
  lastRequestTime q' = lastRequestTime q /\
  match taken with
  | Some item =>
    exists rest, queues q !! g = Some (item :: rest) /\
                 queues q' = <[g := rest]> (queues q) /\
                 isProcessing g q = false /\
                 processing q' = <[g := true]> (processing q)
  | None => queues q' = queues q /\ processing q' = processing q
  end.
Proof.
  intros Hk. pose proof (QueueFacts.processQueue_begin_frame subscribe g q) as Hf.
  cbv zeta in Hf. destruct (processQueue_begin g q) as [taken q'] eqn:E.
  cbn in Hf. destruct Hf as (Hpl & Hc & Hl). repeat (split; [done|]).
  unfold TtsQueue.processQueue_begin in E.
  assert (isProcessing g q = match processing q !! g with Some true => true | _ => false end) as Hip.
  { unfold isProcessing. destruct (processing q !! g) as [[|]|]; done. }
  destruct (processing q !! g) as [[|]|] eqn:Ep; [by injection E as <- <-| |];
  (destruct (queues q !! g) as [[|item rest]|] eqn:Eq; [by injection E as <- <-| |by injection E as <- <-];
   destruct (players q !! g) as [[| | | |]|]; try (by injection E as <- <-);
   pose proof (Hk g item rest Eq) as Hcon; unfold getConnectionOrNull in E;
   destruct (currentConnections q !! g) as [c|]; [|done];
   injection E as <- <-; exists rest; cbn;
   destruct (QueueFacts.ensureSubscribed_frame subscribe g c q) as (Hq' & _ & Hp' & _);
   cbv zeta in Hq', Hp'; rewrite Hq', Hp'; done).
Qed.

Lemma isProcessing_insert g g' b pr q :
  processing q = <[g := b]> pr ->
  isProcessing g' q = if bool_decide (g = g') then b
                      else bool_decide (pr !! g' = Some true).
Proof.
  intros H. unfold isProcessing. rewrite H. destruct (decide (g = g')) as [<-|Hg].
  - rewrite lookup_insert_eq, (bool_decide_eq_true_2 (g = g)) by done.
    destruct b; [by rewrite bool_decide_eq_true_2|by rewrite bool_decide_eq_false_2].
  - by rewrite lookup_insert_ne, (bool_decide_eq_false_2 (g = g')).
Qed.

(** What a call of [processQueue] does to the three properties. *)
Lemma launch_spec g q fls :
  connectionKnown q -> flightInv q fls ->
  let '(taken, q') := processQueue_begin g q in
  connectionKnown q' /\ flightInv q' (fls ++ launch g taken) /\
  forall g', dispatched g' (fls ++ launch g taken) ++ queued g' q'
             = dispatched g' fls ++ queued g' q.
Proof.
  intros Hk Hf. pose proof (processQueue_begin_spec g q Hk) as H.
  destruct (processQueue_begin g q) as [taken q'].
  destruct H as (Hpl & Hc & Hl & H). destruct taken as [item|].
  - destruct H as (rest & Hq & Hq' & Hip & Hp'). split; [|split].
    + intros g' i r. rewrite Hq', Hc. rewrite lookup_insert. case_decide as Hg.
      * subst g'. intros _. by eapply Hk.
      * apply Hk.
    + intros g'. rewrite countActive_app, countActive_launch, Hf.
      rewrite (isProcessing_insert g g' true (processing q) q' Hp').
      case_bool_decide as Hg; [subst; by rewrite Hip|].
      fold (isProcessing g' q). lia.
    + intros g'. rewrite dispatched_app, dispatched_launch. unfold queued.
      rewrite Hq', lookup_insert. case_bool_decide as Hg.
      * subst g'. rewrite decide_True by done. rewrite Hq. cbn. by rewrite <- app_assoc.
      * rewrite decide_False by done. by rewrite app_nil_r.
  - destruct H as [Hq' Hp']. cbn [launch]. rewrite !app_nil_r. split; [|split].
    + intros g' i r. rewrite Hq', Hc. apply Hk.
    + intros g'. rewrite Hf. unfold isProcessing. by rewrite Hp'.
    + intros g'. unfold queued. by rewrite Hq'.
Qed.

(** *** The loop of [enqueue] *)

Lemma pushSegments_app g time segments : forall i queue,
  pushSegments g time i segments queue = queue ++ pushSegments g time i segments [].
Proof.
  induction segments as [|seg segments IH]; intros i queue; cbn.
  - by rewrite app_nil_r.
  - destruct seg as [text|key filePath].
    + destruct (sanitizeText text) as [|a t]; [apply IH|].
      rewrite (IH _ (queue ++ _)), (IH _ [_]). by rewrite <- app_assoc.
    + rewrite (IH _ (queue ++ _)), (IH _ [_]). by rewrite <- app_assoc.
Qed.

Lemma enqueue_push_queues g text c time q g' :
  queues (enqueue_push g text c time q) !! g' =
  if decide (g = g')
  then Some (default [] (queues q !! g) ++ pushSegments g time 0 (splitIntoSegments text) [])
  else queues q !! g'.
Proof.
  case_decide as Hg.
  - subst. rewrite (SegmentFacts.enqueue_push_queue maxChars soundsDir isFile subscribe).
    by rewrite pushSegments_app.
  - unfold TtsQueue.enqueue_push. cbv zeta.
    match goal with |- context [ensureSubscribed subscribe g c ?q0] =>
      destruct (QueueFacts.ensureSubscribed_frame subscribe g c q0) as (-> & _) end.
    set (q0 := match queues q !! g with Some _ => q | None => _ end).
    assert (queues q0 !! g' = queues q !! g') as Hq0.
    { unfold q0. destruct (queues q !! g); [done|]. cbn. by rewrite lookup_insert_ne. }
    destruct (players _ !! g); cbn.
    + by rewrite lookup_insert_ne.
    + match goal with |- context [ensureSubscribed subscribe g c ?q1] =>
        destruct (QueueFacts.ensureSubscribed_frame subscribe g c q1) as (-> & _) end.
      cbn. by rewrite lookup_insert_ne.
Qed.

(** *** The steps *)

Lemma step_spec e σ σ' :
  isStop e = false ->
  step e σ = Some σ' ->
  playbackInv σ ->
  playbackInv σ' /\
  forall g, dispatched g (flights σ') ++ queued g (queue σ')
            = dispatched g (flights σ) ++ queued g (queue σ) ++ pushedBy g e σ.
Proof.
  intros Hns Hstep [Hk Hf].
  destruct e as [r|t started|t|g0|g0|g0 status|g0]; cbn in Hns; [| | | | | |done];
    cbn [Playback.step] in Hstep.
  - (* enqueue *)
    unfold PlaybackVocabulary.pushedBy.
    rewrite enqueue_cases in *.
    set (g0 := req_guildId r) in *.
    destruct (_ <? _)%Z.
    { injection Hstep as <-. cbn [queue flights launch]. rewrite app_nil_r. split; [done|].
      intros g. rewrite andb_false_r. by rewrite !app_nil_r. }
    cbv zeta in *.
    set (q1 := set_currentConnections _ _) in *.
    assert (connectionKnown q1) as Hk1.
    { intros g i rs Hq. unfold q1. cbn. rewrite lookup_insert.
      case_decide; [done|]. by eapply Hk. }
    destruct (sanitizeText (req_text r)) as [|a t] eqn:Es.
    { injection Hstep as <-. cbn [queue flights launch]. rewrite app_nil_r. split; [done|].
      intros g. rewrite andb_false_r. by rewrite !app_nil_r. }
    set (q2 := enqueue_push g0 (a :: t) (req_connection r) (req_stamp r) q1) in *.
    destruct (QueueFacts.enqueue_push_frame maxChars soundsDir isFile subscribe
                g0 (a :: t) (req_connection r) (req_stamp r) q1) as (Hc2 & _ & Hp2).
    cbv zeta in Hc2, Hp2. fold q2 in Hc2, Hp2.
    assert (connectionKnown q2) as Hk2.
    { intros g i rs. rewrite Hc2. unfold q2. rewrite enqueue_push_queues. case_decide as Hg.
      - subst g. intros _. unfold q1. cbn. by rewrite lookup_insert_eq.
      - apply Hk1. }
    assert (flightInv q2 (flights σ)) as Hf2.
    { intros g. rewrite Hf. unfold isProcessing. by rewrite Hp2. }
    pose proof (launch_spec g0 q2 (flights σ) Hk2 Hf2) as Hl.
    destruct (processQueue_begin g0 q2) as [taken q3].
    injection Hstep as <-. cbn [queue flights fst isAccepted].
    destruct Hl as (Hk3 & Hf3 & Hd3). split; [done|].
    intros g. rewrite Hd3. f_equal. unfold queued, q2. rewrite enqueue_push_queues.
    rewrite andb_true_r. unfold PlaybackVocabulary.itemsOfRequest. fold g0. rewrite Es.
    case_decide as Hg.
    + subst g. rewrite bool_decide_eq_true_2 by done. done.
    + rewrite bool_decide_eq_false_2 by done. by rewrite app_nil_r.
  - (* the resource is there *)
    destruct (flights σ !! t) as [[g0 item|g0 item|g0 item]|] eqn:Et; try done.
    injection Hstep as <-. cbn [queue flights launch]. split; [split|].
    + exact Hk.
    + intros g. pose proof (countActive_insert g (flights σ) t _ (AwaitPlaying g0 item) Et) as Hc.
      pose proof (Hf g) as Hfg. unfold activeOf in Hc. cbn in Hc.
      unfold isProcessing in *. cbn [queue flights set_players processing].
      destruct (bool_decide (g0 = g)); cbn in Hc; lia.
    + intros g. rewrite app_nil_r.
      by rewrite (dispatched_insert g (flights σ) t (AwaitResource g0 item)).
  - (* the flight leaves its try block *)
    assert (exists g0 item old, flights σ !! t = Some old /\ flight_guild old = g0 /\
              flight_item old = item /\ inFlight old = true /\
              (let '(taken, q) := processQueue_finally g0 (queue σ) in
               Some {| queue := q;
                       flights := <[t := Finished g0 item]> (flights σ) ++ launch g0 taken |})
              = Some σ') as (g0 & item & old & Et & Hg0 & Hi0 & Hin & Hstep').
    { destruct (flights σ !! t) as [[g0 item|g0 item|g0 item]|] eqn:Et; try done;
        eexists g0, item, _; eauto. }
    clear Hstep. unfold Playback.processQueue_finally in Hstep'. cbv zeta in Hstep'.
    set (q1 := set_processing _ _) in *.
    set (fls1 := <[t := Finished g0 item]> (flights σ)) in *.
    assert (connectionKnown q1) as Hk1 by exact Hk.
    assert (flightInv q1 fls1) as Hf1.
    { intros g. pose proof (countActive_insert g (flights σ) t old (Finished g0 item) Et) as Hc.
      fold fls1 in Hc. rewrite Hf in Hc.
      rewrite (isProcessing_insert g0 g false (processing (queue σ)) q1 eq_refl).
      fold (isProcessing g (queue σ)).
      unfold activeOf in Hc. cbn in Hc. rewrite Hg0, Hin in Hc. rewrite andb_false_r in Hc.
      destruct (bool_decide (g0 = g)); cbn [andb] in Hc;
        destruct (isProcessing g (queue σ)); lia. }
    assert (forall g, dispatched g fls1 ++ queued g q1
                      = dispatched g (flights σ) ++ queued g (queue σ)) as Hd1.
    { intros g. unfold fls1. by rewrite (dispatched_insert g (flights σ) t old). }
    assert (forall g, pushedBy g (Leave t) σ = []) as Hpb by done.
    destruct (queues q1 !! g0) as [[|i rs]|] eqn:Eq.
    + injection Hstep' as <-. cbn [queue flights launch]. rewrite app_nil_r. split; [done|].
      intros g. by rewrite Hd1, app_nil_r.
    + pose proof (launch_spec g0 q1 fls1 Hk1 Hf1) as Hl.
      destruct (processQueue_begin g0 q1) as [taken q2].
      injection Hstep' as <-. cbn [queue flights launch]. destruct Hl as (Hk2 & Hf2 & Hd2). split; [done|].
      intros g. by rewrite Hd2, Hd1, app_nil_r.
    + injection Hstep' as <-. cbn [queue flights launch]. rewrite app_nil_r. split; [done|].
      intros g. by rewrite Hd1, app_nil_r.
  - (* the player becomes idle *)
    destruct (players (queue σ) !! g0) as [st|]; [|done].
    destruct (isIdle st); [done|].
    set (q1 := set_players _ _) in *.
    pose proof (launch_spec g0 q1 (flights σ) Hk Hf) as Hl.
    destruct (processQueue_begin g0 q1) as [taken q2].
    injection Hstep as <-. cbn [queue flights launch]. destruct Hl as (Hk2 & Hf2 & Hd2). split; [done|].
    intros g. by rewrite Hd2, app_nil_r.
  - (* the player emits an error *)
    destruct (players (queue σ) !! g0) as [st|]; [|done].
    pose proof (launch_spec g0 (queue σ) (flights σ) Hk Hf) as Hl.
    destruct (processQueue_begin g0 (queue σ)) as [taken q2].
    injection Hstep as <-. cbn [queue flights launch]. destruct Hl as (Hk2 & Hf2 & Hd2). split; [done|].
    intros g. by rewrite Hd2, app_nil_r.
  - (* the player changes its status *)
    destruct (players (queue σ) !! g0) as [st|]; [|done].
    destruct (isIdle st || isIdle status); [done|].
    injection Hstep as <-. cbn [queue flights launch]. split; [done|]. intros g. by rewrite app_nil_r.
Qed.

Lemma run_spec es : forall σ σ',
  Forall (fun e => isStop e = false) es ->
  run es σ = Some σ' ->
  playbackInv σ ->
  playbackInv σ' /\
  forall g, dispatched g (flights σ') ++ queued g (queue σ')
            = dispatched g (flights σ) ++ queued g (queue σ) ++ pushedAlong g es σ.
Proof.
  induction es as [|e es IH]; intros σ σ' Hns; cbn.
  - intros [= <-] Hi. split; [done|]. intros g. by rewrite app_nil_r.
  - apply Forall_cons in Hns as [He Hes].
    destruct (step e σ) as [σ1|] eqn:E; [|done].
    intros Hrun Hi. destruct (step_spec e σ σ1 He E Hi) as [Hi1 Hd1].
    destruct (IH σ1 σ' Hes Hrun Hi1) as [Hi' Hd'].
    split; [done|]. intros g. rewrite Hd', app_assoc, Hd1. by rewrite <- !app_assoc.
Qed.

Lemma playbackInv_initial : playbackInv initialSystem.
Proof.
  split.
  - intros g i r. cbn. by rewrite lookup_empty.
  - intros g. unfold isProcessing. cbn. rewrite lookup_empty. done.
Qed.

(** X18. Single flight. In every run of the queue without a call of
    [stop], whatever the order of [enqueue] calls, player events and
    resumptions, at most one call of [processQueue] per guild is between
    taking an item and its [finally] block, and there is one exactly
    while the [processing] flag of the guild is set. *)
Theorem single_flight es σ g :
  Forall (fun e => isStop e = false) es ->
  run es initialSystem = Some σ ->
  countActive g (flights σ) <= 1 /\
  (countActive g (flights σ) = 1 <-> processing (queue σ) !! g = Some true).
Proof.
  intros Hns Hrun.
  destruct (run_spec es initialSystem σ Hns Hrun playbackInv_initial)
    as [[_ Hf] _].
  rewrite Hf. unfold isProcessing. case_bool_decide; split; try lia; done.
Qed.

(** X19. Playback is first in, first out and loses nothing. In every run
    of the queue without a call of [stop], the items taken for playback for
    a guild so far, followed by the items still in its queue, are exactly
    the items pushed by the accepted [enqueue] calls for the guild, in the
    order of the calls; in particular the branch of [processQueue] that
    drops the queue for want of a connection is never taken. *)
Theorem playback_is_fifo es σ g :
  Forall (fun e => isStop e = false) es ->
  run es initialSystem = Some σ ->
  dispatched g (flights σ) ++ queued g (queue σ) = pushedAlong g es initialSystem.
Proof.
  intros Hns Hrun.
  destruct (run_spec es initialSystem σ Hns Hrun playbackInv_initial)
    as [_ Hd].
  rewrite Hd. unfold queued. cbn. by rewrite lookup_empty.
Qed.
End Facts.

Lemma helloWorld_noStop : Forall (fun e => isStop e = false) helloWorld.
Proof. repeat constructor. Defined.

Lemma single_flight_witness :
  Forall (fun e => isStop e = false) helloWorld /\
  exists σ,
    run 200 (str "sounds") noFiles granted helloWorld initialSystem = Some σ /\
    countActive "G1" (flights σ) = 1 /\ processing (queue σ) !! "G1" = Some true.
Proof.
  split; [apply helloWorld_noStop|].
  destruct (single_flight 200 (str "sounds") noFiles granted helloWorld
              (default initialSystem
                 (run 200 (str "sounds") noFiles granted helloWorld initialSystem))
              "G1" helloWorld_noStop) as [_ [_ H]]; [vm_compute; reflexivity|].
  eexists. split; [vm_compute; reflexivity|]. split; [apply H|]; vm_compute; reflexivity.
Defined.

Lemma playback_is_fifo_witness :
  Forall (fun e => isStop e = false) helloWorld /\
  exists σ,
    run 200 (str "sounds") noFiles granted helloWorld initialSystem = Some σ /\
    dispatched "G1" (flights σ) ++ queued "G1" (queue σ)
    = pushedAlong 200 (str "sounds") noFiles granted "G1" helloWorld initialSystem /\
    dispatched "G1" (flights σ) =
      [tts (str "hello") {| req_guild := "G1"; req_time := 1000; req_index := 0 |};
       tts (str "world") {| req_guild := "G1"; req_time := 1300; req_index := 0 |}].
Proof.
  split; [apply helloWorld_noStop|].
  eexists. split; [vm_compute; reflexivity|]. split; [|vm_compute; reflexivity].
  apply (playback_is_fifo 200 (str "sounds") noFiles granted helloWorld _ "G1"
           helloWorld_noStop).
  vm_compute. reflexivity.
Defined.
End PlaybackFacts.

(* ------------------------------------------------------------------ *)
(** ** The queue does not stall, and what [stop] leaves running *)
(* ------------------------------------------------------------------ *)

Module StallFacts.
Import TtsQueue QueueVocabulary Playback PlaybackVocabulary StallVocabulary StopFacts.

Section Facts.
Variable maxChars : Z.
Variable soundsDir : list ascii.
Variable isFile : list ascii -> bool.
Variable subscribe : ConnId -> bool.

Local Abbreviation enqueue := (enqueue maxChars soundsDir isFile subscribe).
Local Abbreviation enqueue_push := (enqueue_push maxChars soundsDir isFile subscribe).
Local Abbreviation processQueue_begin := (processQueue_begin subscribe).
Local Abbreviation step := (step maxChars soundsDir isFile subscribe).
Local Abbreviation run := (run maxChars soundsDir isFile subscribe).
Local Abbreviation itemsOfRequest := (itemsOfRequest maxChars soundsDir isFile).

Lemma processQueue_begin_declines g q q' item rest :
  processQueue_begin g q = (None, q') ->
  queues q !! g = Some (item :: rest) ->
  currentConnections q !! g <> None -> players q !! g <> None ->
  processing q !! g = Some true \/
  exists status, players q !! g = Some status /\ isIdle status = false.
Proof.
  unfold TtsQueue.processQueue_begin, getConnectionOrNull. intros H Hq Hc Hp. rewrite Hq in H.
  destruct (processing q !! g) as [[|]|]; [by left| |];
    (destruct (players q !! g) as [[| | | |]|]; [|right; eauto..|done];
     destruct (currentConnections q !! g); done).
Qed.

(** A call of [processQueue] for guild [g] leaves the queue of [g]
    attended, whatever it found, as long as [g] is equipped. *)
Lemma processQueue_begin_attends g q :
  equipped g q -> (forall g', g' <> g -> equipped g' q /\ attended g' q) ->
  stallFree (processQueue_begin g q).2.
Proof.
  intros Hg Ho.
  assert (connectionKnown q) as Hk.
  { intros g' i r Hq. destruct (decide (g' = g)) as [->|Hne].
    - by apply (Hg i r).
    - by apply (proj1 (Ho g' Hne) i r). }
  pose proof (PlaybackFacts.processQueue_begin_spec subscribe g q Hk) as H.
  pose proof (processQueue_begin_declines g q) as Hd.
  destruct (processQueue_begin g q) as [taken q']. cbn.
  destruct H as (Hpl & Hc & _ & H). intros g'.
  destruct taken as [item|].
  - destruct H as (rest & Hq & Hq' & _ & Hp').
    unfold equipped, attended. rewrite Hq', Hpl, Hc, Hp'.
    destruct (decide (g' = g)) as [->|Hne].
    + rewrite !lookup_insert_eq. split.
      * intros i r _. by apply (Hg item rest).
      * intros i r _. by left.
    + rewrite !lookup_insert_ne by done. apply (Ho g' Hne).
  - destruct H as [Hq' Hp']. unfold equipped, attended. rewrite Hq', Hpl, Hc, Hp'.
    destruct (decide (g' = g)) as [->|Hne]; [|apply (Ho g' Hne)].
    split; [exact Hg|]. intros i r Hq. destruct (Hg i r Hq) as [Hcon Hplay].
    by apply (Hd q' i r).
Qed.

Lemma stallFree_frame q q' :
  queues q' = queues q -> players q' = players q -> processing q' = processing q ->
  (forall g, currentConnections q !! g <> None -> currentConnections q' !! g <> None) ->
  stallFree q -> stallFree q'.
Proof.
  intros Hq Hp Hpr Hc H g. destruct (H g) as [He Ha]. unfold equipped, attended.
  rewrite Hq, Hp, Hpr. split; [|exact Ha].
  intros i r Hi. destruct (He i r Hi). split; [by apply Hc|done].
Qed.

Lemma stallFree_enqueue g text c now time q :
  stallFree q -> stallFree (enqueue g text c now time q).2.
Proof.
  intros H. rewrite enqueue_cases. destruct (_ <? _)%Z; [done|]. cbv zeta.
  set (q1 := set_currentConnections _ _).
  assert (stallFree q1) as H1.
  { apply (stallFree_frame q); try done. intros g' Hc. unfold q1. cbn.
    rewrite lookup_insert. by case_decide. }
  destruct (sanitizeText maxChars text) as [|a t]; [done|].
  set (q2 := enqueue_push g (a :: t) c time q1).
  destruct (QueueFacts.enqueue_push_frame maxChars soundsDir isFile subscribe g (a :: t) c time q1)
    as (Hc2 & _ & Hp2).
  cbv zeta in Hc2, Hp2. fold q2 in Hc2, Hp2.
  pose proof (enqueue_push_players maxChars soundsDir isFile subscribe g (a :: t) c time q1) as Hpl2.
  fold q2 in Hpl2.
  pose proof (processQueue_begin_attends g q2) as Hb.
  destruct (processQueue_begin g q2) as [taken q3]. cbn in *. apply Hb.
  - intros i r _. rewrite Hc2, Hpl2. unfold q1. cbn. rewrite lookup_insert_eq. split; [done|].
    destruct (players q !! g) as [st|] eqn:Ep; [by rewrite Ep|by rewrite lookup_insert_eq].
  - intros g' Hne. destruct (H1 g') as [He Ha]. unfold equipped, attended.
    unfold q2 at 1 4.
    rewrite !(PlaybackFacts.enqueue_push_queues maxChars soundsDir isFile subscribe).
    rewrite decide_False by done. rewrite Hc2, Hp2.
    assert (players q2 !! g' = players q1 !! g') as ->.
    { rewrite Hpl2. change (players q1) with (players q).
      destruct (players q !! g); [done|]. by rewrite lookup_insert_ne. }
    done.
Qed.

Lemma stallFree_finally g q :
  stallFree q -> stallFree (processQueue_finally subscribe g q).2.
Proof.
  intros H. unfold Playback.processQueue_finally. cbv zeta.
  set (q1 := set_processing _ _).
  assert (equipped g q1) as He by apply (H g).
  assert (forall g', g' <> g -> equipped g' q1 /\ attended g' q1) as Ho.
  { intros g' Hne. destruct (H g') as [He' Ha']. split; [exact He'|].
    unfold attended, q1. cbn. by rewrite lookup_insert_ne. }
  destruct (queues q1 !! g) as [[|i r]|] eqn:Eq.
  - intros g'. destruct (decide (g' = g)) as [->|Hne]; [|by apply Ho].
    split; [done|]. intros i r Hi. change (queues q1 !! g = Some (i :: r)) in Hi. congruence.
  - by apply processQueue_begin_attends.
  - intros g'. destruct (decide (g' = g)) as [->|Hne]; [|by apply Ho].
    split; [done|]. intros i r Hi. change (queues q1 !! g = Some (i :: r)) in Hi. congruence.
Qed.

Lemma stallFree_status g status q :
  stallFree q -> isIdle status = false -> players q !! g <> None ->
  stallFree (set_players (<[g := status]> (players q)) q).
Proof.
  intros H Hs Hp g'. destruct (H g') as [He Ha]. unfold equipped, attended. cbn.
  destruct (decide (g' = g)) as [->|Hne].
  - rewrite lookup_insert_eq. split.
    + intros i r Hi. destruct (He i r Hi). done.
    + intros i r Hi. right. eauto.
  - by rewrite lookup_insert_ne.
Qed.

Lemma stallFree_step e σ σ' :
  step e σ = Some σ' -> stallFree (queue σ) -> stallFree (queue σ').
Proof.
  intros Hstep H.
  destruct e as [r|t started|t|g|g|g status|g]; cbn [Playback.step] in Hstep.
  - pose proof (stallFree_enqueue (req_guildId r) (req_text r) (req_connection r)
                  (req_now r) (req_stamp r) (queue σ) H) as He.
    destruct (enqueue _ _ _ _ _ _) as [result q]. by injection Hstep as <-.
  - destruct (flights σ !! t) as [[g item|g item|g item]|]; try done.
    injection Hstep as <-. cbn [queue].
    destruct (players (queue σ) !! g) as [st|] eqn:Ep.
    + replace (alter (fun _ => if started then Playing else Buffering) g (players (queue σ)))
        with (<[g := if started then Playing else Buffering]> (players (queue σ))).
      * apply stallFree_status; [done|by destruct started|by rewrite Ep].
      * apply map_eq. intros g'. destruct (decide (g' = g)) as [->|Hne].
        -- by rewrite lookup_insert_eq, lookup_alter_eq, Ep.
        -- by rewrite lookup_insert_ne, lookup_alter_ne.
    + replace (alter (fun _ => if started then Playing else Buffering) g (players (queue σ)))
        with (players (queue σ)).
      * by apply (stallFree_frame (queue σ)).
      * apply map_eq. intros g'. destruct (decide (g' = g)) as [->|Hne].
        -- by rewrite lookup_alter_eq, Ep.
        -- by rewrite lookup_alter_ne.
  - destruct (flights σ !! t) as [[g item|g item|g item]|]; try done;
      (pose proof (stallFree_finally g (queue σ) H) as Hf;
       destruct (processQueue_finally subscribe g (queue σ)) as [taken q];
       by injection Hstep as <-).
  - destruct (players (queue σ) !! g) as [st|] eqn:Ep; [|done].
    destruct (isIdle st); [done|].
    set (q1 := set_players _ _) in *.
    pose proof (processQueue_begin_attends g q1) as Hb.
    destruct (processQueue_begin g q1) as [taken q2]. injection Hstep as <-. cbn in *.
    apply Hb.
    + intros i r Hi. destruct (proj1 (H g) i r Hi) as [Hc _]. split; [done|].
      unfold q1. cbn. by rewrite lookup_insert_eq.
    + intros g' Hne. destruct (H g') as [He Ha]. unfold equipped, attended, q1. cbn.
      by rewrite lookup_insert_ne.
  - destruct (players (queue σ) !! g) as [st|] eqn:Ep; [|done].
    pose proof (processQueue_begin_attends g (queue σ)) as Hb.
    destruct (processQueue_begin g (queue σ)) as [taken q2]. injection Hstep as <-. cbn in *.
    apply Hb; [apply (H g)|]. intros g' _. apply (H g').
  - destruct (players (queue σ) !! g) as [st|] eqn:Ep; [|done].
    destruct (isIdle st) eqn:Es; [done|]. destruct (isIdle status) eqn:Es'; [done|].
    injection Hstep as <-. cbn [queue]. apply stallFree_status; [done|done|by rewrite Ep].
  - injection Hstep as <-. cbn [queue]. intros g'. destruct (H g') as [He Ha].
    unfold equipped, attended, stop.
    destruct (queues (queue σ) !! g) as [l|] eqn:Eq; cbn.
    + destruct (decide (g' = g)) as [->|Hne].
      * rewrite lookup_insert_eq. done.
      * rewrite !lookup_insert_ne by done. done.
    + destruct (decide (g' = g)) as [->|Hne].
      * rewrite Eq. done.
      * rewrite lookup_insert_ne by done. done.
Qed.

Lemma stallFree_run es : forall σ σ',
  run es σ = Some σ' -> stallFree (queue σ) -> stallFree (queue σ').
Proof.
  induction es as [|e es IH]; intros σ σ'; cbn.
  - by intros [= <-].
  - destruct (step e σ) as [σ1|] eqn:E; [|done].
    intros Hrun H. eapply IH; [exact Hrun|]. eapply stallFree_step; eauto.
Qed.

(** X21. The queue never stalls. At every state the queue can reach, calls
    of [stop] included, a guild that has items waiting has a call of
    [processQueue] with its flag set, or a player that is not idle: the
    [finally] block of that call, or the [Idle] event of that player, will
    look at the queue again. *)
Theorem queue_never_stalls es σ g item rest :
  run es initialSystem = Some σ ->
  queues (queue σ) !! g = Some (item :: rest) ->
  processing (queue σ) !! g = Some true \/
  exists status, players (queue σ) !! g = Some status /\ status <> Idle.
Proof.
  intros Hrun Hq.
  assert (stallFree (queue initialSystem)) as H0.
  { intros g'. split; intros i r; cbn; by rewrite lookup_empty. }
  destruct (stallFree_run es _ _ Hrun H0 g) as [_ Ha].
  destruct (Ha item rest Hq) as [Hp|(st & Hs & Hi)]; [by left|].
  right. exists st. split; [done|]. by intros ->.
Qed.

Lemma countActive_member g fls t fl :
  fls !! t = Some fl -> activeOf g fl = true -> 1 <= countActive g fls.
Proof.
  intros Ht Ha. rewrite <- (take_drop_middle fls t fl Ht).
  rewrite PlaybackFacts.countActive_app, PlaybackFacts.countActive_cons, Ha. lia.
Qed.

(** X22. [stop] does not cancel the item that is being synthesized, and it
    clears the flag that guards it. If a call of [processQueue] is
    suspended before [player.play] while the player is still idle, then
    after [stop] the next [enqueue] that passes the rate limit and pushes
    at least one item starts a second call of [processQueue] for the same
    guild at once: two calls are in flight together. *)
Theorem stop_then_enqueue_overlaps σ t g item r first others :
  flights σ !! t = Some (AwaitResource g item) ->
  players (queue σ) !! g = Some Idle ->
  req_guildId r = g ->
  (minRequestInterval <= req_now r - lastOf g (queue σ))%Z ->
  itemsOfRequest r = first :: others ->
  exists σ',
    run [Stop g; Enqueue r] σ = Some σ' /\
    flights σ' = flights σ ++ [AwaitResource g first] /\
    2 <= countActive g (flights σ').
Proof.
  intros Ht Hpl Hg Hrate Hitems. cbn [Playback.run Playback.step queue flights].
  rewrite Hg. rewrite enqueue_cases.
  set (q0 := stop g (queue σ)).
  assert (queues q0 !! g = None \/ queues q0 !! g = Some []) as Hq0.
  { unfold q0, stop. destruct (queues (queue σ) !! g) eqn:E; cbn;
      [right; by rewrite lookup_insert_eq|by left]. }
  assert (players q0 = players (queue σ) /\ lastRequestTime q0 = lastRequestTime (queue σ) /\
          processing q0 !! g = Some false) as (Hpl0 & Hl0 & Hp0).
  { unfold q0, stop. destruct (queues (queue σ) !! g); cbn; by rewrite lookup_insert_eq. }
  unfold lastOf in *. rewrite Hl0. rewrite (proj2 (Z.ltb_ge _ _) Hrate). cbv zeta.
  unfold PlaybackVocabulary.itemsOfRequest in Hitems. rewrite Hg in Hitems.
  destruct (sanitizeText maxChars (req_text r)) as [|a s] eqn:Es; [done|].
  set (q1 := set_currentConnections _ _).
  set (q2 := enqueue_push g (a :: s) (req_connection r) (req_stamp r) q1).
  destruct (QueueFacts.enqueue_push_frame maxChars soundsDir isFile subscribe
              g (a :: s) (req_connection r) (req_stamp r) q1) as (Hc2 & _ & Hp2).
  cbv zeta in Hc2, Hp2. fold q2 in Hc2, Hp2.
  pose proof (enqueue_push_players maxChars soundsDir isFile subscribe
                g (a :: s) (req_connection r) (req_stamp r) q1) as Hpl2.
  fold q2 in Hpl2.
  pose proof (PlaybackFacts.enqueue_push_queues maxChars soundsDir isFile subscribe
                g (a :: s) (req_connection r) (req_stamp r) q1 g) as Hq2.
  fold q2 in Hq2. rewrite decide_True in Hq2 by done. rewrite Hitems in Hq2.
  assert (default [] (queues q1 !! g) = []) as Hd
    by (change (queues q1 !! g) with (queues q0 !! g); destruct Hq0 as [E|E]; by rewrite E).
  rewrite Hd in Hq2. cbn [app] in Hq2.
  pose proof (processQueue_begin_takes subscribe g q2 first others (req_connection r)) as Hb.
  destruct (processQueue_begin g q2) as [taken q3]. cbn [fst] in Hb.
  rewrite Hb.
  - eexists. split; [reflexivity|]. cbn [flights launch]. split; [done|].
    rewrite PlaybackFacts.countActive_app.
    pose proof (countActive_member g (flights σ) t _ Ht) as Hm.
    unfold countActive at 2. unfold activeOf in *. cbn.
    rewrite bool_decide_eq_true_2 in * by done. cbn in *. specialize (Hm eq_refl). lia.
  - rewrite Hp2. change (processing q1) with (processing q0). by rewrite Hp0.
  - done.
  - rewrite Hpl2. change (players q1) with (players q0). by rewrite Hpl0, Hpl.
  - unfold getConnectionOrNull. rewrite Hc2. unfold q1. cbn. by rewrite lookup_insert_eq.
Qed.
End Facts.

Lemma queue_never_stalls_witness :
  exists σ item,
    run 200 (str "sounds") noFiles granted [Enqueue helloRequest; Enqueue worldRequest]
      initialSystem = Some σ /\
    queues (queue σ) !! "G1" = Some [item] /\
    processing (queue σ) !! "G1" = Some true.
Proof.
  destruct (queue_never_stalls 200 (str "sounds") noFiles granted
              [Enqueue helloRequest; Enqueue worldRequest]
              (default initialSystem
                 (run 200 (str "sounds") noFiles granted
                    [Enqueue helloRequest; Enqueue worldRequest] initialSystem))
              "G1" (tts (str "world") {| req_guild := "G1"; req_time := 1300; req_index := 0 |}) [])
    as [Hp|(st & Hs & Hi)]; [vm_compute; reflexivity|vm_compute; reflexivity| |].
  - eexists. eexists. split; [vm_compute; reflexivity|]. split; [vm_compute; reflexivity|exact Hp].
  - vm_compute in Hs. injection Hs as <-. done.
Defined.

Lemma stop_then_enqueue_overlaps_witness :
  flights synthesizingHello !! 0 =
    Some (AwaitResource "G1" (tts (str "hello") {| req_guild := "G1"; req_time := 1000; req_index := 0 |})) /\
  players (queue synthesizingHello) !! "G1" = Some Idle /\
  exists σ',
    run 200 (str "sounds") noFiles granted [Stop "G1"; Enqueue worldRequest] synthesizingHello
      = Some σ' /\
    2 <= countActive "G1" (flights σ').
Proof.
  split; [vm_compute; reflexivity|]. split; [vm_compute; reflexivity|].
  destruct (stop_then_enqueue_overlaps 200 (str "sounds") noFiles granted
              synthesizingHello 0 "G1"
              (tts (str "hello") {| req_guild := "G1"; req_time := 1000; req_index := 0 |})
              worldRequest
              (tts (str "world") {| req_guild := "G1"; req_time := 1300; req_index := 0 |}) [])
    as (σ' & Hrun & _ & Hc);
    [vm_compute; reflexivity|vm_compute; reflexivity|reflexivity
    |vm_compute; discriminate|vm_compute; reflexivity|].
  exists σ'. split; assumption.
Defined.
End StallFacts.

(* ------------------------------------------------------------------ *)
(** ** The command [/say] *)
(* ------------------------------------------------------------------ *)

Module SayFacts.
Import VoiceManager TtsQueue QueueVocabulary SayCommand StopFacts Vocabulary SayVocabulary.

Section Facts.
Variable cfg : Config.
Variable maxChars : Z.
Variable soundsDir : list ascii.
Variable isFile : list ascii -> bool.
Variable subscribe : ConnId -> bool.

Local Abbreviation enqueue := (enqueue maxChars soundsDir isFile subscribe).
Local Abbreviation execute := (execute cfg maxChars soundsDir isFile subscribe).


End Facts.

End SayFacts.
